(** * My_Alarm.c: a thread-per-alarm scheduler

    A shallow embedding of [src/My_Alarm.c] and the properties of its
    alarm list, its parser and its three kinds of threads.

    - The chain of [alarm_t] structures that starts at [alarm_list] and
      follows the [link] fields is the list of its records, head first;
      [Links] has the structures and their [link] fields themselves.
    - Each thread routine is a program over the calls it makes (locking,
      reading and writing the shared variables, [time], [printf], [sleep],
      ...); the body of its [while (1)] loop ends in [Again].
    - A configuration holds the shared variables, the mutex owner, the
      pool of threads, the unread standard input and the log of the calls
      made so far; [step] lets one thread make its next call, and a
      schedule is any sequence of such steps: the threads interleave call
      by call, and every thread sees the writes of the others at once.
    - What the program cannot decide (the time read, whether [malloc] and
      [pthread_create] succeed) is an answer given with each step. A
      mutex that is not free keeps the caller of [pthread_mutex_lock]
      waiting; locking a free mutex and unlocking one's own succeed. *)

From Stdlib Require Import ZArith String Ascii List Sorted Lia Bool.
From Stdlib Require Import DecimalString DecimalZ DecimalPos Permutation.
From stdpp Require Import base list gmap.
Import ListNotations.

Local Open Scope Z_scope.

(** ** The alarm record *)

(** [struct alarm_tag], without [link]: the position in the list stands for
    it. [time_t] values are integers; nothing in the program bounds them.
    [message] is the string that [sscanf] matched for the request, up to
    [message_width] characters. The field is [char message[64]]: a string
    of fewer than [message_size] characters lies in it with its
    terminator, and is what [%s] prints of the record from then on. A
    string of 64 characters has its terminator behind the array
    ([message_overruns_buffer]); what a later [%s] prints of such a record
    depends on what else is written there, and the record of the model,
    which keeps the 64 characters, does not say. *)
Record alarm_t := mk_alarm {
  seconds : Z;
  time : Z;          (* seconds from EPOCH *)
  message : string
}.

(** Size of the [message] array of [alarm_t], terminator included. *)
Definition message_size : nat := 64.

(** ** Sorted insertion (main, lines 186-206) *)

(** The walk of [last]/[next] along the list: at the first [next] with
    [next->time >= alarm->time] the new record is linked before it; when
    [next] becomes NULL the record is linked at the end. *)
Fixpoint insert (alarm : alarm_t) (l : list alarm_t) : list alarm_t :=
  match l with
  | [] => [alarm]
  | next :: rest =>
      if time next >=? time alarm then alarm :: next :: rest
      else next :: insert alarm rest
  end.

(** Non-decreasing in [time], neighbour by neighbour. *)
Definition time_le (a b : alarm_t) : Prop := time a <= time b.
Definition sorted (l : list alarm_t) : Prop := Sorted time_le l.

(** ** The list in memory *)

(** The same lines on structures in memory, with [last] a pointer to the
    place to be written; [insert_links_refines] and [unlink_head_refines]
    relate them to [insert] and to the tail of the list. *)
Module Links.

Abbreviation addr := nat (only parsing).

(** [struct alarm_tag] as it lies in memory: [link], and the other three
    fields. *)
Record node := mk_node {
  link : option addr;
  fields : alarm_t
}.

Record memory := mk_memory {
  head : option addr;               (* the variable alarm_list *)
  nodes : gmap addr node            (* the structures allocated *)
}.

(** What [last] points to: [alarm_list] itself, or the [link] field of a
    structure. *)
Inductive place :=
  | ListHead
  | LinkOf (a : addr).

Definition load (m : memory) (p : place) : option (option addr) :=
  match p with
  | ListHead => Some (head m)
  | LinkOf a => link <$> nodes m !! a
  end.

Definition store (m : memory) (p : place) (v : option addr) : option memory :=
  match p with
  | ListHead => Some (mk_memory v (nodes m))
  | LinkOf a =>
      match nodes m !! a with
      | Some nd => Some (mk_memory (head m) (<[a := mk_node v (fields nd)]> (nodes m)))
      | None => None
      end
  end.

(** Lines 188-206, from the test of the [while]: [alarm] is the address of
    the new structure, [last] and [next] are the two variables of the
    walk. [None]: an address that is not allocated is used, or the walk is
    longer than [fuel]. *)
Fixpoint walk (fuel : nat) (m : memory) (alarm : addr) (last : place)
    (next : option addr) : option memory :=
  match next with
  | None =>
      m1 ← store m last (Some alarm);
      store m1 (LinkOf alarm) None
  | Some n =>
      match fuel with
      | O => None
      | S fuel' =>
          nd ← nodes m !! n;
          al ← nodes m !! alarm;
          if time (fields nd) >=? time (fields al) then
            m1 ← store m (LinkOf alarm) next;
            store m1 last (Some alarm)
          else walk fuel' m alarm (LinkOf n) (link nd)
      end
  end.

(** Lines 186-206. *)
Definition insert_links (m : memory) (alarm : addr) : option memory :=
  walk (size (nodes m)) m alarm ListHead (head m).

(** Lines 91 and 112 of alarm_thread on a list that is not empty:
    [alarm = alarm_list; alarm_list = alarm->link]. *)
Definition unlink_head (m : memory) : option (addr * memory) :=
  a ← head m;
  nd ← nodes m !! a;
  Some (a, mk_memory (link nd) (nodes m)).

(** The structures at [addrs], linked in this order from [p] to NULL,
    hold the records [l]. *)
Inductive chain (h : gmap addr node) : option addr -> list addr -> list alarm_t -> Prop :=
  | chain_nil : chain h None [] []
  | chain_cons a nxt x addrs l :
      h !! a = Some (mk_node nxt x) ->
      chain h nxt addrs l ->
      chain h (Some a) (a :: addrs) (x :: l).

Definition represents (m : memory) (addrs : list addr) (l : list alarm_t) : Prop :=
  chain (nodes m) (head m) addrs l /\ NoDup addrs.

End Links.

(** ** Reading a request: fgets, strlen, sscanf *)

Definition NUL : ascii := ascii_of_nat 0.
Definition newline : ascii := ascii_of_nat 10.

(** The C string held in a buffer: the characters before the first NUL. *)
Fixpoint c_str (s : string) : string :=
  match s with
  | EmptyString => EmptyString
  | String c s' => if Ascii.eqb c NUL then EmptyString else String c (c_str s')
  end.

Definition strlen (s : string) : nat := String.length (c_str s).

(** [fgets (line, size, stdin)]: at most [size - 1] characters, stopping
    after a newline; NULL ([None]) at end of input. The second component
    is the input left unread. *)
Fixpoint fgets_chars (n : nat) (input : string) : string * string :=
  match n, input with
  | S n', String c rest =>
      if Ascii.eqb c newline then (String c EmptyString, rest)
      else let (line, rest') := fgets_chars n' rest in (String c line, rest')
  | _, _ => (EmptyString, input)
  end.

Definition fgets (size : nat) (input : string) : option (string * string) :=
  match input with
  | EmptyString => None
  | _ => Some (fgets_chars (size - 1) input)
  end.

Definition line_size : nat := 128.

(** [isspace] and [isdigit] in the C locale. *)
Definition isspace (c : ascii) : bool :=
  let n := nat_of_ascii c in
  Nat.eqb n 32 || (Nat.leb 9 n && Nat.leb n 13).

Definition isdigit (c : ascii) : bool :=
  let n := nat_of_ascii c in
  Nat.leb 48 n && Nat.leb n 57.

Definition digit_value (c : ascii) : Z := Z.of_nat (nat_of_ascii c) - 48.

Fixpoint skip_space (s : string) : string :=
  match s with
  | String c s' => if isspace c then skip_space s' else s
  | EmptyString => EmptyString
  end.

Fixpoint scan_digits (acc : Z) (s : string) : Z * string :=
  match s with
  | String c s' =>
      if isdigit c then scan_digits (acc * 10 + digit_value c) s' else (acc, s)
  | EmptyString => (acc, EmptyString)
  end.

(** What [%d] stores for a number that may not fit an [int]. The C standard
    leaves that case undefined; this is what the GNU C library does on an
    LP64 machine: [strtol] saturates to a [long], the store keeps the low
    32 bits. *)
Definition wrap (bits : Z) (v : Z) : Z :=
  let m := 2 ^ bits in
  let r := v mod m in
  if r <? 2 ^ (bits - 1) then r else r - m.

Definition saturate (bits : Z) (v : Z) : Z :=
  Z.max (- 2 ^ (bits - 1)) (Z.min (2 ^ (bits - 1) - 1) v).

Definition to_int (v : Z) : Z := wrap 32 (saturate 64 v).

(** [%[^\n]] with a field width: the longest run of at most [width]
    characters other than a newline. *)
Fixpoint scan_not_newline (width : nat) (s : string) : string * string :=
  match width, s with
  | S w, String c s' =>
      if Ascii.eqb c newline then (EmptyString, s)
      else let (m, rest) := scan_not_newline w s' in (String c m, rest)
  | _, _ => (EmptyString, s)
  end.

(** The outcome of [sscanf (line, "%d %64[^\n]", &alarm->seconds,
    alarm->message)]: the value returned and what was stored. *)
Inductive scanned :=
  | ScanEOF                                   (* input ended before a conversion *)
  | ScanNothing                               (* no number *)
  | ScanSeconds (secs : Z)                    (* a number, no message *)
  | ScanBoth (secs : Z) (msg : string).       (* both fields stored *)

Definition sscanf_count (r : scanned) : Z :=
  match r with
  | ScanEOF => -1
  | ScanNothing => 0
  | ScanSeconds _ => 1
  | ScanBoth _ _ => 2
  end.

(** The field width written in the format string. *)
Definition message_width : nat := 64.

Definition scan_message (secs : Z) (s : string) : scanned :=
  match scan_not_newline message_width (skip_space s) with
  | (EmptyString, _) => ScanSeconds secs
  | (msg, _) => ScanBoth secs msg
  end.

Definition scan_number (negative : bool) (s : string) : scanned :=
  match s with
  | String d _ =>
      if isdigit d then
        let (v, rest) := scan_digits 0 s in
        scan_message (to_int (if negative then - v else v)) rest
      else ScanNothing
  | EmptyString => ScanNothing
  end.

Definition sscanf_alarm (line : string) : scanned :=
  match skip_space (c_str line) with
  | EmptyString => ScanEOF
  | String c s' =>
      if Ascii.eqb c "-"%char then scan_number true s'
      else if Ascii.eqb c "+"%char then scan_number false s'
      else scan_number false (String c s')
  end.

(** The fields as the record holds them after the call; a field that was
    not stored is never read by the program. *)
Definition scanned_seconds (r : scanned) : Z :=
  match r with
  | ScanSeconds s | ScanBoth s _ => s
  | _ => 0
  end.

Definition scanned_message (r : scanned) : string :=
  match r with
  | ScanBoth _ m => m
  | _ => EmptyString
  end.

(** ** Threads as programs over their calls *)

(** Threads are numbered in the order of their creation. *)
Abbreviation tid := nat.

(** The lines the program prints: each constructor is one call of [printf]
    or [fprintf], with the arguments given to it. The times are [time_t]
    values given to [%d]: the line shows such an argument as it is when it
    fits an [int], and its low 32 bits otherwise. *)
Inductive report :=
  | Prompt                                          (* "alarm> " *)
  | BadCommand                                      (* "Bad command", on stderr *)
  | Received (now expires : Z) (msg : string)       (* "Alarm Recieved at %d:%d %s" *)
  | Retrieved (now expires : Z) (msg : string)      (* "Alarm Retrieved at %d:%d %s" *)
  | Tick (expires : Z) (msg : string)               (* "Alarm:%d %s" *)
  | Expired (now expires : Z) (msg : string).       (* "Alarm Expired at %d:%d %s" *)

(** The start routines given to [pthread_create]. *)
Inductive routine :=
  | AlarmThread
  | IndividualAlarmThread (alarm : alarm_t).

(** A program is the tree of the calls a thread can make next; the
    continuation of a call takes what the call returns. [Again] is the end
    of the body of [while (1)], and [continue]. *)
Inductive prog :=
  | Again
  | PthreadExit
  | ErrAbort (text : string)
  | NullDeref
  | MutexLock (k : Z -> prog)
  | MutexUnlock (k : Z -> prog)
  | ReadList (k : list alarm_t -> prog)
  | WriteList (l : list alarm_t) (k : prog)
  | ReadDone (k : Z -> prog)
  | WriteDone (v : Z) (k : prog)
  | Time (k : Z -> prog)
  | Printf (r : report) (k : prog)
  | Sleep (n : Z) (k : prog)
  | Fgets (k : option string -> prog)
  | Malloc (k : bool -> prog)
  | Free (k : prog)
  | PthreadCreate (start : routine) (k : Z -> prog).

Declare Scope prog_scope.
Delimit Scope prog_scope with prog.
Bind Scope prog_scope with prog.
Notation "x <- c ; k" := (c (fun x => k))
  (at level 20, c at level 100, k at level 200, only parsing) : prog_scope.
Notation "c ;; k" := (c k)
  (at level 100, k at level 200, only parsing, right associativity) : prog_scope.
Notation "'unless_ok' status 'abort' text ; k" :=
  (if negb (status =? 0) then ErrAbort text else k)
  (at level 20, status at level 0, text at level 0, k at level 200,
   only parsing) : prog_scope.

Local Open Scope prog_scope.

(** *** individual_alarm_thread (lines 41-65) *)

Definition individual_alarm_thread (alarm : alarm_t) : prog :=
  now <- Time;
  if time alarm <=? now then
    Printf (Expired now (time alarm) (message alarm));;
    Free;;
    PthreadExit
  else
    Printf (Tick (time alarm) (message alarm));;
    Sleep 1;;
    Again.

(** *** alarm_thread (lines 69-125) *)

(** Lines 121-123, then the next turn of the loop. *)
Definition unlock_and_repeat : prog :=
  status <- MutexUnlock;
  unless_ok status abort "Unlock mutex";
  Again.

(** [sleep_time = 1] on line 97 assigns a local variable that nothing
    reads: it leaves no call in the program. With [alarm == NULL] and
    [alarm_done] neither 0 nor 1 the last [else] dereferences [alarm]. *)
Definition alarm_thread : prog :=
  status <- MutexLock;
  unless_ok status abort "Lock mutex";
  alarm <- ReadList;
  match alarm with
  | [] =>
      done0 <- ReadDone;
      if done0 =? 0 then unlock_and_repeat
      else
        done1 <- ReadDone;
        if done1 =? 1 then PthreadExit
        else NullDeref
  | a :: link =>
      now <- Time;
      Printf (Retrieved now (time a) (message a));;
      WriteList link;;
      status <- PthreadCreate (IndividualAlarmThread a);
      unless_ok status abort "create individual alarm thread";
      unlock_and_repeat
  end.

(** *** main (lines 127-216) *)

(** Line 177: the record once [sscanf] has filled it and [time] returned
    [t0]. *)
Definition parsed_alarm (r : scanned) (t0 : Z) : alarm_t :=
  {| seconds := scanned_seconds r;
     time := t0 + scanned_seconds r;
     message := scanned_message r |}.

(** Lines 174-213: the request was parsed. *)
Definition queue_alarm (r : scanned) : prog :=
  status <- MutexLock;
  unless_ok status abort "Lock mutex";
  t <- Time;
  let alarm := parsed_alarm r t in
  now <- Time;
  Printf (Received now (time alarm) (message alarm));;
  l <- ReadList;
  WriteList (insert alarm l);;
  unlock_and_repeat.

(** The body of the loop of lines 144-215. *)
Definition main_loop : prog :=
  Printf Prompt;;
  line <- Fgets;
  match line with
  | None =>
      WriteDone 1;;
      PthreadExit
  | Some line =>
      if (strlen line <=? 1)%nat then Again
      else
        allocated <- Malloc;
        if negb allocated then ErrAbort "Allocate alarm"
        else
          let r := sscanf_alarm line in
          if sscanf_count r <? 2 then
            Printf BadCommand;;
            Free;;
            Again
          else queue_alarm r
  end.

(** Lines 137-140, before the loop. *)
Definition main : prog :=
  status <- PthreadCreate AlarmThread;
  unless_ok status abort "Create alarm thread";
  Again.

(** ** Configurations and steps *)

(** What a thread did, with what the call returned. *)
Inductive event :=
  | EvLock
  | EvUnlock
  | EvReadList (l : list alarm_t)
  | EvWriteList (l : list alarm_t)
  | EvReadDone (v : Z)
  | EvWriteDone (v : Z)
  | EvTime (now : Z)
  | EvPrintf (r : report)
  | EvSleep (n : Z)
  | EvFgets (line : option string)
  | EvMalloc (allocated : bool)
  | EvFree
  | EvCreate (start : routine) (status : Z)
  | EvExit
  | EvAbort (text : string)
  | EvNullDeref.

Inductive tstate :=
  | Running (pc : prog)
  | Exited.

(** A thread: the routine it was started with ([None] for the initial
    thread, which runs [main]) and where it stands. *)
Record thread := mk_thread {
  started : option routine;
  state : tstate
}.

(** The body of the [while (1)] loop of each routine. *)
Definition loop_body (r : option routine) : prog :=
  match r with
  | None => main_loop
  | Some AlarmThread => alarm_thread
  | Some (IndividualAlarmThread alarm) => individual_alarm_thread alarm
  end.

Definition new_thread (r : routine) : thread :=
  {| started := Some r; state := Running Again |}.

(** Modelled from the spec: [err_abort] and [errno_abort] are macros of
    [errors.h], which is not among the sources; by section 7 of the
    specification they end the whole process at once, with a diagnostic
    ([Aborted], with the text given to the macro).
    [Undefined]: a thread did something C gives no meaning to (a NULL
    pointer dereferenced, a mutex unlocked by a thread that does not hold
    it). No thread moves once the process is not [Alive]. *)
Inductive pstate :=
  | Alive
  | Aborted (text : string)
  | Undefined.

Record config := mk_config {
  alarm_list : list alarm_t;
  alarm_done : Z;
  alarm_mutex : option tid;        (* the thread that holds it *)
  threads : list thread;
  stdin : string;                  (* the input not yet read *)
  log : list (tid * event);
  process : pstate
}.

Definition initial (input : string) : config :=
  {| alarm_list := [];
     alarm_done := 0;
     alarm_mutex := None;
     threads := [ {| started := None; state := Running main |} ];
     stdin := input;
     log := [];
     process := Alive |}.

Definition set_list (l : list alarm_t) (c : config) : config :=
  mk_config l (alarm_done c) (alarm_mutex c) (threads c) (stdin c) (log c) (process c).
Definition set_done (v : Z) (c : config) : config :=
  mk_config (alarm_list c) v (alarm_mutex c) (threads c) (stdin c) (log c) (process c).
Definition set_mutex (m : option tid) (c : config) : config :=
  mk_config (alarm_list c) (alarm_done c) m (threads c) (stdin c) (log c) (process c).
Definition set_threads (ths : list thread) (c : config) : config :=
  mk_config (alarm_list c) (alarm_done c) (alarm_mutex c) ths (stdin c) (log c) (process c).
Definition set_stdin (s : string) (c : config) : config :=
  mk_config (alarm_list c) (alarm_done c) (alarm_mutex c) (threads c) s (log c) (process c).
Definition set_process (p : pstate) (c : config) : config :=
  mk_config (alarm_list c) (alarm_done c) (alarm_mutex c) (threads c) (stdin c) (log c) p.
Definition add_log (t : tid) (e : event) (c : config) : config :=
  mk_config (alarm_list c) (alarm_done c) (alarm_mutex c) (threads c) (stdin c)
            (log c ++ [(t, e)]) (process c).

(** Thread [t] made the call logged as [e] and stands at [st]. *)
Definition moved (t : tid) (r : option routine) (st : tstate) (e : event)
    (c : config) : config :=
  add_log t e (set_threads (<[t := mk_thread r st]> (threads c)) c).

Definition holds (t : tid) (c : config) : bool :=
  match alarm_mutex c with
  | Some o => Nat.eqb o t
  | None => false
  end.

(** The call a thread standing at [pc] makes next: at [Again] the loop
    body starts over. *)
Definition fetch (r : option routine) (pc : prog) : prog :=
  match pc with
  | Again => loop_body r
  | _ => pc
  end.

(** One call [p] of thread [t]. [answer] is what the outside world
    decides: the time read by [time], the status of [pthread_create], and
    whether [malloc] finds memory (0: it does). [None]: the thread cannot
    move (it waits for the mutex). *)
Definition exec (t : tid) (r : option routine) (p : prog) (answer : Z)
    (c : config) : option config :=
  let go pc e c' := Some (moved t r (Running pc) e c') in
  match p with
  | Again => Some c
  | PthreadExit => Some (moved t r Exited EvExit c)
  | ErrAbort text => Some (set_process (Aborted text) (add_log t (EvAbort text) c))
  | NullDeref => Some (set_process Undefined (add_log t EvNullDeref c))
  | MutexLock k =>
      match alarm_mutex c with
      | None => go (k 0) EvLock (set_mutex (Some t) c)
      | Some _ => None
      end
  | MutexUnlock k =>
      if holds t c then go (k 0) EvUnlock (set_mutex None c)
      else Some (set_process Undefined (add_log t EvUnlock c))
  | ReadList k => go (k (alarm_list c)) (EvReadList (alarm_list c)) c
  | WriteList l k => go k (EvWriteList l) (set_list l c)
  | ReadDone k => go (k (alarm_done c)) (EvReadDone (alarm_done c)) c
  | WriteDone v k => go k (EvWriteDone v) (set_done v c)
  | Time k => go (k answer) (EvTime answer) c
  | Printf rep k => go k (EvPrintf rep) c
  | Sleep n k => go k (EvSleep n) c
  | Fgets k =>
      match fgets line_size (stdin c) with
      | None => go (k None) (EvFgets None) c
      | Some (line, rest) => go (k (Some line)) (EvFgets (Some line)) (set_stdin rest c)
      end
  | Malloc k => go (k (answer =? 0)) (EvMalloc (answer =? 0)) c
  | Free k => go k EvFree c
  | PthreadCreate start k =>
      if answer =? 0 then
        go (k 0) (EvCreate start 0) (set_threads (threads c ++ [new_thread start]) c)
      else go (k answer) (EvCreate start answer) c
  end.

Definition step (t : tid) (answer : Z) (c : config) : option config :=
  match process c with
  | Alive =>
      match threads c !! t with
      | Some (mk_thread r (Running pc)) => exec t r (fetch r pc) answer c
      | _ => None
      end
  | _ => None
  end.

(** A schedule: which thread moves, and the world's answer to its call. *)
Record move := mk_move { who : tid; answer : Z }.

Fixpoint run (ms : list move) (c : config) : option config :=
  match ms with
  | [] => Some c
  | m :: ms' =>
      match step (who m) (answer m) c with
      | Some c' => run ms' c'
      | None => None
      end
  end.

(** Thread [t] alone makes [length answers] calls in a row. *)
Definition run_thread (t : tid) (answers : list Z) (c : config) : option config :=
  run (map (mk_move t) answers) c.

Definition reachable (input : string) (c : config) : Prop :=
  exists ms, run ms (initial input) = Some c.

(** ** What the proofs speak of *)

(** *** The lock discipline and the invariant *)

Definition is_dispatcher (r : option routine) : bool :=
  match r with
  | Some AlarmThread => true
  | _ => false
  end.

Definition is_worker (r : option routine) : bool :=
  match r with
  | Some (IndividualAlarmThread _) => true
  | _ => false
  end.

(** Who runs as thread [t]: [main] is thread 0, [alarm_thread] thread 1,
    and every later thread an [individual_alarm_thread]. *)
Definition role_at (t : tid) (r : option routine) : Prop :=
  match t with
  | O => r = None
  | S O => r = Some AlarmThread
  | _ => is_worker r = true
  end.

(** [disciplined role seen held p]: what holds of every call that [p] can
    make, for a thread started with [role] that holds the mutex exactly
    when [held = true] and has last read [alarm_done >= seen]:
    - the mutex is locked only when not held and unlocked only when held,
      and never locked by an [individual_alarm_thread];
    - [alarm_list] is read and written, and [alarm_done] read, only with
      the mutex held; the lists written are sorted when those read are;
    - [alarm_done] is written only by [main], with 1, with the mutex NOT
      held, and [main] exits next;
    - only [alarm_thread] starts threads, each an [individual_alarm_thread];
    - a turn of the loop ends with the mutex not held;
    - the thread exits holding the mutex exactly when it is [alarm_thread];
    - an [individual_alarm_thread] never aborts the process;
    - no NULL pointer is dereferenced. *)
Fixpoint disciplined (role : option routine) (seen : Z) (held : bool)
    (p : prog) : Prop :=
  match p with
  | Again => held = false
  | PthreadExit => held = is_dispatcher role
  | ErrAbort _ => is_worker role = false
  | NullDeref => False
  | MutexLock k =>
      held = false /\ is_worker role = false /\ disciplined role seen true (k 0)
  | MutexUnlock k => held = true /\ disciplined role seen false (k 0)
  | ReadList k =>
      held = true /\ forall l, sorted l -> disciplined role seen held (k l)
  | WriteList l k => held = true /\ sorted l /\ disciplined role seen held k
  | ReadDone k =>
      held = true /\
      forall v, v = 0 \/ v = 1 -> seen <= v -> disciplined role v held (k v)
  | WriteDone v k => held = false /\ v = 1 /\ role = None /\ k = PthreadExit
  | Time k => forall now, disciplined role seen held (k now)
  | Printf _ k => disciplined role seen held k
  | Sleep _ k => disciplined role seen held k
  | Fgets k => forall line, disciplined role seen held (k line)
  | Malloc k => forall allocated, disciplined role seen held (k allocated)
  | Free k => disciplined role seen held k
  | PthreadCreate start k =>
      role = Some AlarmThread /\ is_worker (Some start) = true /\
      forall status, disciplined role seen held (k status)
  end.

(** A running thread is either [main] before its first call, alone, or
    disciplined; and once the flag is set all [main] has left to do is
    exit. *)
Definition running_ok (c : config) (t : tid) (r : option routine)
    (pc : prog) : Prop :=
  (pc = main /\ r = None /\ length (threads c) = 1%nat /\
   alarm_done c = 0 /\ holds t c = false)
  \/
  ((exists seen, seen <= alarm_done c /\ disciplined r seen (holds t c) pc) /\
   (r = None -> alarm_done c = 1 -> pc = PthreadExit)).

Definition thread_ok (c : config) (t : tid) (th : thread) : Prop :=
  role_at t (started th) /\
  (is_worker (started th) = true -> holds t c = false) /\
  match state th with
  | Running pc => running_ok c t (started th) pc
  | Exited => holds t c = is_dispatcher (started th)
  end.

Record inv (c : config) : Prop := mk_inv {
  inv_sorted : sorted (alarm_list c);
  inv_done : alarm_done c = 0 \/ alarm_done c = 1;
  inv_owner : forall o, alarm_mutex c = Some o -> (o < length (threads c))%nat;
  inv_threads : forall t th, threads c !! t = Some th -> thread_ok c t th;
  inv_process : process c <> Undefined
}.

(** The call thread [t] makes next, if it is running. *)
Definition next_call (c : config) (t : tid) : option prog :=
  match threads c !! t with
  | Some (mk_thread r (Running pc)) => Some (fetch r pc)
  | _ => None
  end.

Definition exited (c : config) (t : tid) : Prop :=
  exists r, threads c !! t = Some (mk_thread r Exited).

(** A program that can reach a call of [sleep]. *)
Inductive sleeps : prog -> Prop :=
  | sleeps_here n k : sleeps (Sleep n k)
  | sleeps_lock k s : sleeps (k s) -> sleeps (MutexLock k)
  | sleeps_unlock k s : sleeps (k s) -> sleeps (MutexUnlock k)
  | sleeps_read_list k l : sleeps (k l) -> sleeps (ReadList k)
  | sleeps_write_list l k : sleeps k -> sleeps (WriteList l k)
  | sleeps_read_done k v : sleeps (k v) -> sleeps (ReadDone k)
  | sleeps_write_done v k : sleeps k -> sleeps (WriteDone v k)
  | sleeps_time k now : sleeps (k now) -> sleeps (Time k)
  | sleeps_printf r k : sleeps k -> sleeps (Printf r k)
  | sleeps_fgets k line : sleeps (k line) -> sleeps (Fgets k)
  | sleeps_malloc k b : sleeps (k b) -> sleeps (Malloc k)
  | sleeps_free k : sleeps k -> sleeps (Free k)
  | sleeps_create r k s : sleeps (k s) -> sleeps (PthreadCreate r k).

(** *** The places of the dispatcher *)

(** The places of [alarm_thread] after its first call, last first. *)
Definition at_exit_test : prog :=
  ReadDone (fun done1 => if done1 =? 1 then PthreadExit else NullDeref).
Definition at_idle_test : prog :=
  ReadDone (fun done0 => if done0 =? 0 then unlock_and_repeat else at_exit_test).
Definition at_create (a : alarm_t) : prog :=
  PthreadCreate (IndividualAlarmThread a)
    (fun status =>
       if negb (status =? 0) then ErrAbort "create individual alarm thread"
       else unlock_and_repeat).
Definition at_unlink (a : alarm_t) (link : list alarm_t) : prog :=
  WriteList link (at_create a).
Definition at_report (now : Z) (a : alarm_t) (link : list alarm_t) : prog :=
  Printf (Retrieved now (time a) (message a)) (at_unlink a link).
Definition at_clock (a : alarm_t) (link : list alarm_t) : prog :=
  Time (fun now => at_report now a link).
Definition at_look : prog :=
  ReadList (fun alarm =>
    match alarm with
    | [] => at_idle_test
    | a :: link => at_clock a link
    end).

(** [dispatching c d st n]: [alarm_thread], run as thread [d], stands at
    [st] in [c]; if the flag is set it has at most [n] calls left to make. *)
Inductive dispatching (c : config) (d : tid) : tstate -> nat -> Prop :=
  | d_top :
      holds d c = false ->
      dispatching c d (Running Again) (7 * length (alarm_list c) + 5)
  | d_look :
      holds d c = true ->
      dispatching c d (Running at_look) (7 * length (alarm_list c) + 4)
  | d_idle_test :
      holds d c = true -> alarm_list c = [] ->
      dispatching c d (Running at_idle_test) 3
  | d_exit_test :
      holds d c = true -> dispatching c d (Running at_exit_test) 2
  | d_exit :
      holds d c = true -> dispatching c d (Running PthreadExit) 1
  | d_exited : dispatching c d Exited 0
  | d_clock a link :
      holds d c = true -> alarm_list c = a :: link ->
      dispatching c d (Running (at_clock a link)) (7 * length (alarm_list c) + 3)
  | d_report now a link :
      holds d c = true -> alarm_list c = a :: link ->
      dispatching c d (Running (at_report now a link)) (7 * length (alarm_list c) + 2)
  | d_unlink a link :
      holds d c = true -> alarm_list c = a :: link ->
      dispatching c d (Running (at_unlink a link)) (7 * length (alarm_list c) + 1)
  | d_create a :
      holds d c = true ->
      dispatching c d (Running (at_create a)) (7 * length (alarm_list c) + 7)
  | d_unlock :
      holds d c = true ->
      dispatching c d (Running unlock_and_repeat) (7 * length (alarm_list c) + 6)
  | d_abort text : dispatching c d (Running (ErrAbort text)) 1.


(** The dispatcher is always at one of its places. *)
Definition on_path (c : config) (d : tid) : Prop :=
  forall st, threads c !! d = Some (mk_thread (Some AlarmThread) st) ->
             exists n, dispatching c d st n.

(** *** Views of a configuration and of a run *)

Definition shared (c : config) : list alarm_t * Z * option tid :=
  (alarm_list c, alarm_done c, alarm_mutex c).

(** Thread [t], started with [r], is at the top of its loop. *)
Definition at_top (c : config) (t : tid) (r : option routine) : Prop :=
  process c = Alive /\ threads c !! t = Some (mk_thread r (Running Again)).

Definition by_thread (t : tid) (evs : list event) : list (tid * event) :=
  map (pair t) evs.

(** What one turn of the loop of [individual_alarm_thread] logs when
    [time] returns [now]. *)
Definition worker_turn (alarm : alarm_t) (now : Z) : list event :=
  EvTime now ::
  if time alarm <=? now then
    [EvPrintf (Expired now (time alarm) (message alarm)); EvFree; EvExit]
  else
    [EvPrintf (Tick (time alarm) (message alarm)); EvSleep 1].




Definition retrieved_message (e : tid * event) : option string :=
  match e with
  | (_, EvPrintf (Retrieved _ _ msg)) => Some msg
  | _ => None
  end.

(** *** Sample runs *)

Definition nl : string := String newline EmptyString.

Definition moves (t : tid) (answers : list Z) : list move := map (mk_move t) answers.

(** The configuration a schedule leads to from the start. *)
Definition after (input : string) (ms : list move) : config :=
  default (initial input) (run ms (initial input)).

Definition line_of (s : string) : string := (s ++ nl)%string.

(** [10 first] then [3 second], both queued before the dispatcher moves. *)
Definition two_requests : string := (line_of "10 first" ++ line_of "3 second")%string.
Definition two_queued : list move := moves 0%nat (repeat 0 21).

(** Two requests that expire at the same time, queued before the
    dispatcher moves. *)
Definition tie_first : alarm_t := mk_alarm 5 5 "first".
Definition tie_second : alarm_t := mk_alarm 5 5 "second".
Definition tie_requests : string := (line_of "5 first" ++ line_of "5 second")%string.
Definition tie_dispatched : list move :=
  moves 0%nat (repeat 0 21) ++ moves 1%nat (repeat 0 14).
(** [5 first] is queued and [main] is about to write the list with
    [5 second] in. *)
Definition tie_writing : config := after tie_requests (moves 0%nat (repeat 0 19)).
(** [10 first] is queued and [main] is back at its prompt. *)
Definition queued_config : config := after two_requests (moves 0%nat (repeat 0 11)).

Definition idle_config : config := after "" (moves 0%nat [0]).

Definition sixty_four : string :=
  "0123456789012345678901234567890123456789012345678901234567890123".
Definition long_request : string := line_of ("1 " ++ sixty_four).

(** The worker of [3 second], just started. *)
Definition worker_config : config :=
  after two_requests (two_queued ++ moves 1%nat (repeat 0 7)).
Definition worker_alarm : alarm_t := mk_alarm 3 3 "second".


(** A last line of one character, without a newline. *)
Definition one_character : string := "x".

Definition bad_request : string := line_of "abc".
Definition bad_config : config := after bad_request (moves 0%nat [0]).

(** End of input at once: [main] is about to set the flag while the
    dispatcher, between its reads of the list and of the flag, holds the
    mutex. *)
Definition race_schedule : list move :=
  moves 0%nat [0] ++ moves 1%nat [0; 0] ++ moves 0%nat [0; 0].
Definition race_config : config := after "" race_schedule.

(** No request at all: [main] and then the dispatcher have exited. *)
Definition finished_schedule : list move :=
  moves 0%nat (repeat 0 5) ++ moves 1%nat (repeat 0 5).
Definition finished_config : config := after "" finished_schedule.

(** ** Further definitions *)

(** *** Requests as they are typed *)

(** The characters of a string. *)
Definition chars (s : string) : list ascii := list_ascii_of_string s.

(** Only white space. *)
Definition blank (s : string) : Prop :=
  Forall (fun c => isspace c = true) (chars s).

(** A number as [printf ("%d")] writes it. *)
Definition decimal (n : Z) : string := NilZero.string_of_int (Z.to_int n).

(** What [%64[^\n]] can store whole: 1 to 64 characters, none of them a
    newline or NUL, the first one not white space. *)
Definition plain (msg : string) : Prop :=
  (String.length msg <= message_width)%nat /\
  ~ In newline (chars msg) /\ ~ In NUL (chars msg) /\
  match msg with
  | String c _ => isspace c = false
  | EmptyString => False
  end.

(** The values of an [int]. *)
Definition int_range (n : Z) : Prop := - 2 ^ 31 <= n < 2 ^ 31.

(** Lines that [sscanf] does not split into a number and a message, with
    what it makes of them: white space only; something that cannot start
    a number; a number with nothing but white space behind it. *)
Inductive incomplete : string -> scanned -> Prop :=
  | only_space ws : blank ws -> incomplete ws ScanEOF
  | no_number ws c rest :
      blank ws -> isspace c = false -> isdigit c = false ->
      c <> "-"%char -> c <> "+"%char -> c <> NUL ->
      incomplete (ws ++ String c rest) ScanNothing
  | no_message ws n sep :
      blank ws -> blank sep -> int_range n ->
      incomplete (ws ++ decimal n ++ sep) (ScanSeconds n).

(** The input is the one line [7]. *)
Definition number_only : string := line_of "7".
Definition number_only_config : config := after number_only (moves 0%nat [0]).

Module LinksSample.
Import Links.

(** One structure queued at address 1, a new one filled in at address 2
    whose [link] still holds what [malloc] left there. *)
Definition queued : alarm_t := mk_alarm 5 5 "queued".
Definition fresh : alarm_t := mk_alarm 2 2 "fresh".
Definition sample : memory :=
  mk_memory (Some 1%nat)
            (<[1%nat := mk_node None queued]> (<[2%nat := mk_node (Some 7%nat) fresh]> ∅)).

End LinksSample.

(** The lines printed, in order. *)
Definition printed (l : list (tid * event)) : list report :=
  omap (fun e => match e with
                 | (_, EvPrintf r) => Some r
                 | _ => None
                 end) l.

(** The answers a worker gets while it ticks at the times [nows], and
    what it logs. *)
Definition tick_answers (nows : list Z) : list Z :=
  flat_map (fun now => [now; 0; 0]) nows.

Definition tick_events (alarm : alarm_t) (nows : list Z) : list event :=
  flat_map (fun now => [EvTime now; EvPrintf (Tick (time alarm) (message alarm));
                        EvSleep 1]) nows.

(** The first request is about to be read. *)
Definition open_config : config := after two_requests (moves 0%nat [0]).

(** *** What a thread knows, and the records on their way *)

(** What the reports show of a record. *)
Definition shown (a : alarm_t) : Z * string := (time a, message a).

(** Who may print what: the prompt, the diagnostic and the receipt are
    [main]'s, the retrieval is the dispatcher's, and a tick or an expiry
    is printed by an [individual_alarm_thread] for its own record, the
    expiry not before its time. *)
Definition report_ok (role : option routine) (r : report) : Prop :=
  match r with
  | Prompt | BadCommand | Received _ _ _ => role = None
  | Retrieved _ _ _ => role = Some AlarmThread
  | Tick expires msg =>
      exists a, role = Some (IndividualAlarmThread a) /\
                expires = time a /\ msg = message a
  | Expired now expires msg =>
      exists a, role = Some (IndividualAlarmThread a) /\
                expires = time a /\ msg = message a /\ expires <= now
  end.

(** [traced role cur seen hand p]: what holds of every call that [p] can
    make, for a thread started with [role] that
    - has read or written the list [cur] since it locked the mutex
      ([None]: it has not),
    - has last read or written [alarm_done >= seen],
    - has the records [hand] in its hands: received and not yet linked
      into the list, or unlinked and not yet given to a thread.
    [main] writes the list it read with one record inserted, the one it
    reported as received; the dispatcher reports the head of the list it
    read as retrieved, writes that list without its head, and starts a
    thread for that head; the dispatcher exits only
    after it has read an empty list and the flag set, [main] only after it
    has set the flag; only [main] reads the input; nothing is in the hands
    of a thread at the top of its loop or at its exit. *)
Fixpoint traced (role : option routine) (cur : option (list alarm_t)) (seen : Z)
    (hand : list alarm_t) (p : prog) : Prop :=
  match p with
  | Again => hand = []
  | PthreadExit =>
      hand = [] /\
      match role with
      | None => seen = 1
      | Some AlarmThread => cur = Some [] /\ seen = 1
      | Some (IndividualAlarmThread _) => True
      end
  | ErrAbort _ => True
  | NullDeref => True
  | MutexLock k => traced role None seen hand (k 0)
  | MutexUnlock k => traced role None seen hand (k 0)
  | ReadList k => forall l, traced role (Some l) seen hand (k l)
  | WriteList l' k =>
      match role with
      | None =>
          exists l alarm,
            cur = Some l /\ hand = [alarm] /\ l' = insert alarm l /\
            traced role (Some l') seen [] k
      | Some AlarmThread =>
          exists a, cur = Some (a :: l') /\ hand = [] /\ traced role (Some l') seen [a] k
      | Some (IndividualAlarmThread _) => False
      end
  | ReadDone k => forall v, seen <= v -> traced role cur v hand (k v)
  | WriteDone v k => traced role cur v hand k
  | Time k => forall now, traced role cur seen hand (k now)
  | Printf r k =>
      report_ok role r /\
      match r with
      | Received _ expires msg =>
          exists alarm,
            hand = [] /\ expires = time alarm /\ msg = message alarm /\
            traced role cur seen [alarm] k
      | Retrieved _ expires msg =>
          (exists a l, cur = Some (a :: l) /\ expires = time a /\ msg = message a) /\
          traced role cur seen hand k
      | _ => traced role cur seen hand k
      end
  | Sleep _ k => traced role cur seen hand k
  | Fgets k => role = None /\ forall line, traced role cur seen hand (k line)
  | Malloc k => forall allocated, traced role cur seen hand (k allocated)
  | Free k => traced role cur seen hand k
  | PthreadCreate start k =>
      match start with
      | AlarmThread => hand = [] /\ forall status, traced role cur seen [] (k status)
      | IndividualAlarmThread a =>
          hand = [a] /\ traced role cur seen [] (k 0) /\
          forall status, status <> 0 -> traced role cur seen [a] (k status)
      end
  end.

(** The records in the hands of [main] and of the dispatcher. *)
Definition hands : Type := list alarm_t * list alarm_t.

Definition hand_at (hs : hands) (t : tid) : list alarm_t :=
  match t with
  | O => fst hs
  | S O => snd hs
  | _ => []
  end.

Definition set_hand (t : tid) (h : list alarm_t) (hs : hands) : hands :=
  match t with
  | O => (h, snd hs)
  | S O => (fst hs, h)
  | _ => hs
  end.

Definition thread_traced (c : config) (t : tid) (th : thread)
    (hand : list alarm_t) : Prop :=
  match state th with
  | Running pc =>
      exists cur seen,
        traced (started th) cur seen hand pc /\ seen <= alarm_done c /\
        forall l, cur = Some l -> alarm_list c = l /\ holds t c = true
  | Exited =>
      hand = [] /\
      match started th with
      | None => alarm_done c = 1
      | Some AlarmThread => alarm_list c = [] /\ alarm_done c = 1
      | Some (IndividualAlarmThread _) => True
      end
  end.

(** The receipts printed so far, and the records given to threads. *)
Definition received (l : list (tid * event)) : list (Z * string) :=
  omap (fun e => match e with
                 | (_, EvPrintf (Received _ expires msg)) => Some (expires, msg)
                 | _ => None
                 end) l.

Definition worker_record (r : option routine) : option alarm_t :=
  match r with
  | Some (IndividualAlarmThread a) => Some a
  | _ => None
  end.

Definition worker_records (ths : list thread) : list alarm_t :=
  omap (fun th => worker_record (started th)) ths.

Record kept (c : config) (hs : hands) : Prop := mk_kept {
  kept_threads : forall t th, threads c !! t = Some th ->
                              thread_traced c t th (hand_at hs t);
  kept_single : (length (threads c) <= 1)%nat -> snd hs = [];
  kept_records :
    Permutation (received (log c))
                (map shown (alarm_list c ++ worker_records (threads c)
                            ++ fst hs ++ snd hs));
  kept_reports : forall t r, In (t, EvPrintf r) (log c) ->
                   exists th, threads c !! t = Some th /\ report_ok (started th) r
}.

(** The lines [fgets] has returned so far, and the input they make up. *)
Definition lines_read (l : list (tid * event)) : list string :=
  omap (fun e => match e with
                 | (_, EvFgets (Some line)) => Some line
                 | _ => None
                 end) l.

Definition typed (l : list (tid * event)) : string :=
  fold_right String.append ""%string (lines_read l).

(** *** The limits of the array and of [%d] *)

(** The message that [sscanf] stores from [line], if it stores one, lies
    in [char message[64]] with its terminator. *)
Definition fits_message (line : string) : bool :=
  (String.length (scanned_message (sscanf_alarm line)) <? message_size)%nat.

(** A time that [%d] shows as it is. *)
Definition fits_int (v : Z) : bool := (- 2 ^ 31 <=? v) && (v <? 2 ^ 31).

Definition report_fits (r : report) : bool :=
  match r with
  | Prompt | BadCommand => true
  | Received now expires _ | Retrieved now expires _ | Expired now expires _ =>
      fits_int now && fits_int expires
  | Tick expires _ => fits_int expires
  end.

(** So far the program has stayed within those limits: no line read
    gives [sscanf] a message of 64 characters, whose terminator would be
    written behind the array, and every time printed fits an [int]. Up to
    such a point the records and the reports of the model are those of
    the program: what [%s] prints of a record is its [message], and what
    [%d] prints of a time is that time. *)
Definition within_limits (l : list (tid * event)) : bool :=
  forallb fits_message (lines_read l) && forallb report_fits (printed l).

(** Every retrieval reported is of a request reported as received. *)
Definition retrieved_ok (c : config) : Prop :=
  forall t now expires msg,
    In (t, EvPrintf (Retrieved now expires msg)) (log c) ->
    In (expires, msg) (received (log c)).

(** Where an [individual_alarm_thread] can stand. *)
Inductive worker_at (a : alarm_t) : prog -> Prop :=
  | w_top : worker_at a Again
  | w_tick : worker_at a (Printf (Tick (time a) (message a)) (Sleep 1 Again))
  | w_sleep : worker_at a (Sleep 1 Again)
  | w_expired now :
      worker_at a (Printf (Expired now (time a) (message a)) (Free PthreadExit))
  | w_free : worker_at a (Free PthreadExit)
  | w_exit : worker_at a PthreadExit.

(** The record of a worker that has reported its expiry. *)
Definition fired (th : thread) : option alarm_t :=
  match started th, state th with
  | Some (IndividualAlarmThread a), (Exited | Running (Free _) | Running PthreadExit) =>
      Some a
  | _, _ => None
  end.

(** The expiries reported so far. *)
Definition expired (l : list (tid * event)) : list (Z * string) :=
  omap (fun e => match e with
                 | (_, EvPrintf (Expired _ expires msg)) => Some (expires, msg)
                 | _ => None
                 end) l.

(** Every worker is at one of its places, and the expiries reported are
    those of the workers that are past their report. *)
Record firing (c : config) : Prop := mk_firing {
  firing_places : forall t a pc,
    threads c !! t = Some (mk_thread (Some (IndividualAlarmThread a)) (Running pc)) ->
    worker_at a pc;
  firing_expired : Permutation (expired (log c)) (map shown (omap fired (threads c)))
}.

(** Thread [t] is between two turns of its loop, has exited, or was never
    started. *)
Definition quiet (c : config) (t : tid) : Prop :=
  match threads c !! t with
  | Some (mk_thread _ (Running Again)) | Some (mk_thread _ Exited) | None => True
  | Some (mk_thread _ (Running _)) => False
  end.

(** [main] has read the list and is about to write it back with the first
    request in. *)
Definition writing_config : config := after two_requests (moves 0%nat (repeat 0 9)).

(** Both requests queued, the input at its end and the flag set. *)
Definition flagged_config : config :=
  after two_requests (two_queued ++ moves 0%nat (repeat 0 3)).

(** [3 second] has been served and has expired. *)
Definition expired_schedule : list move :=
  two_queued ++ moves 1%nat (repeat 0 7) ++ moves 2%nat [3; 0].
Definition expired_config : config := after two_requests expired_schedule.

(** *** The calls [main] has left *)


(** [main] has a line and wants the mutex, which the dispatcher holds. *)
Definition waiting_schedule : list move :=
  moves 0%nat [0] ++ moves 1%nat [0] ++ moves 0%nat [0; 0; 0].
Definition waiting_config : config := after two_requests waiting_schedule.

(** *** Records with one time *)

(** The records of [l] whose [time] is [T], in the order of the list. *)
Definition same_time (T : Z) (l : list alarm_t) : list alarm_t :=
  List.filter (fun x => time x =? T) l.

(** * Properties *)

(** ** The alarm list *)

Section Insertion.

Variable alarm : alarm_t.

(** Where [insert] puts the new record: after the records of the longest
    prefix with a strictly smaller [time]. *)
Lemma insert_split (l : list alarm_t) :
  exists pre post,
    l = pre ++ post /\
    insert alarm l = pre ++ alarm :: post /\
    Forall (fun x => time x < time alarm) pre /\
    match post with
    | [] => True
    | next :: _ => time next >= time alarm
    end.
Proof.
  induction l as [|next rest IH]; simpl.
  - exists [], []. repeat split; constructor.
  - destruct (Z.geb_spec (time next) (time alarm)) as [Hge|Hlt].
    + exists [], (next :: rest). repeat split; [constructor | lia].
    + destruct IH as (pre & post & Hl & Hins & Hpre & Hpost).
      exists (next :: pre), post. rewrite Hins, Hl.
      repeat split; [constructor; [lia | assumption] | assumption].
Qed.

Lemma insert_HdRel (a : alarm_t) (l : list alarm_t) :
  HdRel time_le a l -> time a <= time alarm -> HdRel time_le a (insert alarm l).
Proof.
  intros Hhd Hle. destruct l as [|next rest]; simpl.
  - constructor. exact Hle.
  - destruct (time next >=? time alarm); constructor.
    + exact Hle.
    + inversion Hhd; assumption.
Qed.

Lemma insert_sorted (l : list alarm_t) : sorted l -> sorted (insert alarm l).
Proof.
  unfold sorted. induction 1 as [|next rest Hrest IH Hhd]; simpl.
  - repeat constructor.
  - destruct (Z.geb_spec (time next) (time alarm)) as [Hge|Hlt].
    + constructor; [constructor; assumption | constructor; unfold time_le; lia].
    + constructor; [exact IH | apply insert_HdRel; [exact Hhd | lia]].
Qed.

Lemma insert_length (l : list alarm_t) :
  length (insert alarm l) = S (length l).
Proof.
  induction l as [|next rest IH]; simpl; [reflexivity|].
  destruct (time next >=? time alarm); simpl; congruence.
Qed.

End Insertion.

Lemma sorted_tail (a : alarm_t) (l : list alarm_t) : sorted (a :: l) -> sorted l.
Proof. unfold sorted. inversion 1; assumption. Qed.

(** In a sorted list no record is due before the head. *)
Lemma sorted_head_earliest (a : alarm_t) (l : list alarm_t) :
  sorted (a :: l) -> Forall (fun b => time a <= time b) l.
Proof.
  unfold sorted. intros Hs.
  apply Sorted_StronglySorted in Hs.
  - inversion Hs; assumption.
  - intros x y z. unfold time_le. lia.
Qed.

(** ** The list in memory *)

Module LinksFacts.
Import Links.

Lemma chain_frame (h h' : gmap addr node) (p : option addr) (addrs : list addr)
    (l : list alarm_t) :
  chain h p addrs l -> (forall a, a ∈ addrs -> h' !! a = h !! a) ->
  chain h' p addrs l.
Proof.
  induction 1 as [|a nxt x addrs l Ha Hc IH]; intros Hsame.
  - apply chain_nil.
  - apply (chain_cons _ a nxt).
    + rewrite Hsame by apply list_elem_of_here. exact Ha.
    + apply IH. intros b Hb. apply Hsame. apply list_elem_of_further. exact Hb.
Qed.

Lemma chain_length (h : gmap addr node) (p : option addr) (addrs : list addr)
    (l : list alarm_t) :
  chain h p addrs l -> length addrs = length l.
Proof. induction 1; simpl; congruence. Qed.

Lemma chain_allocated (h : gmap addr node) (p : option addr) (addrs : list addr)
    (l : list alarm_t) :
  chain h p addrs l -> forall a, a ∈ addrs -> is_Some (h !! a).
Proof.
  induction 1 as [|a nxt x addrs l Ha Hc IH]; intros b Hb.
  - inversion Hb.
  - apply elem_of_cons in Hb as [->|Hb]; [eauto | auto].
Qed.

Lemma walk_null (fuel : nat) (m : memory) (alarm : addr) (last : place) :
  walk fuel m alarm last None =
    (m1 ← store m last (Some alarm); store m1 (LinkOf alarm) None).
Proof. destruct fuel; reflexivity. Qed.

Section Walk.

Variables (alarm : addr) (x : alarm_t).

(** The walk from [last], which holds [next], along a chain that holds
    [l]: [last] then holds a chain for [insert x l], and nothing else of
    the memory has changed but the [link] of the structure [last] lies
    in. *)
Lemma walk_inserts (l : list alarm_t) :
  forall (addrs : list addr) (m : memory) (last : place) (next : option addr)
         (fuel : nat) (junk : option addr),
    chain (nodes m) next addrs l -> NoDup addrs -> alarm ∉ addrs ->
    nodes m !! alarm = Some (mk_node junk x) ->
    load m last = Some next ->
    (forall b, last = LinkOf b -> (b ∉ addrs) /\ b <> alarm) ->
    (length l <= fuel)%nat ->
    exists m' next' pre post,
      walk fuel m alarm last next = Some m' /\
      load m' last = Some next' /\
      addrs = pre ++ post /\
      chain (nodes m') next' (pre ++ alarm :: post) (insert x l) /\
      (last <> ListHead -> head m' = head m) /\
      (forall b, b ∉ addrs -> b <> alarm ->
         fields <$> nodes m' !! b = fields <$> nodes m !! b /\
         (last <> LinkOf b -> nodes m' !! b = nodes m !! b)).
Proof.
  induction l as [|y l IH];
    intros addrs m last next fuel junk Hchain Hnodup Hfresh Halarm Hload Hlast Hfuel.
  - (* next == NULL *)
    inversion Hchain; subst. rewrite walk_null.
    destruct last as [|b]; simpl in *.
    + rewrite Halarm. simpl.
      eexists _, (Some alarm), [], []. split; [reflexivity|]. simpl.
      split; [reflexivity|]. split; [reflexivity|].
      split; [|split; [congruence|]].
      * eapply chain_cons; [apply lookup_insert_eq | apply chain_nil].
      * intros b _ Hb. rewrite lookup_insert_ne by congruence. auto.
    + destruct (Hlast b eq_refl) as [_ Hb].
      destruct (nodes m !! b) as [nb|] eqn:Hnb; [|discriminate]. simpl.
      rewrite lookup_insert_ne by congruence. rewrite Halarm. simpl.
      eexists _, (Some alarm), [], []. split; [reflexivity|]. simpl.
      rewrite lookup_insert_ne by congruence. rewrite lookup_insert_eq. simpl.
      split; [reflexivity|]. split; [reflexivity|].
      split; [|split; [reflexivity|]].
      * eapply chain_cons; [apply lookup_insert_eq | apply chain_nil].
      * intros b' _ Hb'. rewrite lookup_insert_ne by congruence.
        destruct (decide (b = b')) as [<-|Hne].
        -- rewrite lookup_insert_eq, Hnb. simpl. split; [reflexivity | congruence].
        -- rewrite lookup_insert_ne by congruence. auto.
  - inversion Hchain as [|n nxt y' addrs' l' Hn Hrest]; subst.
    apply NoDup_cons in Hnodup as [Hn_fresh Hnodup'].
    apply not_elem_of_cons in Hfresh as [Han Hfresh'].
    assert (Hna : n <> alarm) by congruence.
    destruct fuel as [|fuel]; [simpl in Hfuel; lia|].
    simpl. rewrite Hn, Halarm. simpl.
    destruct (Z.geb_spec (time y) (time x)) as [Hge|Hlt].
    + (* the new structure goes before [next] *)
      assert (Hkeep : chain (<[alarm := mk_node (Some n) x]> (nodes m)) (Some n)
                        (n :: addrs') (y :: l)).
      { apply (chain_frame (nodes m)); [exact Hchain|].
        intros a Ha. apply lookup_insert_ne. intros <-.
        apply elem_of_cons in Ha as [Ha|Ha]; [congruence | contradiction]. }
      destruct last as [|b]; simpl in *.
      * eexists _, (Some alarm), [], (n :: addrs'). split; [reflexivity|]. simpl.
        split; [reflexivity|]. split; [reflexivity|].
        split; [|split; [congruence|]].
        -- eapply chain_cons; [apply lookup_insert_eq | exact Hkeep].
        -- intros b _ Hb. rewrite lookup_insert_ne by congruence. auto.
      * destruct (Hlast b eq_refl) as [Hb_fresh Hb].
        rewrite lookup_insert_ne by congruence.
        destruct (nodes m !! b) as [nb|] eqn:Hnb; [|discriminate]. simpl.
        eexists _, (Some alarm), [], (n :: addrs'). split; [reflexivity|]. simpl.
        rewrite lookup_insert_eq. simpl.
        split; [reflexivity|]. split; [reflexivity|].
        split; [|split; [reflexivity|]].
        -- eapply chain_cons.
           ++ rewrite lookup_insert_ne by congruence. apply lookup_insert_eq.
           ++ apply (chain_frame (<[alarm := mk_node (Some n) x]> (nodes m)));
                [exact Hkeep|].
              intros a Ha. apply lookup_insert_ne. intros <-. contradiction.
        -- intros b' _ Hb'.
           destruct (decide (b = b')) as [<-|Hne].
           ++ rewrite lookup_insert_eq, Hnb. simpl. split; [reflexivity | congruence].
           ++ rewrite !lookup_insert_ne by congruence. auto.
    + (* on to the next structure *)
      destruct (IH addrs' m (LinkOf n) nxt fuel junk) as
        (m' & next' & pre & post & Hwalk & Hload' & Hsplit & Hchain' & Hhead & Hframe);
        try assumption.
      * simpl. rewrite Hn. reflexivity.
      * intros b [= <-]. split; [exact Hn_fresh | exact Hna].
      * simpl in Hfuel. lia.
      * simpl in Hload'.
        destruct (nodes m' !! n) as [nd'|] eqn:Hn'; [|discriminate].
        simpl in Hload'. injection Hload' as Hlink'.
        assert (Hfields : fields nd' = y).
        { destruct (Hframe n Hn_fresh Hna) as [Hf _].
          rewrite Hn', Hn in Hf. simpl in Hf. congruence. }
        exists m', (Some n), (n :: pre), post. split; [exact Hwalk|].
        assert (Hnew : chain (nodes m') (Some n) ((n :: pre) ++ alarm :: post)
                         (y :: insert x l)).
        { simpl. eapply chain_cons; [|exact Hchain'].
          rewrite Hn'. destruct nd' as [lk fl]. simpl in *. congruence. }
        split; [|split; [simpl; congruence|split; [exact Hnew|split]]].
        -- destruct last as [|b]; simpl in *.
           ++ rewrite (Hhead ltac:(discriminate)). exact Hload.
           ++ destruct (Hlast b eq_refl) as [Hb_fresh Hb].
              apply not_elem_of_cons in Hb_fresh as [Hbn Hb_fresh].
              destruct (Hframe b Hb_fresh Hb) as [_ Hsame].
              rewrite Hsame by congruence. exact Hload.
        -- intros _. apply Hhead. discriminate.
        -- intros b Hb_fresh Hb.
           apply not_elem_of_cons in Hb_fresh as [Hbn Hb_fresh].
           destruct (Hframe b Hb_fresh Hb) as [_ Hsame].
           rewrite Hsame by congruence. auto.
Qed.

End Walk.

Lemma chain_fits (h : gmap addr node) (p : option addr) (addrs : list addr)
    (l : list alarm_t) :
  chain h p addrs l -> NoDup addrs -> (length l <= size h)%nat.
Proof.
  intros Hchain Hnodup. rewrite <- (chain_length _ _ _ _ Hchain).
  assert (Hsub : addrs ⊆+ (map_to_list h).*1).
  { apply NoDup_submseteq; [exact Hnodup|]. intros a Ha.
    destruct (chain_allocated _ _ _ _ Hchain a Ha) as [nd Hnd].
    apply list_elem_of_fmap. exists (a, nd). split; [reflexivity|].
    apply elem_of_map_to_list. exact Hnd. }
  apply submseteq_length in Hsub.
  rewrite length_fmap, length_map_to_list in Hsub. exact Hsub.
Qed.

(** X2. Lines 186-206 on a list in memory, with the new structure allocated
    and its fields filled in: the memory then holds the list with the
    record inserted, the new structure linked between two parts of the
    old chain; every other structure keeps its fields, and what is not on
    the list is untouched. *)
Theorem insert_links_refines (m : memory) (addrs : list addr) (l : list alarm_t)
    (alarm : addr) (junk : option addr) (x : alarm_t) :
  represents m addrs l ->
  alarm ∉ addrs ->
  nodes m !! alarm = Some (mk_node junk x) ->
  exists m' pre post,
    insert_links m alarm = Some m' /\
    addrs = pre ++ post /\
    represents m' (pre ++ alarm :: post) (insert x l) /\
    forall b, b ∉ addrs -> b <> alarm -> nodes m' !! b = nodes m !! b.
Proof.
  intros [Hchain Hnodup] Hfresh Halarm.
  destruct (walk_inserts alarm x l addrs m ListHead (head m) (size (nodes m)) junk)
    as (m' & next' & pre & post & Hwalk & Hload & Hsplit & Hchain' & _ & Hframe);
    try assumption; try reflexivity.
  - intros b Hb. discriminate.
  - eapply chain_fits; eassumption.
  - simpl in Hload. injection Hload as <-.
    exists m', pre, post. split; [exact Hwalk|]. split; [exact Hsplit|].
    split; [split; [exact Hchain'|]|].
    + subst addrs. apply NoDup_app in Hnodup as (Hpre & Hdisj & Hpost).
      apply NoDup_app. split; [exact Hpre|]. split.
      * intros a Ha. rewrite elem_of_cons. intros [->|Hin].
        -- apply Hfresh, elem_of_app. left. exact Ha.
        -- exact (Hdisj a Ha Hin).
      * apply NoDup_cons. split; [|exact Hpost].
        intros Hin. apply Hfresh, elem_of_app. right. exact Hin.
    + intros b Hb Hne. apply (Hframe b Hb Hne). discriminate.
Qed.

(** X3. Lines 91 and 112 on a list in memory: the first structure leaves the
    chain, the others stay as they are. *)
Theorem unlink_head_refines (m : memory) (addrs : list addr) (x : alarm_t)
    (l : list alarm_t) :
  represents m addrs (x :: l) ->
  exists a addrs' m',
    addrs = a :: addrs' /\
    unlink_head m = Some (a, m') /\
    (fields <$> nodes m !! a) = Some x /\
    nodes m' = nodes m /\
    represents m' addrs' l.
Proof.
  intros [Hchain Hnodup].
  inversion Hchain as [|a nxt x' addrs' l' Ha Hrest Hhead Haddrs Hl]; subst.
  exists a, addrs', (mk_memory nxt (nodes m)).
  split; [reflexivity|]. split.
  - unfold unlink_head. rewrite <- Hhead. simpl. rewrite Ha. reflexivity.
  - split; [rewrite Ha; reflexivity|]. split; [reflexivity|].
    split; [exact Hrest|]. apply NoDup_cons in Hnodup as [_ Hnodup]. exact Hnodup.
Qed.

(** An empty list in memory is a NULL [alarm_list]. *)
Lemma represents_nil (m : memory) (addrs : list addr) :
  represents m addrs [] -> head m = None /\ addrs = [].
Proof.
  intros [Hchain _]. inversion Hchain. split; reflexivity.
Qed.

End LinksFacts.

(** ** Lock discipline of the three routines *)

Lemma unlock_and_repeat_disciplined (role : option routine) (seen : Z) :
  is_worker role = false -> disciplined role seen true unlock_and_repeat.
Proof. simpl. auto. Qed.

Lemma individual_alarm_thread_disciplined (alarm : alarm_t) :
  disciplined (Some (IndividualAlarmThread alarm)) 0 false
    (individual_alarm_thread alarm).
Proof.
  unfold individual_alarm_thread. simpl. intros now.
  destruct (time alarm <=? now); simpl; reflexivity.
Qed.

Lemma alarm_thread_disciplined : disciplined (Some AlarmThread) 0 false alarm_thread.
Proof.
  unfold alarm_thread. simpl. split; [reflexivity|]. split; [reflexivity|].
  split; [reflexivity|].
  intros [|a link] Hsorted; simpl.
  - split; [reflexivity|]. intros v Hv _.
    destruct (Z.eqb_spec v 0) as [->|Hv0].
    + apply unlock_and_repeat_disciplined. reflexivity.
    + simpl. split; [reflexivity|]. intros v' Hv' Hle.
      assert (v' = 1) as -> by lia. simpl. reflexivity.
  - intros now. split; [reflexivity|]. split; [eapply sorted_tail; eassumption|].
    split; [reflexivity|]. split; [reflexivity|].
    intros status. destruct (status =? 0); simpl; auto.
Qed.

Lemma queue_alarm_disciplined (r : scanned) :
  disciplined None 0 false (queue_alarm r).
Proof.
  unfold queue_alarm. simpl. split; [reflexivity|]. split; [reflexivity|].
  intros t now. split; [reflexivity|]. intros l Hsorted.
  split; [reflexivity|]. split; [apply insert_sorted; exact Hsorted|].
  auto.
Qed.

Lemma main_loop_disciplined : disciplined None 0 false main_loop.
Proof.
  unfold main_loop. simpl. intros [line|]; [|simpl; auto].
  destruct (strlen line <=? 1)%nat; [reflexivity|].
  simpl. intros [|]; simpl; [|reflexivity].
  destruct (sscanf_count (sscanf_alarm line) <? 2); simpl; [reflexivity|].
  apply queue_alarm_disciplined.
Qed.

Lemma loop_body_disciplined (r : option routine) :
  disciplined r 0 false (loop_body r).
Proof.
  destruct r as [[|alarm]|]; simpl.
  - apply alarm_thread_disciplined.
  - apply individual_alarm_thread_disciplined.
  - apply main_loop_disciplined.
Qed.

(** ** The invariant of the whole program *)

Lemma role_at_main (t : tid) : role_at t None -> t = 0%nat.
Proof. destruct t as [|[|t]]; simpl; [reflexivity | discriminate | discriminate]. Qed.

Lemma role_at_dispatcher (t : tid) : role_at t (Some AlarmThread) -> t = 1%nat.
Proof. destruct t as [|[|t]]; simpl; [discriminate | reflexivity | discriminate]. Qed.

Lemma thread_ok_frame (c c' : config) (t : tid) (th : thread) :
  holds t c' = holds t c ->
  alarm_done c <= alarm_done c' ->
  (started th = None -> alarm_done c' = alarm_done c) ->
  (length (threads c) = 1%nat -> length (threads c') = 1%nat) ->
  thread_ok c t th -> thread_ok c' t th.
Proof.
  unfold thread_ok, running_ok. intros Hh Hd Hmain Hlen (Hrole & Hworker & Hst).
  rewrite Hh. split; [exact Hrole|]. split; [exact Hworker|].
  destruct (state th) as [pc|]; [|exact Hst].
  destruct Hst as [(Hpc & Hr & Hone & Hzero & Hfree)|[(seen & Hle & Hp) Hexit]].
  - left. rewrite (Hmain Hr). auto.
  - right. split.
    + exists seen. split; [lia | exact Hp].
    + intros Hr. rewrite (Hmain Hr). auto.
Qed.

(** Thread [t] moves to [st] on top of a change [c0] of the shared state
    that keeps the other threads in order. *)
Lemma moved_inv (t : tid) (r : option routine) (st : tstate) (e : event)
    (c0 : config) :
  sorted (alarm_list c0) ->
  (alarm_done c0 = 0 \/ alarm_done c0 = 1) ->
  (forall o, alarm_mutex c0 = Some o -> (o < length (threads c0))%nat) ->
  process c0 <> Undefined ->
  (forall t' th, t' <> t -> threads c0 !! t' = Some th -> thread_ok c0 t' th) ->
  thread_ok c0 t (mk_thread r st) ->
  inv (moved t r st e c0).
Proof.
  intros Hs Hd Ho Hp Hothers Hme. constructor; simpl; try assumption.
  - intros o Hm. rewrite length_insert. auto.
  - intros t' th Hlook.
    apply list_lookup_insert_Some in Hlook as [(<- & <- & _)|(Hne & Hlook)];
      (eapply (thread_ok_frame c0);
       [reflexivity | simpl; lia | reflexivity
       | simpl; rewrite length_insert; auto | auto]).
Qed.

Lemma holds_set_mutex_other (t t' : tid) (c : config) :
  t' <> t -> holds t c = true \/ alarm_mutex c = None ->
  forall m, m = Some t \/ m = None -> holds t' (set_mutex m c) = holds t' c.
Proof.
  unfold holds. intros Hne Hc m [->| ->]; simpl.
  - destruct Hc as [Hc| ->].
    + destruct (alarm_mutex c) as [o|]; [|discriminate].
      apply Nat.eqb_eq in Hc. subst o. reflexivity.
    + apply Nat.eqb_neq. congruence.
  - destruct Hc as [Hc| ->]; [|reflexivity].
    destruct (alarm_mutex c) as [o|]; [|reflexivity].
    apply Nat.eqb_eq in Hc. subst o. symmetry. apply Nat.eqb_neq. congruence.
Qed.

Lemma holds_lt (t : tid) (c : config) :
  inv c -> holds t c = true -> (t < length (threads c))%nat.
Proof.
  unfold holds. intros Hinv Hh. destruct (alarm_mutex c) as [o|] eqn:Hm; [|discriminate].
  apply Nat.eqb_eq in Hh. subst o. eapply inv_owner; eassumption.
Qed.

Lemma holds_fresh (c : config) :
  inv c -> holds (length (threads c)) c = false.
Proof.
  intros Hinv. destruct (holds (length (threads c)) c) eqn:Hh; [|reflexivity].
  apply holds_lt in Hh; [lia | exact Hinv].
Qed.

Section Preservation.

Variables (t : tid) (r : option routine) (st0 : tstate) (c : config).
Hypothesis Hinv : inv c.
Hypothesis Hlook : threads c !! t = Some (mk_thread r st0).

Lemma stepping_role : role_at t r.
Proof. exact (proj1 (inv_threads c Hinv t _ Hlook)). Qed.

Lemma stepping_worker : is_worker r = true -> holds t c = false.
Proof. exact (proj1 (proj2 (inv_threads c Hinv t _ Hlook))). Qed.

Lemma stepping_bound : (t < length (threads c))%nat.
Proof. eapply lookup_lt_Some; exact Hlook. Qed.

(** The threads that do not move, when no thread is started and the flag
    is not written. *)
Lemma others_ok (c0 : config) :
  (forall t', t' <> t -> holds t' c0 = holds t' c) ->
  alarm_done c0 = alarm_done c ->
  threads c0 = threads c ->
  forall t' th, t' <> t -> threads c0 !! t' = Some th -> thread_ok c0 t' th.
Proof.
  intros Hh Hd Hth t' th Hne Hl. rewrite Hth in Hl.
  apply (thread_ok_frame c); [auto | lia | auto | rewrite Hth; auto |].
  apply (inv_threads c Hinv). exact Hl.
Qed.

(** The thread that moves, at its new place. *)
Lemma me_ok (c0 : config) (seen : Z) (pc : prog) :
  (is_worker r = true -> holds t c0 = false) ->
  seen <= alarm_done c0 ->
  disciplined r seen (holds t c0) pc ->
  (r = None -> alarm_done c0 = 1 -> pc = PthreadExit) ->
  thread_ok c0 t (mk_thread r (Running pc)).
Proof.
  intros Hw Hle Hp Hexit. split; [exact stepping_role|]. split; [exact Hw|].
  right. split; [exists seen; auto | exact Hexit].
Qed.

Lemma exec_inv (p : prog) (answer : Z) (c' : config) (seen : Z) :
  seen <= alarm_done c ->
  disciplined r seen (holds t c) p ->
  (r = None -> alarm_done c = 1 -> p = PthreadExit) ->
  exec t r p answer c = Some c' ->
  inv c'.
Proof.
  intros Hseen Hp Hexit Hexec.
  pose proof Hinv as [Is Id Io It Ip].
  pose proof stepping_bound as Ht.
  pose proof stepping_worker as Hw.
  assert (Hstay : forall pc : prog, pc <> PthreadExit ->
            r = None -> alarm_done c = 1 -> p = pc -> False)
    by (intros pc Hpc Hr Hd Heq; apply Hpc; rewrite <- Heq; auto).
  destruct p; simpl in Hp, Hexec.
  - (* Again *) congruence.
  - (* PthreadExit *)
    injection Hexec as <-. apply moved_inv; try assumption.
    + apply others_ok; reflexivity.
    + split; [exact stepping_role|]. split; [exact Hw | exact Hp].
  - (* ErrAbort *)
    injection Hexec as <-. constructor; simpl; try assumption. discriminate.
  - (* NullDeref *) contradiction.
  - (* MutexLock *)
    destruct Hp as (Hheld & Hnw & Hp).
    destruct (alarm_mutex c) as [o|] eqn:Hm; [discriminate|].
    injection Hexec as <-. apply moved_inv; simpl; try assumption.
    + intros o [= <-]. exact Ht.
    + apply (others_ok (set_mutex (Some t) c)); try reflexivity.
      intros t' Hne. apply (holds_set_mutex_other t); auto.
    + assert (Hnow : holds t (set_mutex (Some t) c) = true)
        by (unfold holds; simpl; apply Nat.eqb_refl).
      apply (me_ok _ seen); rewrite ?Hnow; simpl; auto.
      * congruence.
      * intros Hr Hd. exfalso. eapply Hstay; eauto. discriminate.
  - (* MutexUnlock *)
    destruct Hp as [Hheld Hp]. rewrite Hheld in Hexec.
    injection Hexec as <-. apply moved_inv; simpl; try assumption.
    + discriminate.
    + apply (others_ok (set_mutex None c)); try reflexivity.
      intros t' Hne. apply (holds_set_mutex_other t); auto.
    + apply (me_ok _ seen); simpl; auto.
      intros Hr Hd. exfalso. eapply Hstay; eauto. discriminate.
  - (* ReadList *)
    destruct Hp as [Hheld Hp]. injection Hexec as <-.
    apply moved_inv; try assumption.
    + apply others_ok; reflexivity.
    + apply (me_ok _ seen); auto.
      intros Hr Hd. exfalso. eapply Hstay; eauto. discriminate.
  - (* WriteList *)
    destruct Hp as (Hheld & Hsorted & Hp). injection Hexec as <-.
    apply moved_inv; simpl; try assumption.
    + apply (others_ok (set_list l c)); reflexivity.
    + apply (me_ok _ seen); auto.
      intros Hr Hd. exfalso. eapply Hstay; eauto. discriminate.
  - (* ReadDone *)
    destruct Hp as [Hheld Hp]. injection Hexec as <-.
    apply moved_inv; try assumption.
    + apply others_ok; reflexivity.
    + apply (me_ok _ (alarm_done c)); auto; [lia|].
      intros Hr Hd. exfalso. eapply Hstay; eauto. discriminate.
  - (* WriteDone *)
    destruct Hp as (Hheld & -> & Hmain & ->). injection Hexec as <-.
    apply moved_inv; simpl; try assumption.
    + auto.
    + intros t' th Hne Hth.
      pose proof (It t' th Hth) as Hok.
      apply (thread_ok_frame c); [reflexivity | simpl; lia | | auto | exact Hok].
      intros Hr. exfalso. apply Hne.
      destruct Hok as (Hrole & _). rewrite Hr in Hrole.
      pose proof stepping_role as Hmine. rewrite Hmain in Hmine.
      rewrite (role_at_main _ Hrole), (role_at_main _ Hmine). reflexivity.
    + apply (me_ok _ 1); simpl; auto; [lia|].
      change (holds t c = is_dispatcher r). rewrite Hheld, Hmain. reflexivity.
  - (* Time *)
    injection Hexec as <-. apply moved_inv; try assumption.
    + apply others_ok; reflexivity.
    + apply (me_ok _ seen); auto.
      intros Hr Hd. exfalso. eapply Hstay; eauto. discriminate.
  - (* Printf *)
    injection Hexec as <-. apply moved_inv; try assumption.
    + apply others_ok; reflexivity.
    + apply (me_ok _ seen); auto.
      intros Hr Hd. exfalso. eapply Hstay; eauto. discriminate.
  - (* Sleep *)
    injection Hexec as <-. apply moved_inv; try assumption.
    + apply others_ok; reflexivity.
    + apply (me_ok _ seen); auto.
      intros Hr Hd. exfalso. eapply Hstay; eauto. discriminate.
  - (* Fgets *)
    destruct (fgets line_size (stdin c)) as [[line rest]|];
      injection Hexec as <-; (apply moved_inv; try assumption);
      [ apply others_ok; reflexivity | | apply others_ok; reflexivity | ];
      (apply (me_ok _ seen); auto;
       intros Hr Hd; exfalso; eapply Hstay; eauto; discriminate).
  - (* Malloc *)
    injection Hexec as <-. apply moved_inv; try assumption.
    + apply others_ok; reflexivity.
    + apply (me_ok _ seen); auto.
      intros Hr Hd. exfalso. eapply Hstay; eauto. discriminate.
  - (* Free *)
    injection Hexec as <-. apply moved_inv; try assumption.
    + apply others_ok; reflexivity.
    + apply (me_ok _ seen); auto.
      intros Hr Hd. exfalso. eapply Hstay; eauto. discriminate.
  - (* PthreadCreate *)
    destruct Hp as (Hrole & Hstart & Hp).
    assert (Htid : t = 1%nat)
      by (apply role_at_dispatcher; rewrite <- Hrole; exact stepping_role).
    destruct (answer =? 0).
    + injection Hexec as <-. apply moved_inv; simpl; try assumption.
      * intros o Hm. rewrite length_app. simpl. apply Io in Hm. lia.
      * intros t' th Hne Hth. apply lookup_snoc_Some in Hth as [[_ Hth]|[-> <-]].
        -- apply (thread_ok_frame c);
             [reflexivity | simpl; lia | reflexivity | simpl; lia | auto].
        -- split; [|split].
           ++ simpl. destruct (length (threads c)) as [|[|n]]; simpl; [lia | lia | exact Hstart].
           ++ intros _. apply (holds_fresh c Hinv).
           ++ simpl. right. split; [|discriminate].
              exists 0. split; [simpl; lia|]. simpl.
              apply (holds_fresh c Hinv).
      * apply (me_ok _ seen); simpl; auto.
        intros Hr. congruence.
    + injection Hexec as <-. apply moved_inv; try assumption.
      * apply others_ok; reflexivity.
      * apply (me_ok _ seen); auto.
        intros Hr. congruence.
Qed.

End Preservation.

(** The first call of [main]. *)
Lemma entry_inv (t : tid) (st0 : tstate) (c : config) (answer : Z) (c' : config) :
  inv c -> threads c !! t = Some (mk_thread None st0) ->
  length (threads c) = 1%nat -> alarm_done c = 0 ->
  holds t c = false ->
  exec t None main answer c = Some c' ->
  inv c'.
Proof.
  intros Hinv Hlook Hone Hzero Hfree Hexec.
  pose proof Hinv as [Is Id Io It Ip].
  assert (Ht : (t < length (threads c))%nat) by (eapply lookup_lt_Some; eassumption).
  assert (Htid : t = 0%nat) by lia. subst t.
  assert (Halone : forall t' th, t' <> 0%nat -> threads c !! t' = Some th -> False).
  { intros t' th Hne Hth. apply lookup_lt_Some in Hth. lia. }
  unfold main in Hexec. simpl in Hexec.
  destruct (answer =? 0) eqn:Hanswer.
  - injection Hexec as <-. apply moved_inv; simpl; try assumption.
    + intros o Hm. rewrite length_app. simpl. apply Io in Hm. lia.
    + intros t' th Hne Hth. apply lookup_snoc_Some in Hth as [[_ Hth]|[-> <-]].
      * exfalso. eauto.
      * rewrite Hone. split; [reflexivity|]. split; [discriminate|].
        simpl. right. split; [|discriminate].
        exists 0. split; [simpl; lia|]. simpl.
        rewrite <- Hone. apply (holds_fresh c Hinv).
    + split; [reflexivity|]. split; [discriminate|].
      simpl. right. split.
      * exists 0. split; [simpl; lia|]. simpl. exact Hfree.
      * simpl. intros _ Hd. lia.
  - injection Hexec as <-. apply moved_inv; try assumption.
    + intros t' th Hne Hth. exfalso. eauto.
    + split; [reflexivity|]. split; [discriminate|].
      simpl. right. split.
      * exists 0. split; [lia|]. simpl. reflexivity.
      * intros _ Hd. lia.
Qed.

Lemma step_inv (t : tid) (answer : Z) (c c' : config) :
  inv c -> step t answer c = Some c' -> inv c'.
Proof.
  unfold step. intros Hinv Hstep.
  destruct (process c); try discriminate.
  destruct (threads c !! t) as [[r [pc|]]|] eqn:Hlook; try discriminate.
  pose proof (inv_threads c Hinv t _ Hlook) as (Hrole & Hworker & Hrun).
  simpl in Hrole, Hworker, Hrun.
  destruct Hrun as [(-> & Hr & Hone & Hzero & Hfree)|[(seen & Hseen & Hp) Hexit]].
  - subst r. exact (entry_inv t _ c answer c' Hinv Hlook Hone Hzero Hfree Hstep).
  - destruct pc;
      try (exact (exec_inv t r _ c Hinv Hlook _ answer c' seen Hseen Hp Hexit Hstep)).
    (* at Again the body of the loop starts over *)
    simpl in Hp, Hstep.
    apply (exec_inv t r (Running Again) c Hinv Hlook (loop_body r) answer c' 0).
    + destruct (inv_done c Hinv) as [Hd|Hd]; rewrite Hd; lia.
    + rewrite Hp. apply loop_body_disciplined.
    + intros Hr Hd. specialize (Hexit Hr Hd). discriminate.
    + exact Hstep.
Qed.

Lemma run_inv (ms : list move) (c c' : config) :
  inv c -> run ms c = Some c' -> inv c'.
Proof.
  revert c. induction ms as [|m ms IH]; simpl; intros c Hinv Hrun.
  - congruence.
  - destruct (step (who m) (answer m) c) as [c1|] eqn:Hstep; [|discriminate].
    eapply IH; [eapply step_inv; eassumption | exact Hrun].
Qed.

Lemma initial_inv (input : string) : inv (initial input).
Proof.
  constructor; simpl.
  - constructor.
  - auto.
  - discriminate.
  - intros [|t] th; simpl; [|discriminate].
    intros [= <-]. split; [reflexivity|]. split; [discriminate|].
    left. repeat split.
  - discriminate.
Qed.

Lemma reachable_inv (input : string) (c : config) : reachable input c -> inv c.
Proof. intros [ms Hrun]. eapply run_inv; [apply initial_inv | exact Hrun]. Qed.

(** ** One thread at a time *)

Lemma run_thread_cons (t : tid) (r : option routine) (pc : prog) (a : Z)
    (answers : list Z) (c c1 : config) :
  process c = Alive ->
  threads c !! t = Some (mk_thread r (Running pc)) ->
  exec t r (fetch r pc) a c = Some c1 ->
  run_thread t (a :: answers) c = run_thread t answers c1.
Proof.
  intros Hp Hl He. unfold run_thread. simpl. unfold step.
  rewrite Hp, Hl, He. reflexivity.
Qed.

Lemma run_thread_eta (t : tid) (answers : list Z) (c : config) :
  run_thread t answers c =
  run_thread t answers
    (mk_config (alarm_list c) (alarm_done c) (alarm_mutex c) (threads c)
               (stdin c) (log c) (process c)).
Proof. destruct c; reflexivity. Qed.

Ltac thread_bound :=
  repeat (rewrite length_insert || rewrite length_app);
  simpl; first [ assumption | lia ].

(** Unfold the step and the routines, nothing of the list or the parser. *)
Ltac norm :=
  cbn [exec fetch loop_body started state new_thread
       alarm_thread individual_alarm_thread main_loop main unlock_and_repeat
       queue_alarm negb Z.eqb Pos.eqb];
  cbv [moved add_log set_threads set_mutex set_list set_done set_stdin
       set_process holds];
  cbn [alarm_list alarm_done alarm_mutex threads stdin log process].

(** One call of the thread under study: [rw] rewrites with what is known
    of the configuration. *)
Ltac call rw :=
  erewrite run_thread_cons;
  [ | cbn [process]; first [ assumption | reflexivity ]
    | cbn [threads];
      first [ eassumption | apply list_lookup_insert_eq; thread_bound ]
    | norm; rw; norm; rewrite ?list_insert_insert_eq; reflexivity ].

Ltac same_config :=
  unfold run_thread; cbn [map run]; f_equal; f_equal;
  rewrite ?list_insert_insert_eq, <- ?app_assoc;
  try reflexivity; try assumption.

Lemma at_top_bound (c : config) (t : tid) (r : option routine) :
  at_top c t r -> (t < length (threads c))%nat.
Proof. intros [_ Hl]. eapply lookup_lt_Some; eassumption. Qed.

Ltac start_thread H :=
  let Halive := fresh "Halive" in
  let Hlook := fresh "Hlook" in
  let Ht := fresh "Ht" in
  pose proof (at_top_bound _ _ _ H) as Ht; destruct H as [Halive Hlook];
  rewrite run_thread_eta.

Ltac holding := rewrite ?Nat.eqb_refl.

Section Dispatcher.

Variables (c : config) (t : tid).
Hypothesis Htop : at_top c t (Some AlarmThread).
Hypothesis Hfree : alarm_mutex c = None.

(** Nothing queued, input still open: lock, look, unlock, and straight
    back to the top of the loop. *)
Lemma alarm_thread_idle :
  alarm_list c = [] -> alarm_done c = 0 ->
  run_thread t [0; 0; 0; 0] c =
    Some (mk_config [] 0 None (threads c) (stdin c)
            (log c ++ by_thread t [EvLock; EvReadList []; EvReadDone 0; EvUnlock])
            Alive).
Proof.
  intros Hl Hd. start_thread Htop.
  call ltac:(rewrite ?Hfree). call ltac:(rewrite ?Hl).
  call ltac:(rewrite ?Hd). call holding.
  same_config.
  apply list_insert_id. exact Hlook.
Qed.

(** Nothing queued, input over: the thread exits, the mutex still locked. *)
Lemma alarm_thread_exit :
  alarm_list c = [] -> alarm_done c = 1 ->
  run_thread t [0; 0; 0; 0; 0] c =
    Some (mk_config [] 1 (Some t)
            (<[t := mk_thread (Some AlarmThread) Exited]> (threads c)) (stdin c)
            (log c ++ by_thread t [EvLock; EvReadList []; EvReadDone 1;
                                   EvReadDone 1; EvExit])
            Alive).
Proof.
  intros Hl Hd. start_thread Htop.
  call ltac:(rewrite ?Hfree). call ltac:(rewrite ?Hl).
  call ltac:(rewrite ?Hd). call ltac:(rewrite ?Hd). call idtac.
  same_config.
Qed.

(** A record is queued: it is unlinked and given to a new thread,
    whatever the time is. *)
Lemma alarm_thread_pop (a : alarm_t) (l : list alarm_t) (now : Z) :
  alarm_list c = a :: l ->
  run_thread t [0; 0; now; 0; 0; 0; 0] c =
    Some (mk_config l (alarm_done c) None
            (threads c ++ [new_thread (IndividualAlarmThread a)]) (stdin c)
            (log c ++ by_thread t
               [EvLock; EvReadList (a :: l); EvTime now;
                EvPrintf (Retrieved now (time a) (message a)); EvWriteList l;
                EvCreate (IndividualAlarmThread a) 0; EvUnlock])
            Alive).
Proof.
  intros Hl. start_thread Htop.
  call ltac:(rewrite ?Hfree). call ltac:(rewrite ?Hl).
  call idtac. call idtac. call idtac. call idtac. call holding.
  same_config.
  rewrite insert_app_l by (rewrite length_insert; exact Ht).
  rewrite list_insert_insert_eq.
  f_equal. apply list_insert_id. exact Hlook.
Qed.

(** [pthread_create] fails: the record is already unlinked, the process
    aborts with the mutex locked. *)
Lemma alarm_thread_create_fails (a : alarm_t) (l : list alarm_t) (now status : Z) :
  alarm_list c = a :: l -> status <> 0 ->
  exists c', run_thread t [0; 0; now; 0; 0; status; 0] c = Some c' /\
    process c' = Aborted "create individual alarm thread" /\
    alarm_list c' = l /\ length (threads c') = length (threads c).
Proof.
  intros Hl Hstatus. start_thread Htop.
  apply Z.eqb_neq in Hstatus.
  call ltac:(rewrite ?Hfree). call ltac:(rewrite ?Hl).
  call idtac. call idtac. call idtac. call ltac:(rewrite ?Hstatus).
  call ltac:(rewrite ?Hstatus).
  unfold run_thread. simpl. eexists. split; [reflexivity|]. simpl.
  rewrite !length_insert. auto.
Qed.

End Dispatcher.

Section Worker.

Variables (c : config) (t : tid) (alarm : alarm_t) (now : Z).
Hypothesis Htop : at_top c t (Some (IndividualAlarmThread alarm)).

(** The alarm is due: one report, the record is freed, the thread ends. *)
Lemma individual_alarm_thread_expired :
  time alarm <= now ->
  run_thread t [now; 0; 0; 0] c =
    Some (mk_config (alarm_list c) (alarm_done c) (alarm_mutex c)
            (<[t := mk_thread (Some (IndividualAlarmThread alarm)) Exited]> (threads c))
            (stdin c)
            (log c ++ by_thread t
               [EvTime now; EvPrintf (Expired now (time alarm) (message alarm));
                EvFree; EvExit])
            Alive).
Proof.
  intros Hdue. start_thread Htop. apply Z.leb_le in Hdue.
  call idtac. call ltac:(rewrite ?Hdue). call ltac:(rewrite ?Hdue). call idtac.
  same_config.
Qed.

(** The alarm is not due: one report, one second of sleep, and again. *)
Lemma individual_alarm_thread_tick :
  now < time alarm ->
  run_thread t [now; 0; 0] c =
    Some (mk_config (alarm_list c) (alarm_done c) (alarm_mutex c) (threads c)
            (stdin c)
            (log c ++ by_thread t
               [EvTime now; EvPrintf (Tick (time alarm) (message alarm)); EvSleep 1])
            Alive).
Proof.
  intros Hearly. start_thread Htop. apply Z.leb_gt in Hearly.
  call idtac. call ltac:(rewrite ?Hearly). call ltac:(rewrite ?Hearly).
  same_config.
  apply list_insert_id. exact Hlook.
Qed.

End Worker.

Section Main.

Variables (c : config) (t : tid).
Hypothesis Htop : at_top c t None.

(** End of input: the flag is set and the thread ends, without a look at
    the mutex. *)
Lemma main_end_of_input :
  fgets line_size (stdin c) = None ->
  run_thread t [0; 0; 0; 0] c =
    Some (mk_config (alarm_list c) 1 (alarm_mutex c)
            (<[t := mk_thread None Exited]> (threads c)) (stdin c)
            (log c ++ by_thread t
               [EvPrintf Prompt; EvFgets None; EvWriteDone 1; EvExit])
            Alive).
Proof.
  intros Heof. start_thread Htop.
  call idtac. call ltac:(rewrite ?Heof). call idtac. call idtac.
  same_config.
Qed.

Variables (line rest : string).
Hypothesis Hline : fgets line_size (stdin c) = Some (line, rest).

(** A line of at most one character is dropped without a word. *)
Lemma main_short_line :
  (strlen line <= 1)%nat ->
  run_thread t [0; 0] c =
    Some (mk_config (alarm_list c) (alarm_done c) (alarm_mutex c) (threads c) rest
            (log c ++ by_thread t [EvPrintf Prompt; EvFgets (Some line)])
            Alive).
Proof.
  intros Hshort. start_thread Htop. apply Nat.leb_le in Hshort.
  call idtac. call ltac:(rewrite ?Hline).
  same_config.
  rewrite Hshort. apply list_insert_id. exact Hlook.
Qed.

(** A longer line that [sscanf] cannot split in two. *)
Lemma main_bad_command :
  (1 < strlen line)%nat -> sscanf_count (sscanf_alarm line) < 2 ->
  run_thread t [0; 0; 0; 0; 0] c =
    Some (mk_config (alarm_list c) (alarm_done c) (alarm_mutex c) (threads c) rest
            (log c ++ by_thread t
               [EvPrintf Prompt; EvFgets (Some line); EvMalloc true;
                EvPrintf BadCommand; EvFree])
            Alive).
Proof.
  intros Hlong Hbad. start_thread Htop.
  apply Nat.leb_gt in Hlong. apply Z.ltb_lt in Hbad.
  call idtac. call ltac:(rewrite ?Hline).
  call ltac:(rewrite ?Hlong). call ltac:(rewrite ?Hlong, ?Hbad).
  call ltac:(rewrite ?Hlong, ?Hbad).
  same_config.
  apply list_insert_id. exact Hlook.
Qed.

(** A line with both fields: the record is linked in, under the mutex. *)
Lemma main_queues (t0 now : Z) :
  (1 < strlen line)%nat -> 2 <= sscanf_count (sscanf_alarm line) ->
  alarm_mutex c = None ->
  let alarm := parsed_alarm (sscanf_alarm line) t0 in
  run_thread t [0; 0; 0; 0; t0; now; 0; 0; 0; 0] c =
    Some (mk_config (insert alarm (alarm_list c)) (alarm_done c) None (threads c) rest
            (log c ++ by_thread t
               [EvPrintf Prompt; EvFgets (Some line); EvMalloc true; EvLock;
                EvTime t0; EvTime now;
                EvPrintf (Received now (time alarm) (message alarm));
                EvReadList (alarm_list c);
                EvWriteList (insert alarm (alarm_list c)); EvUnlock])
            Alive).
Proof.
  intros Hlong Hgood Hfree alarm. start_thread Htop.
  apply Nat.leb_gt in Hlong. apply Z.ltb_ge in Hgood.
  call idtac. call ltac:(rewrite ?Hline).
  call ltac:(rewrite ?Hlong). call ltac:(rewrite ?Hlong, ?Hgood, ?Hfree).
  do 5 (call ltac:(rewrite ?Hlong, ?Hgood)).
  call ltac:(rewrite ?Hlong, ?Hgood; holding).
  same_config.
  apply list_insert_id. exact Hlook.
Qed.

End Main.

Lemma run_thread_app (t : tid) (a1 a2 : list Z) (c : config) :
  run_thread t (a1 ++ a2) c =
    match run_thread t a1 c with
    | Some c1 => run_thread t a2 c1
    | None => None
    end.
Proof.
  unfold run_thread. rewrite map_app. revert c.
  induction (map (mk_move t) a1) as [|m ms IH]; simpl; intros c; [reflexivity|].
  destruct (step (who m) (answer m) c); [apply IH | reflexivity].
Qed.



(** ** Records with equal times *)

(** C2, as stated, fails: of two records with the same [time] the one
    inserted first ends up second in the list, and is retrieved second. *)
Lemma equal_times_counterexample :
  time tie_first = time tie_second /\
  insert tie_second (insert tie_first []) = [tie_second; tie_first] /\
  run (moves 0%nat (repeat 0 21)) (initial tie_requests) <> None /\
  alarm_list (after tie_requests (moves 0%nat (repeat 0 21))) = [tie_second; tie_first] /\
  run tie_dispatched (initial tie_requests) <> None /\
  omap retrieved_message (log (after tie_requests tie_dispatched)) =
    ["second"%string; "first"%string].
Proof. vm_compute. repeat split; discriminate. Qed.

(** ** The dispatcher's program, and the parser *)

Lemma alarm_thread_never_sleeps : ~ sleeps alarm_thread.
Proof.
  unfold alarm_thread, unlock_and_repeat. intros H.
  inversion H as [| k s Hk | | | | | | | | | | |]; clear H; subst.
  destruct (negb (s =? 0)); [inversion Hk|].
  inversion Hk as [| | | k0 l Hl | | | | | | | | |]; clear Hk; subst.
  destruct l as [|a link].
  - inversion Hl as [| | | | | k0 v Hv | | | | | | |]; clear Hl; subst.
    destruct (v =? 0).
    + inversion Hv as [| | k0 s0 Hs | | | | | | | | | |]; clear Hv; subst.
      destruct (negb (s0 =? 0)); inversion Hs.
    + inversion Hv as [| | | | | k0 v0 Hv0 | | | | | | |]; clear Hv; subst.
      destruct (v0 =? 1); inversion Hv0.
  - inversion Hl as [| | | | | | | k0 now Hn | | | | |]; clear Hl; subst.
    inversion Hn as [| | | | | | | | r k0 Hp | | | |]; clear Hn; subst.
    inversion Hp as [| | | | l k0 Hw | | | | | | | |]; clear Hp; subst.
    inversion Hw as [| | | | | | | | | | | | r k0 s0 Hc]; clear Hw; subst.
    destruct (negb (s0 =? 0)); [inversion Hc|].
    inversion Hc as [| | k0 s1 Hs | | | | | | | | | |]; clear Hc; subst.
    destruct (negb (s1 =? 0)); inversion Hs.
Qed.

Lemma scan_not_newline_length (width : nat) (s : string) :
  (String.length (fst (scan_not_newline width s)) <= width)%nat.
Proof.
  revert s. induction width as [|w IH]; intros [|ch s]; simpl; try lia.
  destruct (Ascii.eqb ch newline); simpl; [lia|].
  specialize (IH s). destruct (scan_not_newline w s) as [m rest]. simpl in *. lia.
Qed.

Lemma scan_message_length (secs : Z) (s : string) :
  (String.length (scanned_message (scan_message secs s)) <= message_width)%nat.
Proof.
  unfold scan_message.
  pose proof (scan_not_newline_length message_width (skip_space s)) as H.
  destruct (scan_not_newline message_width (skip_space s)) as [[|ch m] rest];
    simpl in *; lia.
Qed.

Lemma scan_number_length (negative : bool) (s : string) :
  (String.length (scanned_message (scan_number negative s)) <= message_width)%nat.
Proof.
  unfold scan_number. destruct s as [|d s]; [simpl; lia|].
  destruct (isdigit d); [|simpl; lia].
  destruct (scan_digits 0 (String d s)) as [v rest]. apply scan_message_length.
Qed.

(** What [sscanf] stores in [message] never exceeds the width in the
    format, which is 64. *)
Lemma sscanf_message_length (line : string) :
  (String.length (scanned_message (sscanf_alarm line)) <= message_width)%nat.
Proof.
  unfold sscanf_alarm. destruct (skip_space (c_str line)) as [|ch s]; [simpl; lia|].
  destruct (Ascii.eqb ch "-"); [apply scan_number_length|].
  destruct (Ascii.eqb ch "+"); apply scan_number_length.
Qed.

(** C4 fails on the code. The width in the format is 64, not 63: for the
    request [1] followed by 64 characters, which [fgets] returns whole,
    [sscanf] stores all 64 in [message], an array of [message_size] = 64
    with the terminator, and the record is queued with them. *)
Theorem message_overruns_buffer :
  (forall line,
      (String.length (scanned_message (sscanf_alarm line)) <= 64)%nat) /\
  fgets line_size long_request = Some (long_request, ""%string) /\
  sscanf_alarm long_request = ScanBoth 1 sixty_four /\
  String.length sixty_four = 64%nat /\
  (message_size - 1 < String.length sixty_four)%nat /\
  run (moves 0%nat (repeat 0 11)) (initial long_request) <> None /\
  alarm_list (after long_request (moves 0%nat (repeat 0 11))) =
    [mk_alarm 1 1 sixty_four].
Proof.
  split; [exact sscanf_message_length|].
  vm_compute. repeat split; try discriminate. lia.
Qed.

(** ** The claim about the worker *)

(** C5. A turn of the worker's loop, the first one included, starts by
    reading the time. If the time read is [>=] the record's [time] the
    thread reports the expiry (time read, [time], [message]), frees the
    record and exits: no tick, no sleep. Otherwise it reports a tick
    ([time], [message]), sleeps one second and is at the top of the loop
    again. The shared variables are left alone. *)
Theorem worker_iteration (c : config) (t : tid) (alarm : alarm_t) (now : Z) :
  at_top c t (Some (IndividualAlarmThread alarm)) ->
  exists c',
    run_thread t (if time alarm <=? now then [now; 0; 0; 0] else [now; 0; 0]) c
      = Some c' /\
    log c' = log c ++ by_thread t (worker_turn alarm now) /\
    threads c' =
      <[t := mk_thread (Some (IndividualAlarmThread alarm))
               (if time alarm <=? now then Exited else Running Again)]> (threads c) /\
    shared c' = shared c /\ stdin c' = stdin c /\ process c' = Alive.
Proof.
  intros Htop. unfold worker_turn.
  destruct (Z.leb_spec (time alarm) now) as [Hdue|Hearly].
  - eexists. split; [exact (individual_alarm_thread_expired c t alarm now Htop Hdue)|].
    simpl. repeat split.
  - eexists. split; [exact (individual_alarm_thread_tick c t alarm now Htop Hearly)|].
    simpl. repeat split. symmetry. apply list_insert_id. apply Htop.
Qed.

Lemma worker_iteration_witness :
  at_top worker_config 2%nat (Some (IndividualAlarmThread worker_alarm)) /\
  exists c',
    run_thread 2%nat [3; 0; 0; 0] worker_config = Some c' /\
    log c' = log worker_config ++
             by_thread 2%nat [EvTime 3; EvPrintf (Expired 3 3 "second"); EvFree; EvExit].
Proof.
  assert (H : at_top worker_config 2%nat (Some (IndividualAlarmThread worker_alarm)))
    by (split; vm_compute; reflexivity).
  split; [exact H|].
  destruct (worker_iteration worker_config 2%nat worker_alarm 3 H)
    as (c' & Hrun & Hlog & _).
  exists c'. split; assumption.
Defined.

(** ** The dispatcher under any schedule *)

Lemma alarm_thread_places :
  alarm_thread =
  MutexLock (fun status =>
    if negb (status =? 0) then ErrAbort "Lock mutex" else at_look).
Proof. reflexivity. Qed.



Lemma dispatching_ext (c c' : config) (d : tid) (st : tstate) (n : nat) :
  holds d c' = holds d c -> alarm_list c' = alarm_list c ->
  dispatching c d st n -> dispatching c' d st n.
Proof.
  intros Hh Hl Hd. destruct Hd; rewrite <- ?Hl; constructor; congruence.
Qed.

Lemma moved_lookup (t : tid) (r : option routine) (st : tstate) (e : event)
    (c : config) :
  (t < length (threads c))%nat ->
  threads (moved t r st e c) !! t = Some (mk_thread r st).
Proof. intros Ht. simpl. apply list_lookup_insert_eq. exact Ht. Qed.

(** What the invariant says of a running thread that is past the first
    call of [main]. *)
Lemma running_disciplined (c : config) (t : tid) (r : option routine) (pc : prog) :
  inv c -> threads c !! t = Some (mk_thread r (Running pc)) -> pc <> main ->
  exists seen, seen <= alarm_done c /\ disciplined r seen (holds t c) pc.
Proof.
  intros Hinv Hlook Hpc.
  destruct (inv_threads c Hinv t _ Hlook) as (_ & _ & [(Heq & _)|[Hp _]]).
  - contradiction.
  - exact Hp.
Qed.

(** One call of the dispatcher: it stays on its path, and with the flag
    set it comes closer to its exit. *)
Lemma dispatcher_step (c : config) (d : tid) (st : tstate) (n : nat) (a : Z)
    (c' : config) :
  inv c ->
  threads c !! d = Some (mk_thread (Some AlarmThread) st) ->
  dispatching c d st n ->
  step d a c = Some c' ->
  exists st' n',
    threads c' !! d = Some (mk_thread (Some AlarmThread) st') /\
    dispatching c' d st' n' /\
    alarm_done c' = alarm_done c /\
    (alarm_done c = 1 -> process c' = Alive -> (n' < n)%nat).
Proof.
  intros Hinv Hlook Hd Hstep.
  assert (Ht : (d < length (threads c))%nat) by (eapply lookup_lt_Some; eassumption).
  unfold step in Hstep. destruct (process c) eqn:Halive; try discriminate.
  rewrite Hlook in Hstep.
  destruct Hd as [Hh|Hh|Hh Hl|Hh|Hh| |a0 link Hh Hl|now a0 link Hh Hl
                 |a0 link Hh Hl|a0 Hh|Hh|text]; simpl in Hstep.
  - (* top *)
    destruct (alarm_mutex c) as [o|] eqn:Hm; [discriminate|].
    injection Hstep as <-. eexists. eexists.
    split; [apply moved_lookup; exact Ht|].
    split; [apply d_look; unfold holds; simpl; apply Nat.eqb_refl|].
    split; [simpl; congruence | intros; simpl; lia].
  - (* look *)
    injection Hstep as <-. destruct (alarm_list c) as [|a0 link] eqn:Hl;
      eexists; eexists; (split; [apply moved_lookup; exact Ht|]).
    + split; [apply d_idle_test; [exact Hh | exact Hl]|].
      split; [simpl; congruence | intros; simpl; lia].
    + split; [apply (d_clock _ _ a0 link); [exact Hh | exact Hl]|].
      split; [simpl; congruence | intros; simpl; rewrite Hl; simpl; lia].
  - (* idle test *)
    injection Hstep as <-.
    destruct (inv_done c Hinv) as [Hdone|Hdone]; rewrite Hdone;
      eexists; eexists; (split; [apply moved_lookup; exact Ht|]).
    + split; [apply d_unlock; exact Hh|].
      split; [simpl; congruence | intros; lia].
    + split; [apply d_exit_test; exact Hh|].
      split; [simpl; congruence | intros; lia].
  - (* exit test *)
    injection Hstep as <-.
    assert (Hdone : alarm_done c = 1).
    { destruct (running_disciplined c d _ _ Hinv Hlook) as (seen & Hle & Hp);
        [discriminate|].
      simpl in Hp. destruct Hp as [_ Hp].
      specialize (Hp (alarm_done c) (inv_done c Hinv) Hle).
      destruct (inv_done c Hinv) as [H0|H1]; [|exact H1].
      rewrite H0 in Hp. simpl in Hp. contradiction. }
    rewrite Hdone. eexists. eexists.
    split; [apply moved_lookup; exact Ht|].
    split; [apply d_exit; exact Hh|].
    split; [simpl; congruence | intros; lia].
  - (* exit *)
    injection Hstep as <-. eexists. eexists.
    split; [apply moved_lookup; exact Ht|].
    split; [apply d_exited|].
    split; [simpl; congruence | intros; lia].
  - (* exited *) discriminate.
  - (* clock *)
    injection Hstep as <-. eexists. eexists.
    split; [apply moved_lookup; exact Ht|].
    split; [apply (d_report _ _ a a0 link); [exact Hh | exact Hl]|].
    split; [simpl; congruence | intros; simpl; lia].
  - (* report *)
    injection Hstep as <-. eexists. eexists.
    split; [apply moved_lookup; exact Ht|].
    split; [apply (d_unlink _ _ a0 link); [exact Hh | exact Hl]|].
    split; [simpl; congruence | intros; simpl; lia].
  - (* unlink *)
    injection Hstep as <-. eexists. eexists.
    split; [apply moved_lookup; exact Ht|].
    split; [apply (d_create _ _ a0); exact Hh|].
    split; [simpl; congruence | intros; simpl; rewrite Hl; simpl; lia].
  - (* create *)
    destruct (a =? 0) eqn:Ha; injection Hstep as <-; eexists; eexists.
    + split; [apply moved_lookup; simpl; rewrite length_app; lia|].
      split; [apply d_unlock; exact Hh|].
      split; [simpl; congruence | intros; simpl; lia].
    + split; [apply moved_lookup; exact Ht|].
      split; [apply d_abort|].
      split; [simpl; congruence | intros; lia].
  - (* unlock *)
    rewrite Hh in Hstep. injection Hstep as <-. eexists. eexists.
    split; [apply moved_lookup; exact Ht|].
    split; [apply d_top; reflexivity|].
    split; [simpl; congruence | intros; simpl; lia].
  - (* abort *)
    injection Hstep as <-. eexists. eexists.
    split; [exact Hlook|]. split; [apply d_abort|].
    split; [simpl; congruence | intros _ Hp; discriminate].
Qed.

(** A call of another thread leaves the dispatcher where it is; with the
    flag set it also leaves the list and the mutex as they are. *)
Lemma other_step (c : config) (d t : tid) (st : tstate) (n : nat) (a : Z)
    (c' : config) :
  inv c -> t <> d ->
  threads c !! d = Some (mk_thread (Some AlarmThread) st) ->
  dispatching c d st n ->
  step t a c = Some c' ->
  threads c' !! d = Some (mk_thread (Some AlarmThread) st) /\
  (exists n', dispatching c' d st n') /\
  (alarm_done c = 1 -> alarm_done c' = 1 /\ dispatching c' d st n).
Proof.
  intros Hinv Hne Hlookd Hd Hstep.
  pose proof (inv_threads c Hinv d _ Hlookd) as (Hroled & _). simpl in Hroled.
  apply role_at_dispatcher in Hroled.
  assert (Hdb : (d < length (threads c))%nat) by (eapply lookup_lt_Some; eassumption).
  unfold step in Hstep. destruct (process c) eqn:Halive; try discriminate.
  destruct (threads c !! t) as [[r [pc|]]|] eqn:Hlook; try discriminate.
  assert (Htb : (t < length (threads c))%nat) by (eapply lookup_lt_Some; eassumption).
  pose proof (inv_threads c Hinv t _ Hlook) as (Hrole & Hworker & Hrun).
  simpl in Hrole, Hworker, Hrun.
  destruct Hrun as [(_ & _ & Hone & _)|[(seen & Hseen & Hp) Hexit]]; [lia|].
  assert (Hnd : r <> Some AlarmThread).
  { intros ->. apply role_at_dispatcher in Hrole. congruence. }
  assert (Hnotmain : r = None -> alarm_done c = 1 -> fetch r pc = PthreadExit).
  { intros Hr Hdone. rewrite (Hexit Hr Hdone). reflexivity. }
  assert (Hfetch : exists seen', disciplined r seen' (holds t c) (fetch r pc)).
  { destruct pc; try (exists seen; exact Hp).
    simpl in Hp. simpl. exists 0. rewrite Hp. apply loop_body_disciplined. }
  clear Hp Hexit Hseen seen. destruct Hfetch as (seen & Hp).
  assert (Hsame : forall st' e c0,
            threads c0 = threads c -> holds d c0 = holds d c ->
            alarm_list c0 = alarm_list c -> alarm_done c0 = alarm_done c ->
            threads (moved t r st' e c0) !! d = Some (mk_thread (Some AlarmThread) st) /\
            (exists n', dispatching (moved t r st' e c0) d st n') /\
            (alarm_done c = 1 ->
             alarm_done (moved t r st' e c0) = 1 /\
             dispatching (moved t r st' e c0) d st n)).
  { intros st' e c0 Hth Hh Hl Hdn.
    assert (Hdisp : dispatching (moved t r st' e c0) d st n)
      by (apply (dispatching_ext c); [exact Hh | exact Hl | exact Hd]).
    split; [|split; [exists n; exact Hdisp | intros Hdone; split; [|exact Hdisp]]].
    - simpl. rewrite Hth, list_lookup_insert_ne by exact Hne. exact Hlookd.
    - simpl. congruence. }
  destruct (fetch r pc) eqn:Hpc; simpl in Hp, Hstep.
  - (* Again *) injection Hstep as <-.
    split; [exact Hlookd|]. split; [exists n; exact Hd | auto].
  - (* PthreadExit *) injection Hstep as <-. apply Hsame; reflexivity.
  - (* ErrAbort *) injection Hstep as <-.
    assert (Hdisp : dispatching
              (set_process (Aborted text) (add_log t (EvAbort text) c)) d st n)
      by (apply (dispatching_ext c); [reflexivity | reflexivity | exact Hd]).
    split; [exact Hlookd|]. split; [exists n; exact Hdisp | auto].
  - (* NullDeref *) contradiction.
  - (* MutexLock *)
    destruct Hp as (Hheld & Hnw & Hp).
    destruct (alarm_mutex c) as [o|] eqn:Hm; [discriminate|].
    injection Hstep as <-. apply Hsame; try reflexivity.
    apply (holds_set_mutex_other t); auto.
  - (* MutexUnlock *)
    destruct Hp as [Hheld Hp]. rewrite Hheld in Hstep.
    injection Hstep as <-. apply Hsame; try reflexivity.
    apply (holds_set_mutex_other t); auto.
  - (* ReadList *) injection Hstep as <-. apply Hsame; reflexivity.
  - (* WriteList *)
    destruct Hp as (Hheld & Hsorted & Hp). injection Hstep as <-.
    assert (Hfree : holds d c = false).
    { unfold holds in *. destruct (alarm_mutex c) as [o|]; [|reflexivity].
      apply Nat.eqb_eq in Hheld. subst o. apply Nat.eqb_neq. exact Hne. }
    assert (Hopen : alarm_done c = 1 -> False).
    { intros Hdone. destruct r as [[|alarm]|].
      - congruence.
      - specialize (Hworker eq_refl). congruence.
      - specialize (Hnotmain eq_refl Hdone). discriminate. }
    split; [simpl; rewrite list_lookup_insert_ne by exact Hne; exact Hlookd|].
    split; [|intros Hdone; contradiction].
    inversion Hd; subst; try congruence.
    + eexists. apply d_top. exact Hfree.
    + eexists. apply d_exited.
    + eexists. apply d_abort.
  - (* ReadDone *) injection Hstep as <-. apply Hsame; reflexivity.
  - (* WriteDone *)
    destruct Hp as (Hheld & -> & Hr & ->). injection Hstep as <-.
    assert (Hdisp : dispatching
              (moved t r (Running PthreadExit) (EvWriteDone 1) (set_done 1 c)) d st n)
      by (apply (dispatching_ext c); [reflexivity | reflexivity | exact Hd]).
    split; [simpl; rewrite list_lookup_insert_ne by exact Hne; exact Hlookd|].
    split; [exists n; exact Hdisp | intros _; split; [reflexivity | exact Hdisp]].
  - (* Time *) injection Hstep as <-. apply Hsame; reflexivity.
  - (* Printf *) injection Hstep as <-. apply Hsame; reflexivity.
  - (* Sleep *) injection Hstep as <-. apply Hsame; reflexivity.
  - (* Fgets *)
    destruct (fgets line_size (stdin c)) as [[line rest]|];
      injection Hstep as <-; apply Hsame; reflexivity.
  - (* Malloc *) injection Hstep as <-. apply Hsame; reflexivity.
  - (* Free *) injection Hstep as <-. apply Hsame; reflexivity.
  - (* PthreadCreate *) destruct Hp as (Hr & _). contradiction.
Qed.







(** A thread that appears in a step starts at the top of its loop. *)
Lemma step_new_thread (t d : tid) (a : Z) (c c' : config) (th : thread) :
  step t a c = Some c' ->
  threads c !! d = None -> threads c' !! d = Some th ->
  state th = Running Again.
Proof.
  unfold step. intros Hstep Hnone Hsome.
  destruct (process c); try discriminate.
  destruct (threads c !! t) as [[r [pc|]]|] eqn:Hlook; try discriminate.
  assert (Hne : t <> d) by congruence.
  assert (Hkeep : forall st e c0, threads c0 = threads c ->
            threads (moved t r st e c0) !! d = Some th -> False).
  { intros st e c0 Hth. simpl. rewrite Hth, list_lookup_insert_ne by exact Hne.
    congruence. }
  destruct (fetch r pc); simpl in Hstep;
    try (injection Hstep as <-; exfalso;
         first [simpl in Hsome; congruence | (eapply Hkeep; [|exact Hsome]; reflexivity)]).
  - destruct (alarm_mutex c); [discriminate|].
    injection Hstep as <-. exfalso. (eapply Hkeep; [|exact Hsome]; reflexivity).
  - destruct (holds t c); injection Hstep as <-; exfalso.
    + (eapply Hkeep; [|exact Hsome]; reflexivity).
    + simpl in Hsome. congruence.
  - destruct (fgets line_size (stdin c)) as [[line rest]|];
      injection Hstep as <-; exfalso; (eapply Hkeep; [|exact Hsome]; reflexivity).
  - destruct (a =? 0); injection Hstep as <-.
    + simpl in Hsome. rewrite list_lookup_insert_ne in Hsome by exact Hne.
      apply lookup_snoc_Some in Hsome as [[_ Hold]|[_ <-]]; [congruence|reflexivity].
    + exfalso. (eapply Hkeep; [|exact Hsome]; reflexivity).
Qed.

Lemma step_on_path (t d : tid) (a : Z) (c c' : config) :
  inv c -> on_path c d -> step t a c = Some c' -> on_path c' d.
Proof.
  intros Hinv Hpath Hstep st' Hlook'.
  pose proof (step_inv _ _ _ _ Hinv Hstep) as Hinv'.
  destruct (threads c !! d) as [[r st]|] eqn:Hlook.
  - assert (Hr : r = Some AlarmThread).
    { pose proof (inv_threads c Hinv d _ Hlook) as (Hrole & _).
      pose proof (inv_threads c' Hinv' d _ Hlook') as (Hrole' & _).
      simpl in Hrole, Hrole'. apply role_at_dispatcher in Hrole'. subst d.
      exact Hrole. }
    subst r. destruct (Hpath st Hlook) as (n & Hd).
    destruct (Nat.eq_dec t d) as [->|Hne].
    + destruct (dispatcher_step c d st n a c' Hinv Hlook Hd Hstep)
        as (st1 & n1 & Hlook1 & Hd1 & _).
      rewrite Hlook1 in Hlook'. injection Hlook' as <-. exists n1. exact Hd1.
    + destruct (other_step c d t st n a c' Hinv Hne Hlook Hd Hstep)
        as (Hlook1 & Hex & _).
      rewrite Hlook1 in Hlook'. injection Hlook' as <-. exact Hex.
  - pose proof (step_new_thread t d a c c' _ Hstep Hlook Hlook') as Hst.
    simpl in Hst. subst st'.
    destruct (running_disciplined c' d _ _ Hinv' Hlook') as (seen & _ & Hp);
      [discriminate|].
    simpl in Hp. eexists. apply d_top. exact Hp.
Qed.


(** What a step adds to the log: at most one entry, by the thread that
    moves, and [EvSleep] only for a call of [sleep]. *)
Lemma step_log (t : tid) (a : Z) (c c' : config) :
  step t a c = Some c' ->
  log c' = log c \/
  exists e, log c' = log c ++ [(t, e)] /\
            forall n, e = EvSleep n -> exists k, next_call c t = Some (Sleep n k).
Proof.
  unfold step, next_call. intros Hstep.
  destruct (process c); try discriminate.
  destruct (threads c !! t) as [[r [pc|]]|]; try discriminate.
  destruct (fetch r pc); simpl in Hstep;
    try (injection Hstep as <-; right; eexists; split; [reflexivity|];
         intros n' Hn; first [discriminate Hn | injection Hn as <-; eexists; reflexivity]).
  - injection Hstep as <-. left. reflexivity.
  - destruct (alarm_mutex c); [discriminate|].
    injection Hstep as <-. right. eexists. split; [reflexivity | discriminate].
  - destruct (holds t c); injection Hstep as <-; right; eexists;
      (split; [reflexivity | discriminate]).
  - destruct (fgets line_size (stdin c)) as [[line rest]|];
      injection Hstep as <-; right; eexists; (split; [reflexivity | discriminate]).
  - destruct (a =? 0); injection Hstep as <-; right; eexists;
      (split; [reflexivity | discriminate]).
Qed.

(** The dispatcher has never slept. *)
Lemma dispatcher_never_slept (input : string) (c : config) (n : Z) :
  reachable input c -> ~ In (1%nat, EvSleep n) (log c).
Proof.
  intros [ms Hrun].
  assert (Hgen : forall ms c0,
            inv c0 -> on_path c0 1%nat -> ~ In (1%nat, EvSleep n) (log c0) ->
            run ms c0 = Some c -> ~ In (1%nat, EvSleep n) (log c)).
  { clear ms Hrun. induction ms as [|m ms IH]; simpl; intros c0 Hinv Hpath Hlog Hrun.
    - injection Hrun as <-. exact Hlog.
    - destruct (step (who m) (answer m) c0) as [c1|] eqn:Hstep; [|discriminate].
      apply (IH c1); [eapply step_inv; eassumption
                     | eapply step_on_path; eassumption | | exact Hrun].
      destruct (step_log _ _ _ _ Hstep) as [Heq|(e & Heq & Hsleep)];
        rewrite Heq; [exact Hlog|].
      intros Hin. apply in_app_or in Hin as [Hin|[Hin|[]]]; [exact (Hlog Hin)|].
      injection Hin as Hwho He. destruct (Hsleep n He) as (k & Hnext).
      rewrite Hwho in Hnext. unfold next_call in Hnext.
      destruct (threads c0 !! 1%nat) as [[r [pc|]]|] eqn:Hlook; try discriminate.
      pose proof (inv_threads c0 Hinv 1%nat _ Hlook) as (Hrole & _).
      simpl in Hrole. subst r.
      destruct (Hpath _ Hlook) as (n0 & Hd).
      inversion Hd; subst; discriminate Hnext. }
  apply (Hgen ms (initial input)); [apply initial_inv | | intros [] | exact Hrun].
  intros st Hlook. simpl in Hlook. discriminate.
Qed.

(** C3 fails on the code. With nothing queued and the input still open
    the dispatcher locks, reads [alarm_list] and [alarm_done], unlocks and
    is back at the top of its loop: four calls, none of them [sleep]. In
    no run has the dispatcher ever slept, and no path through
    [alarm_thread] calls [sleep] at all. *)
Theorem idle_dispatcher_does_not_sleep (input : string) (c : config) (t : tid) :
  reachable input c ->
  at_top c t (Some AlarmThread) ->
  alarm_mutex c = None -> alarm_list c = [] -> alarm_done c = 0 ->
  exists c',
    run_thread t [0; 0; 0; 0] c = Some c' /\
    log c' = log c ++ by_thread t [EvLock; EvReadList []; EvReadDone 0; EvUnlock] /\
    at_top c' t (Some AlarmThread) /\
    shared c' = shared c /\
    (forall n, ~ In (t, EvSleep n) (log c')) /\
    ~ sleeps alarm_thread.
Proof.
  intros Hreach Htop Hfree Hl Hd.
  eexists. split; [apply alarm_thread_idle; assumption|].
  assert (Ht : t = 1%nat).
  { destruct Htop as [_ Hlook].
    pose proof (inv_threads c (reachable_inv _ _ Hreach) t _ Hlook) as (Hrole & _).
    apply role_at_dispatcher. exact Hrole. }
  destruct Htop as [Halive Hlook]. unfold at_top, shared. simpl.
  rewrite Hl, Hd, Hfree.
  split; [reflexivity|]. split; [split; [reflexivity | exact Hlook]|].
  split; [reflexivity|]. split; [|apply alarm_thread_never_sleeps].
  intros n Hin. apply in_app_or in Hin as [Hin|Hin].
  - subst t. exact (dispatcher_never_slept input c n Hreach Hin).
  - destruct Hin as [H|[H|[H|[H|[]]]]]; discriminate.
Qed.

Lemma idle_dispatcher_does_not_sleep_witness :
  reachable "" idle_config /\
  at_top idle_config 1%nat (Some AlarmThread) /\
  exists c',
    run_thread 1%nat [0; 0; 0; 0] idle_config = Some c' /\
    log c' = log idle_config ++
             by_thread 1%nat [EvLock; EvReadList []; EvReadDone 0; EvUnlock].
Proof.
  assert (Hreach : reachable "" idle_config)
    by (exists (moves 0%nat [0]); vm_compute; reflexivity).
  assert (H : at_top idle_config 1%nat (Some AlarmThread))
    by (split; vm_compute; reflexivity).
  split; [exact Hreach|]. split; [exact H|].
  destruct (idle_dispatcher_does_not_sleep "" idle_config 1%nat Hreach H
              eq_refl eq_refl eq_refl) as (c' & Hrun & Hlog & _).
  exists c'. split; assumption.
Defined.

(** ** The claims about the dispatcher at work *)



(** C7. The dispatcher, at the top of its loop with the mutex free: if the
    list is empty it takes nothing, starts no thread and leaves the list
    empty; otherwise it unlinks the head, reports it retrieved and starts a
    thread for it, whatever time [now] it reads, before or after the
    record's [time]. No queued record is due before the head. *)
Theorem pop_ready_unconditional (input : string) (c : config) (t : tid) (now : Z) :
  reachable input c ->
  at_top c t (Some AlarmThread) ->
  alarm_mutex c = None ->
  match alarm_list c with
  | [] =>
      exists answers c',
        run_thread t answers c = Some c' /\
        alarm_list c' = [] /\
        threads c' = <[t := mk_thread (Some AlarmThread)
                              (if alarm_done c =? 0 then Running Again else Exited)]>
                       (threads c) /\
        log c' = log c ++ by_thread t
                   (if alarm_done c =? 0
                    then [EvLock; EvReadList []; EvReadDone 0; EvUnlock]
                    else [EvLock; EvReadList []; EvReadDone 1; EvReadDone 1; EvExit])
  | a :: l =>
      exists c',
        run_thread t [0; 0; now; 0; 0; 0; 0] c = Some c' /\
        alarm_list c' = l /\
        threads c' = threads c ++ [new_thread (IndividualAlarmThread a)] /\
        log c' = log c ++ by_thread t
                   [EvLock; EvReadList (a :: l); EvTime now;
                    EvPrintf (Retrieved now (time a) (message a)); EvWriteList l;
                    EvCreate (IndividualAlarmThread a) 0; EvUnlock] /\
        alarm_mutex c' = None /\ alarm_done c' = alarm_done c /\
        Forall (fun b => time a <= time b) l
  end.
Proof.
  intros Hreach Htop Hfree. apply reachable_inv in Hreach.
  destruct Hreach as [Hsorted Hdone _ _ _].
  destruct (alarm_list c) as [|a l] eqn:Hl.
  - destruct Hdone as [Hd|Hd]; rewrite Hd; simpl.
    + eexists. eexists. split; [apply alarm_thread_idle; assumption|].
      simpl. repeat split. symmetry. apply list_insert_id. apply Htop.
    + eexists. eexists. split; [apply alarm_thread_exit; assumption|].
      simpl. repeat split.
  - eexists. split; [exact (alarm_thread_pop c t Htop Hfree a l now Hl)|].
    simpl. repeat split. apply sorted_head_earliest. exact Hsorted.
Qed.

Lemma pop_ready_unconditional_witness :
  reachable two_requests (after two_requests two_queued) /\
  exists c',
    run_thread 1%nat [0; 0; 0; 0; 0; 0; 0] (after two_requests two_queued) = Some c' /\
    alarm_list c' = [mk_alarm 10 10 "first"] /\
    threads c' = threads (after two_requests two_queued)
                   ++ [new_thread (IndividualAlarmThread (mk_alarm 3 3 "second"))].
Proof.
  assert (H : reachable two_requests (after two_requests two_queued))
    by (exists two_queued; vm_compute; reflexivity).
  split; [exact H|].
  assert (Htop : at_top (after two_requests two_queued) 1%nat (Some AlarmThread))
    by (split; vm_compute; reflexivity).
  destruct (pop_ready_unconditional two_requests (after two_requests two_queued)
              1%nat 0 H Htop eq_refl) as (c' & Hrun & Hl & Hth & _).
  exists c'. repeat split; assumption.
Defined.

(** ** The claim about malformed requests *)

(** C8, as stated, fails: the line [x] does not parse, and the program
    says nothing about it. [main] reads it, goes back to the prompt, meets
    the end of the input and exits; no [BadCommand] is ever printed. *)
Lemma short_line_counterexample :
  fgets line_size one_character = Some (one_character, ""%string) /\
  sscanf_count (sscanf_alarm one_character) < 2 /\
  run (moves 0%nat (repeat 0 7)) (initial one_character) <> None /\
  threads (after one_character (moves 0%nat (repeat 0 7))) !! 0%nat
    = Some (mk_thread None Exited) /\
  log (after one_character (moves 0%nat (repeat 0 7))) =
    by_thread 0%nat
      [EvCreate AlarmThread 0; EvPrintf Prompt; EvFgets (Some one_character);
       EvPrintf Prompt; EvFgets None; EvWriteDone 1; EvExit] /\
  ~ In (0%nat, EvPrintf BadCommand)
       (log (after one_character (moves 0%nat (repeat 0 7)))).
Proof.
  vm_compute. repeat split; try discriminate.
  intros H. repeat (destruct H as [H|H]; [discriminate|]). exact H.
Qed.

(** C8, amended. [main] is at the top of its loop and [fgets] returns
    [line]: the next characters of the input up to and with the first
    newline, 127 of them at most, so a whole line of the input only when
    that is no longer. [sscanf] stores fewer than two fields from it.
    If [strlen line], the number of characters of [line] before its first
    NUL, is greater than one, [main] allocates a record ([malloc] finding
    memory), prints [BadCommand] and frees the record; if [strlen line] is
    at most one, [line] is dropped without a word and nothing is
    allocated. Either way the list, the flag, the mutex and the threads
    are as before, [line] is consumed and what follows it in the input is
    still to be read, and [main] is back at the top of its loop. *)
Theorem bad_command_discarded (c : config) (t : tid) (line rest : string) :
  at_top c t None ->
  fgets line_size (stdin c) = Some (line, rest) ->
  sscanf_count (sscanf_alarm line) < 2 ->
  exists c',
    run_thread t (if (strlen line <=? 1)%nat then [0; 0] else [0; 0; 0; 0; 0]) c
      = Some c' /\
    log c' = log c ++ by_thread t
               ([EvPrintf Prompt; EvFgets (Some line)] ++
                if (strlen line <=? 1)%nat then []
                else [EvMalloc true; EvPrintf BadCommand; EvFree]) /\
    shared c' = shared c /\ threads c' = threads c /\
    at_top c' t None /\ stdin c' = rest.
Proof.
  intros Htop Hline Hbad.
  destruct (Nat.leb_spec (strlen line) 1) as [Hshort|Hlong].
  - eexists. split; [exact (main_short_line c t Htop line rest Hline Hshort)|].
    destruct Htop as [Halive Hlook]. unfold at_top, shared. simpl. repeat split.
    exact Hlook.
  - eexists. split; [exact (main_bad_command c t Htop line rest Hline Hlong Hbad)|].
    destruct Htop as [Halive Hlook]. unfold at_top, shared. simpl. repeat split.
    exact Hlook.
Qed.

Lemma bad_command_discarded_witness :
  at_top bad_config 0%nat None /\
  sscanf_count (sscanf_alarm bad_request) < 2 /\
  exists c',
    run_thread 0%nat [0; 0; 0; 0; 0] bad_config = Some c' /\
    log c' = log bad_config ++
             by_thread 0%nat [EvPrintf Prompt; EvFgets (Some bad_request);
                              EvMalloc true; EvPrintf BadCommand; EvFree] /\
    shared c' = shared bad_config.
Proof.
  assert (H : at_top bad_config 0%nat None) by (split; vm_compute; reflexivity).
  assert (Hbad : sscanf_count (sscanf_alarm bad_request) < 2) by (vm_compute; reflexivity).
  split; [exact H|]. split; [exact Hbad|].
  destruct (bad_command_discarded bad_config 0%nat bad_request "" H eq_refl Hbad)
    as (c' & Hrun & Hlog & Hshared & _).
  exists c'. repeat split; assumption.
Defined.

(** ** The claims about the mutex *)

Lemma next_call_disciplined (c : config) (t : tid) (p : prog) :
  inv c -> next_call c t = Some p ->
  p = main \/ exists role seen, disciplined role seen (holds t c) p.
Proof.
  unfold next_call. intros Hinv Hnext.
  destruct (threads c !! t) as [[r [pc|]]|] eqn:Hlook; try discriminate.
  injection Hnext as <-.
  destruct (inv_threads c Hinv t _ Hlook) as (_ & _ & Hrun). simpl in Hrun.
  destruct Hrun as [(-> & _)|[(seen & _ & Hp) _]]; [left; reflexivity|].
  right. destruct pc; try (exists r, seen; exact Hp).
  simpl in Hp. exists r, 0. rewrite Hp. apply loop_body_disciplined.
Qed.

(** C9 fails on the code, for the write of the flag. In every reachable
    configuration a thread about to read or write [alarm_list], or to read
    [alarm_done], holds the mutex; a thread about to write [alarm_done]
    does NOT hold it, and writes 1. *)
Theorem flag_written_without_mutex (input : string) (c : config) (t : tid) (p : prog) :
  reachable input c ->
  next_call c t = Some p ->
  match p with
  | ReadList _ | WriteList _ _ | ReadDone _ => holds t c = true
  | WriteDone v _ => holds t c = false /\ v = 1
  | _ => True
  end.
Proof.
  intros Hreach Hnext. apply reachable_inv in Hreach.
  destruct (next_call_disciplined c t p Hreach Hnext) as [->|(role & seen & Hp)];
    [exact I|].
  destruct p; simpl in Hp; try exact I; tauto.
Qed.

Lemma flag_written_without_mutex_witness :
  reachable "" race_config /\
  next_call race_config 0%nat = Some (WriteDone 1 PthreadExit) /\
  alarm_mutex race_config = Some 1%nat /\
  holds 0%nat race_config = false.
Proof.
  assert (H : reachable "" race_config) by (exists race_schedule; vm_compute; reflexivity).
  split; [exact H|]. split; [reflexivity|]. split; [reflexivity|].
  exact (proj1 (flag_written_without_mutex "" race_config 0%nat
                  (WriteDone 1 PthreadExit) H eq_refl)).
Defined.

(** Once a thread has exited with the mutex, no step changes that, and no
    step is a successful lock. *)
Lemma step_after_exit (t t' : tid) (a : Z) (c c' : config) :
  alarm_mutex c = Some t -> exited c t -> step t' a c = Some c' ->
  alarm_mutex c' = Some t /\ exited c' t /\
  (log c' = log c \/ exists e, log c' = log c ++ [(t', e)] /\ e <> EvLock).
Proof.
  intros Hm [r0 Hex] Hstep. unfold step in Hstep.
  destruct (process c); try discriminate.
  destruct (threads c !! t') as [[r [pc|]]|] eqn:Hlook; try discriminate.
  assert (Hne : t' <> t) by (intros ->; congruence).
  assert (Hkeep : forall st, exited (set_threads (<[t' := mk_thread r st]> (threads c)) c) t).
  { intros st. exists r0. simpl. rewrite list_lookup_insert_ne by exact Hne. exact Hex. }
  assert (Hholds : holds t' c = false).
  { unfold holds. rewrite Hm. apply Nat.eqb_neq. congruence. }
  unfold exited in *.
  destruct (fetch r pc); simpl in Hstep;
    try (injection Hstep as <-; simpl; split; [exact Hm|];
         split; [first [apply Hkeep | exists r0; exact Hex]
                |right; eexists; split; [reflexivity|discriminate]]).
  - (* Again *) injection Hstep as <-. split; [exact Hm|]. split; [exists r0; exact Hex | left; reflexivity].
  - (* MutexLock *) rewrite Hm in Hstep. discriminate.
  - (* MutexUnlock *) rewrite Hholds in Hstep. injection Hstep as <-. simpl.
    split; [exact Hm|]. split; [exists r0; exact Hex|].
    right. eexists. split; [reflexivity|discriminate].
  - (* Fgets *)
    destruct (fgets line_size (stdin c)) as [[line rest]|];
      injection Hstep as <-; simpl; (split; [exact Hm|]);
      (split; [apply Hkeep | right; eexists; split; [reflexivity|discriminate]]).
  - (* PthreadCreate *)
    destruct (a =? 0); injection Hstep as <-; simpl; (split; [exact Hm|]).
    + split; [|right; eexists; split; [reflexivity|discriminate]].
      exists r0. rewrite list_lookup_insert_ne by exact Hne.
      apply lookup_app_l_Some. exact Hex.
    + split; [apply Hkeep | right; eexists; split; [reflexivity|discriminate]].
Qed.

Lemma run_after_exit (t : tid) (ms : list move) :
  forall c c',
    alarm_mutex c = Some t -> exited c t -> run ms c = Some c' ->
    alarm_mutex c' = Some t /\ exited c' t /\
    exists evs, log c' = log c ++ evs /\ forall t', ~ In (t', EvLock) evs.
Proof.
  induction ms as [|m ms IH]; simpl; intros c c' Hm Hex Hrun.
  - injection Hrun as <-. split; [exact Hm|]. split; [exact Hex|].
    exists []. split; [symmetry; apply app_nil_r | intros t' []].
  - destruct (step (who m) (answer m) c) as [c1|] eqn:Hstep; [|discriminate].
    destruct (step_after_exit t _ _ _ _ Hm Hex Hstep) as (Hm1 & Hex1 & Hlog1).
    destruct (IH c1 c' Hm1 Hex1 Hrun) as (Hm' & Hex' & evs & Hlog' & Hno).
    split; [exact Hm'|]. split; [exact Hex'|].
    destruct Hlog1 as [Hlog1|(e & Hlog1 & He)].
    + exists evs. rewrite Hlog', Hlog1. auto.
    + exists ((who m, e) :: evs). rewrite Hlog', Hlog1, <- app_assoc.
      split; [reflexivity|].
      intros t' [Hin|Hin]; [congruence | exact (Hno t' Hin)].
Qed.

(** C10. In every reachable configuration: a dispatcher that has exited
    holds the mutex, and whatever the threads do from there on it still
    holds it and no thread locks it; a dispatcher at the top of its loop
    does not hold the mutex. The last turn of the dispatcher, taken with
    the list empty and the flag set, locks the mutex and exits with it. *)
Theorem dispatcher_exits_with_mutex (input : string) (c : config) (t : tid) :
  reachable input c ->
  (threads c !! t = Some (mk_thread (Some AlarmThread) Exited) ->
     alarm_mutex c = Some t /\
     forall ms c', run ms c = Some c' ->
       alarm_mutex c' = Some t /\
       exists evs, log c' = log c ++ evs /\ forall t', ~ In (t', EvLock) evs) /\
  (at_top c t (Some AlarmThread) ->
     alarm_mutex c <> Some t /\
     (alarm_mutex c = None -> alarm_list c = [] -> alarm_done c = 1 ->
      exists c',
        run_thread t [0; 0; 0; 0; 0] c = Some c' /\
        threads c' !! t = Some (mk_thread (Some AlarmThread) Exited) /\
        alarm_mutex c' = Some t /\
        log c' = log c ++ by_thread t
                   [EvLock; EvReadList []; EvReadDone 1; EvReadDone 1; EvExit])).
Proof.
  intros Hreach. apply reachable_inv in Hreach. split.
  - intros Hlook.
    pose proof (inv_threads c Hreach t _ Hlook) as (_ & _ & Hok).
    unfold holds in Hok. simpl in Hok.
    assert (Hm : alarm_mutex c = Some t).
    { destruct (alarm_mutex c) as [o|]; [|discriminate].
      apply Nat.eqb_eq in Hok. congruence. }
    split; [exact Hm|]. intros ms c' Hrun.
    destruct (run_after_exit t ms c c' Hm (ex_intro _ _ Hlook) Hrun) as (H1 & _ & H2).
    split; assumption.
  - intros Htop.
    pose proof (at_top_bound _ _ _ Htop) as Ht.
    pose proof (inv_threads c Hreach t _ (proj2 Htop)) as (_ & _ & Hrun).
    simpl in Hrun. split.
    + intros Hm.
      assert (Hheld : holds t c = true) by (unfold holds; rewrite Hm; apply Nat.eqb_refl).
      destruct Hrun as [(Hpc & _)|[(seen & _ & Hp) _]]; [discriminate|].
      simpl in Hp. congruence.
    + intros Hfree Hl Hd. eexists.
      split; [exact (alarm_thread_exit c t Htop Hfree Hl Hd)|]. simpl.
      split; [apply list_lookup_insert_eq; exact Ht|]. split; reflexivity.
Qed.

Lemma dispatcher_exits_with_mutex_witness :
  reachable "" finished_config /\
  threads finished_config !! 1%nat = Some (mk_thread (Some AlarmThread) Exited) /\
  alarm_mutex finished_config = Some 1%nat.
Proof.
  assert (H : reachable "" finished_config)
    by (exists finished_schedule; vm_compute; reflexivity).
  split; [exact H|]. split; [reflexivity|].
  exact (proj1 (proj1 (dispatcher_exits_with_mutex "" finished_config 1%nat H) eq_refl)).
Defined.

(** * Further properties *)

#[local] Arguments String.append !s1 s2 : simpl nomatch.

(** ** Strings *)

Lemma append_assoc (a b c : string) : ((a ++ b) ++ c = a ++ (b ++ c))%string.
Proof. induction a as [|x a IH]; simpl; [reflexivity | f_equal; exact IH]. Qed.

Lemma append_empty_r (a : string) : (a ++ "" = a)%string.
Proof. induction a as [|x a IH]; simpl; [reflexivity | f_equal; exact IH]. Qed.

Lemma length_append (a b : string) :
  String.length (a ++ b) = (String.length a + String.length b)%nat.
Proof. induction a as [|x a IH]; simpl; [reflexivity | f_equal; exact IH]. Qed.

Lemma chars_append (a b : string) : chars (a ++ b) = (chars a ++ chars b)%list.
Proof.
  unfold chars. induction a as [|x a IH]; simpl; [reflexivity | f_equal; exact IH].
Qed.

Lemma chars_length (a : string) : length (chars a) = String.length a.
Proof.
  unfold chars. induction a as [|x a IH]; simpl; [reflexivity | f_equal; exact IH].
Qed.

Lemma isspace_not_NUL (c : ascii) : isspace c = true -> c <> NUL.
Proof. intros H ->. discriminate H. Qed.

Lemma isspace_not_digit (c : ascii) : isspace c = true -> isdigit c = false.
Proof.
  unfold isspace, isdigit. intros H.
  apply orb_true_iff in H as [H|H].
  - apply Nat.eqb_eq in H. rewrite H. reflexivity.
  - apply andb_true_iff in H as [_ H]. apply Nat.leb_le in H.
    apply andb_false_iff. left. apply Nat.leb_gt. lia.
Qed.

Lemma blank_no_NUL (s : string) : blank s -> ~ In NUL (chars s).
Proof.
  intros Hblank Hin. unfold blank in Hblank. rewrite List.Forall_forall in Hblank.
  exact (isspace_not_NUL _ (Hblank _ Hin) eq_refl).
Qed.

(** ** The C string in a buffer *)

Lemma c_str_append (a b : string) :
  ~ In NUL (chars a) -> c_str (a ++ b) = (a ++ c_str b)%string.
Proof.
  induction a as [|x a IH]; simpl; intros Hnul; [reflexivity|].
  destruct (Ascii.eqb_spec x NUL) as [->|_]; [tauto|].
  rewrite IH by tauto. reflexivity.
Qed.

Lemma c_str_no_NUL (s : string) : ~ In NUL (chars (c_str s)).
Proof.
  induction s as [|x s IH]; simpl; [tauto|].
  destruct (Ascii.eqb_spec x NUL) as [->|Hx]; simpl; [tauto|].
  intros [H|H]; [congruence | exact (IH H)].
Qed.

Lemma c_str_id (s : string) : ~ In NUL (chars s) -> c_str s = s.
Proof.
  intros H. rewrite <- (append_empty_r s) at 1. rewrite c_str_append by exact H.
  apply append_empty_r.
Qed.

(** ** fgets *)

Lemma fgets_chars_spec (n : nat) :
  forall input line rest,
    fgets_chars n input = (line, rest) ->
    input = (line ++ rest)%string /\
    (String.length line <= n)%nat /\
    exists body,
      ~ In newline (chars body) /\
      (line = (body ++ nl)%string \/
       line = body /\ (rest = ""%string \/ String.length line = n)).
Proof.
  induction n as [|n IH]; intros input line rest H.
  - simpl in H. destruct input; injection H as <- <-;
      (split; [reflexivity|]; split; [simpl; lia|]);
      exists ""%string; (split; [simpl; tauto|]); right; auto.
  - destruct input as [|c input]; simpl in H.
    + injection H as <- <-. split; [reflexivity|]. split; [simpl; lia|].
      exists ""%string. split; [simpl; tauto|]. right. auto.
    + destruct (Ascii.eqb_spec c newline) as [->|Hc].
      * injection H as <- <-. split; [reflexivity|]. split; [simpl; lia|].
        exists ""%string. split; [simpl; tauto|]. left. reflexivity.
      * destruct (fgets_chars n input) as [line' rest'] eqn:Hrec.
        injection H as <- <-.
        destruct (IH _ _ _ Hrec) as (Hsplit & Hlen & body & Hbody & Hend).
        split; [simpl; rewrite <- Hsplit; reflexivity|].
        split; [simpl; lia|].
        exists (String c body). split.
        -- simpl. intros [H|H]; [congruence | exact (Hbody H)].
        -- destruct Hend as [->|[-> Hend]]; [left; reflexivity|].
           right. split; [reflexivity|]. simpl. destruct Hend; [left | right]; congruence.
Qed.

Lemma fgets_chars_nonempty (n : nat) (c : ascii) (input : string) :
  fst (fgets_chars (S n) (String c input)) <> ""%string.
Proof.
  cbn [fgets_chars]. destruct (Ascii.eqb c newline); [|destruct (fgets_chars n input)];
    discriminate.
Qed.

(** X4. What [fgets (line, sizeof (line), stdin)] hands to [main]: nothing
    (NULL) exactly when the input is exhausted; otherwise the next 1 to 127
    characters of the input, none of them lost, ending with the first
    newline if there is one among them. A line that stops short of a
    newline is the whole rest of the input or is 127 characters long. *)
Theorem fgets_line (input : string) :
  match fgets line_size input with
  | None => input = ""%string
  | Some (line, rest) =>
      input = (line ++ rest)%string /\
      (1 <= String.length line <= 127)%nat /\
      exists body,
        ~ In newline (chars body) /\
        (line = (body ++ nl)%string \/
         line = body /\ (rest = ""%string \/ String.length line = 127%nat))
  end.
Proof.
  unfold fgets. destruct input as [|c input]; [reflexivity|].
  change (line_size - 1)%nat with 127%nat.
  destruct (fgets_chars 127 (String c input)) as [line rest] eqn:H.
  destruct (fgets_chars_spec _ _ _ _ H) as (Hsplit & Hlen & Hbody).
  split; [exact Hsplit|]. split; [|exact Hbody].
  split; [|exact Hlen].
  pose proof (fgets_chars_nonempty 126 c input) as Hne.
  change (S 126) with 127%nat in Hne. rewrite H in Hne.
  destruct line; [contradiction Hne; reflexivity | simpl; lia].
Qed.

(** X5. A line of more than 127 characters reaches [main] in pieces: the
    first 127 characters now, whatever follows them at the next call, as a
    request of its own. *)
Theorem fgets_long_line (first rest : string) :
  String.length first = 127%nat -> ~ In newline (chars first) ->
  fgets line_size (first ++ rest) = Some (first, rest).
Proof.
  intros Hlen Hnl. unfold fgets.
  destruct (first ++ rest)%string eqn:Happ.
  - destruct first; [discriminate Hlen | discriminate Happ].
  - rewrite <- Happ. clear Happ. change (line_size - 1)%nat with 127%nat.
    rewrite <- Hlen. clear Hlen. f_equal.
    induction first as [|c first IH]; simpl.
    + destruct rest; reflexivity.
    + destruct (Ascii.eqb_spec c newline) as [->|_]; [simpl in Hnl; tauto|].
      rewrite IH by (simpl in Hnl; tauto). reflexivity.
Qed.

Lemma fgets_long_line_witness :
  fgets line_size (sixty_four ++ sixty_four ++ "x")%string
    = Some ((sixty_four ++ "012345678901234567890123456789012345678901234567890123456789012")%string,
            "3x"%string).
Proof.
  exact (fgets_long_line
           (sixty_four ++ "012345678901234567890123456789012345678901234567890123456789012")
           "3x" eq_refl
           ltac:(vm_compute; intuition discriminate)).
Defined.

(** ** sscanf *)

Lemma skip_space_blank (ws s : string) :
  blank ws -> skip_space (ws ++ s) = skip_space s.
Proof.
  unfold blank. induction ws as [|c ws IH]; simpl; intros H; [reflexivity|].
  inversion H as [|? ? Hc Hws]; subst. rewrite Hc. apply IH. exact Hws.
Qed.

Lemma skip_space_split (s : string) :
  exists ws, s = (ws ++ skip_space s)%string /\ blank ws.
Proof.
  induction s as [|c s IH].
  - exists ""%string. split; [reflexivity | constructor].
  - simpl. destruct (isspace c) eqn:Hc.
    + destruct IH as (ws & Hs & Hws). exists (String c ws). split.
      * simpl. rewrite <- Hs. reflexivity.
      * constructor; assumption.
    + exists ""%string. split; [reflexivity | constructor].
Qed.

Lemma skip_space_idem (s : string) : skip_space (skip_space s) = skip_space s.
Proof.
  induction s as [|c s IH]; simpl; [reflexivity|].
  destruct (isspace c) eqn:Hc; [exact IH|]. simpl. rewrite Hc. reflexivity.
Qed.

Lemma scan_digits_split (s : string) :
  forall acc v rest, scan_digits acc s = (v, rest) ->
  exists ds, s = (ds ++ rest)%string /\ ~ In NUL (chars ds) /\
             (String.length ds = 0%nat -> s = rest).
Proof.
  induction s as [|c s IH]; simpl; intros acc v rest H.
  - injection H as <- <-. exists ""%string. repeat split; simpl; tauto.
  - destruct (isdigit c) eqn:Hc.
    + destruct (IH _ _ _ H) as (ds & Hs & Hnul & _). exists (String c ds).
      split; [simpl; rewrite <- Hs; reflexivity|]. split; [|discriminate].
      simpl. intros [->|Hin]; [discriminate Hc | exact (Hnul Hin)].
    + injection H as <- <-. exists ""%string. repeat split; simpl; tauto.
Qed.

Lemma scan_not_newline_split (width : nat) :
  forall s m rest, scan_not_newline width s = (m, rest) ->
  s = (m ++ rest)%string /\ (String.length m <= width)%nat /\
  ~ In newline (chars m).
Proof.
  induction width as [|w IH]; intros s m rest H.
  - simpl in H. destruct s; injection H as <- <-; repeat split; simpl; tauto || lia.
  - destruct s as [|c s]; simpl in H.
    + injection H as <- <-. repeat split; simpl; tauto || lia.
    + destruct (Ascii.eqb_spec c newline) as [->|Hc].
      * injection H as <- <-. repeat split; simpl; tauto || lia.
      * destruct (scan_not_newline w s) as [m' rest'] eqn:Hrec.
        injection H as <- <-. destruct (IH _ _ _ Hrec) as (Hs & Hlen & Hnl).
        split; [simpl; rewrite <- Hs; reflexivity|]. split; [simpl; lia|].
        simpl. intros [H|H]; [congruence | exact (Hnl H)].
Qed.

Lemma scan_not_newline_whole (msg tail : string) :
  (String.length msg <= message_width)%nat -> ~ In newline (chars msg) ->
  String.length msg = message_width \/ tail = ""%string \/
    (exists t, tail = (nl ++ t)%string) ->
  scan_not_newline message_width (msg ++ tail) = (msg, tail).
Proof.
  generalize message_width as w. induction msg as [|c msg IH]; intros w Hlen Hnl Hend.
  - simpl. destruct Hend as [Hw|[->|[t ->]]].
    + simpl in Hw. subst w. destruct tail; reflexivity.
    + destruct w; reflexivity.
    + destruct w; [reflexivity|]. unfold nl. cbn [String.append scan_not_newline].
      rewrite Ascii.eqb_refl. reflexivity.
  - simpl in Hlen. destruct w as [|w]; [lia|]. simpl.
    destruct (Ascii.eqb_spec c newline) as [->|_]; [simpl in Hnl; tauto|].
    rewrite (IH w); [reflexivity | lia | simpl in Hnl; tauto |].
    destruct Hend as [Hw|Hend]; [left; simpl in Hw; lia | right; exact Hend].
Qed.

(** [int] values come back from [%d] as they are. *)
Lemma to_int_in_range (v : Z) : int_range v -> to_int v = v.
Proof.
  unfold int_range. intros Hv. unfold to_int, saturate, wrap.
  change (2 ^ (64 - 1)) with 9223372036854775808.
  change (2 ^ 32) with 4294967296. change (2 ^ (32 - 1)) with 2147483648.
  change (2 ^ 31) with 2147483648 in Hv.
  rewrite Z.max_r, Z.min_r by lia.
  destruct (Z_lt_le_dec v 0) as [Hneg|Hpos].
  - replace (v mod 4294967296) with (v + 4294967296).
    + destruct (Z.ltb_spec (v + 4294967296) 2147483648); lia.
    + rewrite <- (Z.mod_small (v + 4294967296) 4294967296) at 1 by lia.
      replace (v + 4294967296) with (v + 1 * 4294967296) by lia.
      apply Z.mod_add. lia.
  - rewrite Z.mod_small by lia. destruct (Z.ltb_spec v 2147483648); lia.
Qed.

Lemma to_int_range (v : Z) : int_range (to_int v).
Proof.
  unfold int_range, to_int, wrap. generalize (saturate 64 v) as w. intros w.
  change (2 ^ 32) with 4294967296. change (2 ^ (32 - 1)) with 2147483648.
  change (2 ^ 31) with 2147483648.
  pose proof (Z.mod_pos_bound w 4294967296 ltac:(lia)) as Hr.
  destruct (Z.ltb_spec (w mod 4294967296) 2147483648); lia.
Qed.

Ltac digit :=
  match goal with
  | |- context [digit_value ?c] =>
      let v := eval vm_compute in (digit_value c) in change (digit_value c) with v
  end.

(** The digits [printf] writes are read back by [scan_digits]. *)
Lemma scan_digits_uint (d : Decimal.uint) (rest : string) :
  forall acc,
    match rest with
    | String c _ => isdigit c = false
    | EmptyString => True
    end ->
    scan_digits (Z.pos acc) (NilEmpty.string_of_uint d ++ rest)
      = (Z.pos (Pos.of_uint_acc d acc), rest).
Proof.
  intros acc Hrest. revert acc.
  induction d as [|d IH|d IH|d IH|d IH|d IH|d IH|d IH|d IH|d IH|d IH]; intros acc;
    try (cbn [NilEmpty.string_of_uint String.append Pos.of_uint_acc scan_digits];
         change (isdigit _) with true; cbv iota;
         rewrite <- IH; f_equal; digit; lia).
  cbn [NilEmpty.string_of_uint String.append Pos.of_uint_acc].
  destruct rest as [|c rest]; simpl; [reflexivity | rewrite Hrest; reflexivity].
Qed.

Lemma scan_digits_decimal (d : Decimal.uint) (rest : string) :
  match rest with
  | String c _ => isdigit c = false
  | EmptyString => True
  end ->
  scan_digits 0 (NilZero.string_of_uint d ++ rest) = (Z.of_uint d, rest) /\
  exists c s, (NilZero.string_of_uint d ++ rest)%string = String c s /\
              isdigit c = true /\ c <> "-"%char /\ c <> "+"%char /\
              isspace c = false.
Proof.
  intros Hrest. unfold Z.of_uint.
  assert (Hzero : scan_digits 0 (String "0" rest) = (0, rest)).
  { cbn [scan_digits]. change (isdigit "0") with true. cbv iota.
    destruct rest as [|c rest]; simpl; [reflexivity | rewrite Hrest; reflexivity]. }
  induction d as [|d IH|d IH|d IH|d IH|d IH|d IH|d IH|d IH|d IH|d IH];
    try (split;
         [ cbn [NilZero.string_of_uint NilEmpty.string_of_uint String.append
                Pos.of_uint scan_digits Z.of_N];
           change (isdigit _) with true; cbv iota;
           exact (scan_digits_uint d rest _ Hrest)
         | eexists; eexists; split; [reflexivity|]; repeat split; discriminate ]).
  - split; [exact Hzero|].
    eexists; eexists; split; [reflexivity|]; repeat split; discriminate.
  - split; [|eexists; eexists; split; [reflexivity|]; repeat split; discriminate].
    cbn [NilZero.string_of_uint NilEmpty.string_of_uint String.append Pos.of_uint
         scan_digits].
    change (isdigit "0") with true. cbv iota. change (0 * 10 + digit_value "0") with 0.
    destruct d; exact (proj1 IH).
Qed.

Lemma uint_no_NUL (d : Decimal.uint) : ~ In NUL (chars (NilEmpty.string_of_uint d)).
Proof.
  induction d; simpl; try tauto; intros [H|H]; try discriminate H; tauto.
Qed.

Lemma decimal_no_NUL (n : Z) : ~ In NUL (chars (decimal n)).
Proof.
  assert (H : forall d, ~ In NUL (chars (NilZero.string_of_uint d))).
  { intros d. destruct d; try apply (uint_no_NUL (Decimal.D0 _));
      try apply uint_no_NUL. simpl. intros [H|[]]. discriminate H. }
  unfold decimal. destruct n as [|p|p]; cbn [Z.to_int NilZero.string_of_int];
    [apply H | apply H |].
  change (~ In NUL ("-"%char :: chars (NilZero.string_of_uint (Pos.to_uint p)))).
  intros [Hc|Hin]; [discriminate Hc | exact (H _ Hin)].
Qed.

Lemma no_NUL_append (a b : string) :
  ~ In NUL (chars a) -> ~ In NUL (chars b) -> ~ In NUL (chars (a ++ b)).
Proof. rewrite chars_append, in_app_iff. tauto. Qed.

Lemma skip_space_head (s : string) (c : ascii) (m : string) :
  skip_space s = String c m -> isspace c = false.
Proof.
  induction s as [|x s IH]; simpl; [discriminate|].
  destruct (isspace x) eqn:Hx; [exact IH|]. intros H. injection H as <- _. exact Hx.
Qed.

Lemma skip_space_plain (msg tail : string) :
  plain msg -> skip_space (msg ++ tail) = (msg ++ tail)%string.
Proof.
  intros (_ & _ & _ & Hhead). destruct msg as [|c msg]; [contradiction|].
  simpl. rewrite Hhead. reflexivity.
Qed.

(** [%d] on the digits of a number, after the sign. *)
Lemma scan_number_decimal (negative : bool) (d : Decimal.uint) (rest : string) :
  match rest with
  | String c _ => isdigit c = false
  | EmptyString => True
  end ->
  scan_number negative (NilZero.string_of_uint d ++ rest) =
    scan_message (to_int (if negative then - Z.of_uint d else Z.of_uint d)) rest.
Proof.
  intros Hrest. destruct (scan_digits_decimal d rest Hrest) as (Hscan & c & s & Heq & Hc & _).
  unfold scan_number. rewrite Heq. rewrite Hc. rewrite <- Heq. rewrite Hscan. reflexivity.
Qed.

Lemma sscanf_decimal (n : Z) (ws rest : string) :
  blank ws ->
  match rest with
  | String c _ => isdigit c = false /\ c <> NUL
  | EmptyString => True
  end ->
  ~ In NUL (chars rest) ->
  sscanf_alarm (ws ++ decimal n ++ rest) = scan_message (to_int n) rest.
Proof.
  intros Hws Hrest Hnul. unfold sscanf_alarm.
  rewrite c_str_id
    by (apply no_NUL_append; [apply blank_no_NUL, Hws|];
        apply no_NUL_append; [apply decimal_no_NUL | exact Hnul]).
  rewrite skip_space_blank by exact Hws.
  assert (Hrest' : match rest with
                   | String c _ => isdigit c = false
                   | EmptyString => True
                   end) by (destruct rest; tauto).
  assert (Hpos : forall d,
             match skip_space (NilZero.string_of_uint d ++ rest) with
             | EmptyString => ScanEOF
             | String c s' =>
                 if Ascii.eqb c "-"%char then scan_number true s'
                 else if Ascii.eqb c "+"%char then scan_number false s'
                 else scan_number false (String c s')
             end = scan_message (to_int (Z.of_uint d)) rest).
  { intros d. rewrite <- (scan_number_decimal false d rest Hrest').
    destruct (scan_digits_decimal d rest Hrest')
      as (_ & c & s & -> & _ & Hminus & Hplus & Hspace).
    cbn [skip_space]. rewrite Hspace.
    destruct (Ascii.eqb_spec c "-"%char); [contradiction|].
    destruct (Ascii.eqb_spec c "+"%char); [contradiction|]. reflexivity. }
  unfold decimal. destruct n as [|p|p]; cbn [Z.to_int NilZero.string_of_int].
  - apply (Hpos (Decimal.D0 Decimal.Nil)).
  - rewrite Hpos. unfold Z.of_uint. rewrite Unsigned.of_to. reflexivity.
  - cbn [String.append skip_space]. change (isspace "-") with false. cbv iota.
    rewrite Ascii.eqb_refl. rewrite scan_number_decimal by exact Hrest'.
    unfold Z.of_uint. rewrite Unsigned.of_to. reflexivity.
Qed.

(** X6. A request written out is read back: white space, a number that fits
    an [int] as [printf] writes it, white space, and a message of 1 to 64
    characters that does not start with white space, with nothing after it
    on the line, give exactly that number and that message. The white
    space before the message may be missing when the message does not
    start with a digit; a message of 64 characters is cut from whatever
    follows it, which is dropped. *)
Theorem request_round_trip (n : Z) (ws sep msg tail : string) :
  int_range n -> blank ws -> blank sep -> plain msg ->
  (sep = ""%string -> forall c m, msg = String c m -> isdigit c = false) ->
  String.length msg = 64%nat \/ tail = ""%string \/ (exists t, tail = (nl ++ t)%string) ->
  sscanf_alarm (ws ++ decimal n ++ sep ++ msg ++ tail) = ScanBoth n msg.
Proof.
  intros Hn Hws Hsep Hmsg Hdigit Hend.
  assert (Hline : sscanf_alarm (ws ++ decimal n ++ sep ++ msg ++ tail) =
                  sscanf_alarm (ws ++ decimal n ++ sep ++ msg ++ c_str tail)).
  { unfold sscanf_alarm. f_equal.
    rewrite !c_str_append;
      try first [apply decimal_no_NUL | apply Hmsg | apply blank_no_NUL; assumption].
    rewrite (c_str_id (c_str tail)) by apply c_str_no_NUL. reflexivity. }
  rewrite Hline. clear Hline.
  rewrite sscanf_decimal; [rewrite to_int_in_range by exact Hn | exact Hws | |].
  - unfold scan_message. rewrite skip_space_blank by exact Hsep.
    rewrite skip_space_plain by exact Hmsg.
    rewrite scan_not_newline_whole.
    + destruct Hmsg as (_ & _ & _ & Hhead). destruct msg; [contradiction | reflexivity].
    + apply Hmsg.
    + apply Hmsg.
    + destruct Hend as [H|[->|[t ->]]]; [left; exact H | right; left; reflexivity |].
      right. right. exists (c_str t). reflexivity.
  - destruct sep as [|c sep].
    + destruct msg as [|c m]; [destruct Hmsg as (_ & _ & _ & []) |].
      cbn [String.append]. split; [exact (Hdigit eq_refl c m eq_refl)|].
      intros ->. destruct Hmsg as (_ & _ & Hnul & _). apply Hnul. left. reflexivity.
    + cbn [String.append]. inversion Hsep as [|? ? Hc _]; subst.
      split; [apply isspace_not_digit, Hc | apply isspace_not_NUL, Hc].
  - apply no_NUL_append; [apply blank_no_NUL, Hsep|].
    apply no_NUL_append; [apply Hmsg | apply c_str_no_NUL].
Qed.

Lemma request_round_trip_witness :
  sscanf_alarm (" -10minutes" ++ nl) = ScanBoth (-10) "minutes".
Proof.
  apply (request_round_trip (-10) " " "" "minutes" nl).
  - unfold int_range. lia.
  - repeat constructor.
  - constructor.
  - split; [vm_compute; lia|]. split; [|split; [|reflexivity]];
      vm_compute; intuition discriminate.
  - intros _ c m H. injection H as <- _. reflexivity.
  - right. right. exists ""%string. reflexivity.
Defined.

Lemma scan_message_both (secs : Z) (s : string) (secs' : Z) (msg : string) :
  scan_message secs s = ScanBoth secs' msg ->
  secs' = secs /\
  (String.length msg <= message_width)%nat /\ ~ In newline (chars msg) /\
  match msg with
  | String c _ => isspace c = false
  | EmptyString => False
  end /\
  exists ws post, s = (ws ++ msg ++ post)%string.
Proof.
  unfold scan_message.
  destruct (scan_not_newline message_width (skip_space s)) as [m rest] eqn:Hscan.
  destruct (scan_not_newline_split _ _ _ _ Hscan) as (Hs & Hlen & Hnl).
  destruct m as [|c m]; [discriminate|]. intros H. injection H as <- <-.
  split; [reflexivity|]. split; [exact Hlen|]. split; [exact Hnl|]. split.
  - apply (skip_space_head s c (m ++ rest)). exact Hs.
  - destruct (skip_space_split s) as (ws & Hws & _). exists ws, rest.
    rewrite <- Hs. exact Hws.
Qed.

Lemma scan_number_both (negative : bool) (s : string) (secs : Z) (msg : string) :
  scan_number negative s = ScanBoth secs msg ->
  int_range secs /\
  (String.length msg <= message_width)%nat /\ ~ In newline (chars msg) /\
  match msg with
  | String c _ => isspace c = false
  | EmptyString => False
  end /\
  exists d pre post, s = (String d pre ++ msg ++ post)%string.
Proof.
  unfold scan_number. destruct s as [|d s]; [discriminate|].
  destruct (isdigit d) eqn:Hd; [|discriminate].
  destruct (scan_digits 0 (String d s)) as [v rest] eqn:Hscan.
  intros H. apply scan_message_both in H as (-> & Hlen & Hnl & Hhead & ws & post & Hrest).
  split; [apply to_int_range|]. split; [exact Hlen|]. split; [exact Hnl|].
  split; [exact Hhead|].
  cbn [scan_digits] in Hscan. rewrite Hd in Hscan.
  destruct (scan_digits_split _ _ _ _ Hscan) as (ds & Hs & _).
  exists d, (ds ++ ws)%string, post. cbn [String.append]. f_equal.
  rewrite Hs, Hrest, !append_assoc. reflexivity.
Qed.

Lemma sscanf_both_parts (line : string) (secs : Z) (msg : string) :
  sscanf_alarm line = ScanBoth secs msg ->
  int_range secs /\
  (String.length msg <= message_width)%nat /\ ~ In newline (chars msg) /\
  match msg with
  | String c _ => isspace c = false
  | EmptyString => False
  end /\
  exists pre post, c_str line = (pre ++ msg ++ post)%string /\ pre <> ""%string.
Proof.
  intros H. unfold sscanf_alarm in H.
  destruct (skip_space_split (c_str line)) as (ws & Hline & _).
  destruct (skip_space (c_str line)) as [|c s]; [discriminate|].
  assert (Hnum : forall negative s0 sign,
             scan_number negative s0 = ScanBoth secs msg ->
             c_str line = (ws ++ sign ++ s0)%string ->
             int_range secs /\
             (String.length msg <= message_width)%nat /\ ~ In newline (chars msg) /\
             match msg with
             | String c _ => isspace c = false
             | EmptyString => False
             end /\
             exists pre post,
               c_str line = (pre ++ msg ++ post)%string /\ pre <> ""%string).
  { intros negative s0 sign Hs0 Hc.
    apply scan_number_both in Hs0
      as (Hrange & Hlen & Hnl & Hhead & d & pre & post & ->).
    repeat (split; [assumption|]).
    exists (ws ++ sign ++ String d pre)%string, post. split.
    - rewrite Hc, !append_assoc. reflexivity.
    - destruct ws; [destruct sign|]; discriminate. }
  destruct (Ascii.eqb_spec c "-"%char) as [->|_];
    [exact (Hnum true s "-"%string H Hline)|].
  destruct (Ascii.eqb_spec c "+"%char) as [->|_];
    [exact (Hnum false s "+"%string H Hline)|].
  exact (Hnum false (String c s) ""%string H Hline).
Qed.

(** A line that parses is longer than one character. *)
Lemma parsed_long (line : string) (secs : Z) (msg : string) :
  sscanf_alarm line = ScanBoth secs msg -> (1 < strlen line)%nat.
Proof.
  intros H.
  destruct (sscanf_both_parts line secs msg H) as (_ & _ & _ & Hhead & pre & post & Hline & Hpre).
  unfold strlen. rewrite Hline, !length_append.
  destruct pre; [contradiction|]. destruct msg; [contradiction|]. simpl. lia.
Qed.

(** X7. What a request that parses has stored: a number within the range
    of an [int], and a message of 1 to 64 characters, with no newline and
    no NUL, that does not start with white space and is a piece of the
    line as it was read, after at least one other character. *)
Theorem stored_fields (line : string) (secs : Z) (msg : string) :
  sscanf_alarm line = ScanBoth secs msg ->
  int_range secs /\ plain msg /\
  exists pre post, c_str line = (pre ++ msg ++ post)%string /\ pre <> ""%string.
Proof.
  intros H.
  destruct (sscanf_both_parts line secs msg H)
    as (Hrange & Hlen & Hnl & Hhead & pre & post & Hline & Hpre).
  split; [exact Hrange|].
  assert (Hnul : ~ In NUL (chars msg)).
  { intros Hin. apply (c_str_no_NUL line). rewrite Hline, !chars_append, !in_app_iff.
    tauto. }
  split; [repeat split; assumption|].
  exists pre, post. split; assumption.
Qed.

Lemma stored_fields_witness :
  int_range 1 /\ plain sixty_four.
Proof.
  destruct (stored_fields long_request 1 sixty_four eq_refl) as (Hrange & Hplain & _).
  split; assumption.
Defined.

(** What [sscanf] returns for a request that is not complete: -1 for
    white space only, 0 when the first character after the white space
    cannot start a number, and 1, having stored the number, for a number
    with nothing but white space after it. *)
Lemma sscanf_incomplete (line : string) (r : scanned) :
  incomplete line r -> sscanf_alarm line = r.
Proof.
  intros [ws Hws|ws c rest Hws Hspace Hdigit Hminus Hplus Hnul|ws n sep Hws Hsep Hn].
  - unfold sscanf_alarm. rewrite c_str_id by apply blank_no_NUL, Hws.
    rewrite <- (append_empty_r ws). rewrite skip_space_blank by exact Hws. reflexivity.
  - unfold sscanf_alarm.
    rewrite c_str_append by apply blank_no_NUL, Hws.
    rewrite skip_space_blank by exact Hws.
    cbn [c_str]. destruct (Ascii.eqb_spec c NUL); [contradiction|].
    cbn [skip_space]. rewrite Hspace.
    destruct (Ascii.eqb_spec c "-"%char); [contradiction|].
    destruct (Ascii.eqb_spec c "+"%char); [contradiction|].
    unfold scan_number. rewrite Hdigit. reflexivity.
  - rewrite sscanf_decimal.
    + rewrite to_int_in_range by exact Hn. unfold scan_message.
      rewrite <- (append_empty_r sep). rewrite skip_space_blank by exact Hsep.
      destruct message_width; reflexivity.
    + exact Hws.
    + destruct sep as [|x sep]; [exact I|]. inversion Hsep as [|? ? Hx _]; subst.
      split; [apply isspace_not_digit, Hx | apply isspace_not_NUL, Hx].
    + apply blank_no_NUL, Hsep.
Qed.

(** X8. Requests that are not complete. [main] is at the top of its loop
    and [fgets] returns a line of more than one character that is white
    space only, or whose first character after the white space cannot
    start a number, or that is a number with nothing but white space
    after it. [sscanf] returns -1, 0 or 1 (having stored the number), and
    [main], having allocated a record, prints [BadCommand], frees the
    record and is back at the top of its loop; the list, the flag, the
    mutex and the threads are as before. *)
Theorem incomplete_requests (c : config) (t : tid) (line rest : string) (r : scanned) :
  at_top c t None ->
  fgets line_size (stdin c) = Some (line, rest) ->
  (1 < strlen line)%nat ->
  incomplete line r ->
  sscanf_alarm line = r /\
  sscanf_count r = (match r with
                    | ScanEOF => -1
                    | ScanNothing => 0
                    | _ => 1
                    end) /\
  exists c',
    run_thread t [0; 0; 0; 0; 0] c = Some c' /\
    log c' = log c ++ by_thread t
               [EvPrintf Prompt; EvFgets (Some line); EvMalloc true;
                EvPrintf BadCommand; EvFree] /\
    shared c' = shared c /\ threads c' = threads c /\
    at_top c' t None /\ stdin c' = rest.
Proof.
  intros Htop Hline Hlong Hinc.
  pose proof (sscanf_incomplete line r Hinc) as Hparse.
  assert (Hcount : sscanf_count r = (match r with
                                     | ScanEOF => -1
                                     | ScanNothing => 0
                                     | _ => 1
                                     end))
    by (destruct Hinc; reflexivity).
  split; [exact Hparse|]. split; [exact Hcount|].
  assert (Hbad : sscanf_count (sscanf_alarm line) < 2)
    by (rewrite Hparse, Hcount; destruct Hinc; lia).
  eexists. split; [exact (main_bad_command c t Htop line rest Hline Hlong Hbad)|].
  destruct Htop as [Halive Hlook]. unfold at_top, shared. simpl. repeat split.
  exact Hlook.
Qed.

Lemma incomplete_requests_witness :
  sscanf_alarm number_only = ScanSeconds 7 /\
  exists c',
    run_thread 0%nat [0; 0; 0; 0; 0] number_only_config = Some c' /\
    log c' = log number_only_config ++
             by_thread 0%nat [EvPrintf Prompt; EvFgets (Some number_only);
                              EvMalloc true; EvPrintf BadCommand; EvFree] /\
    shared c' = shared number_only_config.
Proof.
  assert (Htop : at_top number_only_config 0%nat None) by (split; vm_compute; reflexivity).
  assert (Hinc : incomplete number_only (ScanSeconds 7)).
  { change number_only with ("" ++ decimal 7 ++ nl)%string.
    apply no_message; [constructor | repeat constructor | unfold int_range; lia]. }
  destruct (incomplete_requests number_only_config 0%nat number_only "" (ScanSeconds 7)
              Htop eq_refl ltac:(vm_compute; lia) Hinc)
    as (Hparse & _ & c' & Hrun & Hlog & Hshared & _).
  split; [exact Hparse|]. exists c'. repeat split; assumption.
Defined.

(** ** The records of the list *)

(** X1. Insertion keeps the records: after any number of insertions the
    list holds the records it held and the new ones, each once. *)
Theorem insert_keeps_records (alarms l : list alarm_t) :
  Permutation (fold_left (fun l a => insert a l) alarms l) (alarms ++ l) /\
  length (fold_left (fun l a => insert a l) alarms l) = (length alarms + length l)%nat.
Proof.
  assert (Hone : forall a l0, Permutation (insert a l0) (a :: l0)).
  { intros a l0. destruct (insert_split a l0) as (pre & post & -> & -> & _).
    symmetry. apply Permutation_middle. }
  assert (Hall : Permutation (fold_left (fun l a => insert a l) alarms l) (alarms ++ l)).
  { revert l. induction alarms as [|a alarms IH]; intros l; simpl; [reflexivity|].
    rewrite IH. rewrite (Hone a l). symmetry. apply Permutation_middle. }
  split; [exact Hall|]. rewrite (Permutation_length Hall). apply length_app.
Qed.

Module LinksWitness.
Import Links LinksFacts LinksSample.

Lemma sample_represents : represents sample [1%nat] [queued].
Proof.
  split.
  - apply (chain_cons _ 1%nat None); [reflexivity | apply chain_nil].
  - apply NoDup_cons. split; [apply not_elem_of_nil | apply NoDup_nil_2].
Qed.

Lemma insert_links_refines_witness :
  exists m' pre post,
    insert_links sample 2%nat = Some m' /\
    [1%nat] = pre ++ post /\
    represents m' (pre ++ 2%nat :: post) [fresh; queued].
Proof.
  destruct (insert_links_refines sample [1%nat] [queued] 2%nat (Some 7%nat) fresh
              sample_represents)
    as (m' & pre & post & Hrun & Hsplit & Hrep & _).
  - apply not_elem_of_cons. split; [discriminate | apply not_elem_of_nil].
  - reflexivity.
  - exists m', pre, post. repeat split; try assumption; apply Hrep.
Defined.

Lemma unlink_head_refines_witness :
  exists a m', unlink_head sample = Some (a, m') /\ represents m' [] [].
Proof.
  destruct (unlink_head_refines sample [1%nat] queued [] sample_represents)
    as (a & addrs' & m' & Haddrs & Hrun & _ & _ & Hrep).
  injection Haddrs as _ <-. exists a, m'. split; assumption.
Defined.

End LinksWitness.

#[local] Arguments String.append : simpl never.

(** ** A request on its way *)

Lemma queued_run (c : config) (t : tid) (line rest : string) (secs : Z)
    (msg : string) (t0 now : Z) :
  at_top c t None ->
  alarm_mutex c = None ->
  fgets line_size (stdin c) = Some (line, rest) ->
  sscanf_alarm line = ScanBoth secs msg ->
  exists c',
    run_thread t [0; 0; 0; 0; t0; now; 0; 0; 0; 0] c = Some c' /\
    alarm_list c' = insert (mk_alarm secs (t0 + secs) msg) (alarm_list c) /\
    log c' = log c ++ by_thread t
               [EvPrintf Prompt; EvFgets (Some line); EvMalloc true; EvLock;
                EvTime t0; EvTime now;
                EvPrintf (Received now (t0 + secs) msg);
                EvReadList (alarm_list c);
                EvWriteList (insert (mk_alarm secs (t0 + secs) msg) (alarm_list c));
                EvUnlock] /\
    at_top c' t None /\ alarm_mutex c' = None /\ alarm_done c' = alarm_done c /\
    threads c' = threads c /\ stdin c' = rest.
Proof.
  intros Htop Hfree Hline Hparse.
  pose proof (parsed_long line secs msg Hparse) as Hlong.
  pose proof (main_queues c t Htop line rest Hline t0 now Hlong) as Hrun.
  rewrite Hparse in Hrun. specialize (Hrun ltac:(simpl; lia) Hfree).
  cbv zeta in Hrun. unfold parsed_alarm in Hrun. simpl in Hrun.
  eexists. split; [exact Hrun|]. simpl.
  repeat (split; [reflexivity|]). split; [|auto].
  split; [reflexivity | apply Htop].
Qed.

(** X9. A request that parses is queued. [main], at the top of its loop
    with the mutex free, reads a line that [sscanf] splits into [secs] and
    [msg]: it locks the mutex, reads the time twice ([t0], then [now]),
    reports the request as received at [now], links the record
    [secs, t0 + secs, msg] into the list at its sorted place, unlocks and
    is back at the top of the loop. The test of [strlen] never stops such
    a line. *)
Theorem request_queued (c : config) (t : tid) (line rest : string) (secs : Z)
    (msg : string) (t0 now : Z) :
  at_top c t None ->
  alarm_mutex c = None ->
  fgets line_size (stdin c) = Some (line, rest) ->
  sscanf_alarm line = ScanBoth secs msg ->
  (1 < strlen line)%nat /\
  exists c',
    run_thread t [0; 0; 0; 0; t0; now; 0; 0; 0; 0] c = Some c' /\
    alarm_list c' = insert (mk_alarm secs (t0 + secs) msg) (alarm_list c) /\
    log c' = log c ++ by_thread t
               [EvPrintf Prompt; EvFgets (Some line); EvMalloc true; EvLock;
                EvTime t0; EvTime now;
                EvPrintf (Received now (t0 + secs) msg);
                EvReadList (alarm_list c);
                EvWriteList (insert (mk_alarm secs (t0 + secs) msg) (alarm_list c));
                EvUnlock] /\
    at_top c' t None /\ alarm_mutex c' = None /\ alarm_done c' = alarm_done c /\
    threads c' = threads c /\ stdin c' = rest.
Proof.
  intros Htop Hfree Hline Hparse.
  split; [exact (parsed_long line secs msg Hparse)|].
  exact (queued_run c t line rest secs msg t0 now Htop Hfree Hline Hparse).
Qed.

Lemma request_queued_witness :
  at_top open_config 0%nat None /\
  exists c',
    run_thread 0%nat [0; 0; 0; 0; 7; 8; 0; 0; 0; 0] open_config = Some c' /\
    alarm_list c' = [mk_alarm 10 17 "first"].
Proof.
  assert (Htop : at_top open_config 0%nat None) by (split; reflexivity).
  split; [exact Htop|].
  destruct (request_queued open_config 0%nat (line_of "10 first") (line_of "3 second")
              10 "first" 7 8 Htop eq_refl eq_refl eq_refl)
    as (_ & c' & Hrun & Hlist & _).
  exists c'. split; [exact Hrun | exact Hlist].
Defined.

(** X10. No memory for the record: [main] has read a line of more than one
    character and [malloc] returns NULL. The process is aborted with
    [Allocate alarm]; the line is gone from the input, nothing was parsed
    or queued, the mutex was not touched, and no thread makes another
    call. *)
Theorem allocation_failure (c : config) (t : tid) (line rest : string) (status : Z) :
  at_top c t None ->
  fgets line_size (stdin c) = Some (line, rest) ->
  (1 < strlen line)%nat ->
  status <> 0 ->
  exists c',
    run_thread t [0; 0; status; 0] c = Some c' /\
    process c' = Aborted "Allocate alarm" /\
    log c' = log c ++ by_thread t
               [EvPrintf Prompt; EvFgets (Some line); EvMalloc false;
                EvAbort "Allocate alarm"] /\
    shared c' = shared c /\ stdin c' = rest /\
    forall t' a, step t' a c' = None.
Proof.
  intros Htop Hline Hlong Hstatus. start_thread Htop.
  apply Nat.leb_gt in Hlong. apply Z.eqb_neq in Hstatus.
  call idtac. call ltac:(rewrite ?Hline).
  call ltac:(rewrite ?Hlong, ?Hstatus). call ltac:(rewrite ?Hlong, ?Hstatus).
  unfold run_thread. cbn [map run]. eexists. split; [reflexivity|].
  cbn [process log stdin shared alarm_list alarm_done alarm_mutex].
  split; [reflexivity|]. split; [rewrite <- !app_assoc; reflexivity|].
  split; [reflexivity|]. split; [reflexivity|]. intros t' a. reflexivity.
Qed.

Lemma allocation_failure_witness :
  exists c',
    run_thread 0%nat [0; 0; 12; 0] open_config = Some c' /\
    process c' = Aborted "Allocate alarm" /\
    shared c' = shared open_config.
Proof.
  destruct (allocation_failure open_config 0%nat (line_of "10 first")
              (line_of "3 second") 12)
    as (c' & Hrun & Hproc & _ & Hshared & _).
  - split; reflexivity.
  - reflexivity.
  - vm_compute. lia.
  - discriminate.
  - exists c'. repeat split; assumption.
Defined.

(** X11. No thread for a record: [pthread_create] fails in the dispatcher.
    By then the record has been reported as retrieved and unlinked from
    the list; the process is aborted with the mutex still locked, and the
    record has gone to no thread. *)
Theorem creation_failure (c : config) (t : tid) (a : alarm_t) (l : list alarm_t)
    (now status : Z) :
  at_top c t (Some AlarmThread) ->
  alarm_mutex c = None ->
  alarm_list c = a :: l ->
  status <> 0 ->
  exists c',
    run_thread t [0; 0; now; 0; 0; status; 0] c = Some c' /\
    process c' = Aborted "create individual alarm thread" /\
    log c' = log c ++ by_thread t
               [EvLock; EvReadList (a :: l); EvTime now;
                EvPrintf (Retrieved now (time a) (message a)); EvWriteList l;
                EvCreate (IndividualAlarmThread a) status;
                EvAbort "create individual alarm thread"] /\
    alarm_list c' = l /\ alarm_mutex c' = Some t /\
    length (threads c') = length (threads c) /\
    forall t' a', step t' a' c' = None.
Proof.
  intros Htop Hfree Hl Hstatus. start_thread Htop.
  apply Z.eqb_neq in Hstatus.
  call ltac:(rewrite ?Hfree). call ltac:(rewrite ?Hl).
  call idtac. call idtac. call idtac. call ltac:(rewrite ?Hstatus).
  call ltac:(rewrite ?Hstatus).
  unfold run_thread. cbn [map run]. eexists. split; [reflexivity|].
  cbn [process log stdin shared alarm_list alarm_done alarm_mutex threads].
  split; [reflexivity|]. split; [rewrite <- !app_assoc; reflexivity|].
  split; [reflexivity|]. split; [reflexivity|].
  split; [rewrite !length_insert; reflexivity|]. intros t' a'. reflexivity.
Qed.

Lemma creation_failure_witness :
  exists c',
    run_thread 1%nat [0; 0; 9; 0; 0; 11; 0] (after two_requests two_queued) = Some c' /\
    process c' = Aborted "create individual alarm thread" /\
    alarm_list c' = [mk_alarm 10 10 "first"].
Proof.
  destruct (creation_failure (after two_requests two_queued) 1%nat
              (mk_alarm 3 3 "second") [mk_alarm 10 10 "first"] 9 11)
    as (c' & Hrun & Hproc & _ & Hlist & _).
  - split; reflexivity.
  - reflexivity.
  - reflexivity.
  - discriminate.
  - exists c'. repeat split; assumption.
Defined.

(** ** The life of a worker *)

Lemma by_thread_app (t : tid) (a b : list event) :
  by_thread t (a ++ b) = by_thread t a ++ by_thread t b.
Proof. apply map_app. Qed.

Lemma worker_ticks (t : tid) (alarm : alarm_t) (nows : list Z) :
  forall c,
    at_top c t (Some (IndividualAlarmThread alarm)) ->
    Forall (fun now => now < time alarm) nows ->
    run_thread t (tick_answers nows) c =
      Some (mk_config (alarm_list c) (alarm_done c) (alarm_mutex c) (threads c)
              (stdin c) (log c ++ by_thread t (tick_events alarm nows)) Alive).
Proof.
  induction nows as [|now nows IH]; intros c Htop Hearly.
  - simpl. rewrite app_nil_r. destruct Htop as [Halive _]. destruct c; simpl in *.
    unfold run_thread. simpl. congruence.
  - inversion Hearly as [|? ? Hnow Hrest]; subst.
    change (tick_answers (now :: nows)) with ([now; 0; 0] ++ tick_answers nows).
    rewrite run_thread_app.
    rewrite (individual_alarm_thread_tick c t alarm now Htop Hnow).
    rewrite IH; [|split; [reflexivity | apply Htop] | exact Hrest].
    cbn [alarm_list alarm_done alarm_mutex threads stdin log].
    rewrite <- app_assoc, <- by_thread_app. reflexivity.
Qed.

(** X12. A worker from start to end. While the times it reads are before
    the record's [time] it reports a tick and sleeps one second, once for
    each reading; at the first reading that is not, it reports the expiry,
    frees the record and exits. It makes no other call, then or later,
    and leaves the shared variables alone. *)
Theorem worker_lifetime (c : config) (t : tid) (alarm : alarm_t) (nows : list Z)
    (last : Z) :
  at_top c t (Some (IndividualAlarmThread alarm)) ->
  Forall (fun now => now < time alarm) nows ->
  time alarm <= last ->
  exists c',
    run_thread t (tick_answers nows ++ [last; 0; 0; 0]) c = Some c' /\
    log c' = log c ++ by_thread t
               (tick_events alarm nows ++
                [EvTime last; EvPrintf (Expired last (time alarm) (message alarm));
                 EvFree; EvExit]) /\
    threads c' =
      <[t := mk_thread (Some (IndividualAlarmThread alarm)) Exited]> (threads c) /\
    shared c' = shared c /\ process c' = Alive /\
    forall a, step t a c' = None.
Proof.
  intros Htop Hearly Hdue. rewrite run_thread_app.
  rewrite (worker_ticks t alarm nows c Htop Hearly).
  rewrite individual_alarm_thread_expired with (alarm := alarm);
    [|split; [reflexivity | apply Htop] | exact Hdue].
  eexists. split; [reflexivity|].
  cbn [alarm_list alarm_done alarm_mutex threads stdin log process shared].
  split; [rewrite <- app_assoc, <- by_thread_app; reflexivity|].
  split; [reflexivity|]. split; [reflexivity|]. split; [reflexivity|].
  intros a. unfold step. cbn [process threads].
  rewrite list_lookup_insert_eq by (apply (at_top_bound _ _ _ Htop)). reflexivity.
Qed.

Lemma worker_lifetime_witness :
  exists c',
    run_thread 2%nat (tick_answers [0; 1; 2] ++ [3; 0; 0; 0]) worker_config = Some c' /\
    log c' = log worker_config ++ by_thread 2%nat
               (tick_events worker_alarm [0; 1; 2] ++
                [EvTime 3; EvPrintf (Expired 3 3 "second"); EvFree; EvExit]).
Proof.
  destruct (worker_lifetime worker_config 2%nat worker_alarm [0; 1; 2] 3)
    as (c' & Hrun & Hlog & _).
  - split; reflexivity.
  - repeat constructor.
  - vm_compute. discriminate.
  - exists c'. split; assumption.
Defined.

(** ** From the request to the expiry *)

Lemma run_app (ms1 ms2 : list move) (c : config) :
  run (ms1 ++ ms2) c =
    match run ms1 c with
    | Some c1 => run ms2 c1
    | None => None
    end.
Proof.
  revert c. induction ms1 as [|m ms1 IH]; intros c; simpl; [reflexivity|].
  destruct (step (who m) (answer m) c); [apply IH | reflexivity].
Qed.

(** ** What holds of every run *)

(** A call that follows a NULL pointer stops the process. *)
Lemma step_null (t t' : tid) (a : Z) (c c' : config) :
  step t a c = Some c' -> In (t', EvNullDeref) (log c') ->
  In (t', EvNullDeref) (log c) \/ process c' = Undefined.
Proof.
  unfold step. intros Hstep Hin.
  destruct (process c); try discriminate.
  destruct (threads c !! t) as [[r [pc|]]|]; try discriminate.
  assert (Hadd : forall e, e <> EvNullDeref ->
            In (t', EvNullDeref) (log c ++ [(t, e)]) -> In (t', EvNullDeref) (log c)).
  { intros e He H. apply in_app_or in H. destruct H as [H|[H|[]]]; [exact H|].
    congruence. }
  destruct (fetch r pc); simpl in Hstep;
    try (injection Hstep as <-; simpl in Hin;
         first [ right; reflexivity
               | left; exact Hin
               | left; (eapply Hadd; [|exact Hin]; discriminate) ]).
  - destruct (alarm_mutex c); [discriminate|].
    injection Hstep as <-. left. (eapply Hadd; [|exact Hin]; discriminate).
  - destruct (holds t c); injection Hstep as <-;
      [left; (eapply Hadd; [|exact Hin]; discriminate) | right; reflexivity].
  - destruct (fgets line_size (stdin c)) as [[line rest]|];
      injection Hstep as <-; left; (eapply Hadd; [|exact Hin]; discriminate).
  - destruct (a =? 0); injection Hstep as <-; left;
      (eapply Hadd; [|exact Hin]; discriminate).
Qed.

Lemma run_no_null (t' : tid) (ms : list move) :
  forall c c', inv c -> ~ In (t', EvNullDeref) (log c) -> run ms c = Some c' ->
               ~ In (t', EvNullDeref) (log c').
Proof.
  induction ms as [|m ms IH]; simpl; intros c c' Hinv Hnot Hrun.
  - injection Hrun as <-. exact Hnot.
  - destruct (step (who m) (answer m) c) as [c1|] eqn:Hstep; [|discriminate].
    pose proof (step_inv _ _ _ _ Hinv Hstep) as Hinv1.
    apply (IH c1 c' Hinv1); [|exact Hrun].
    intros Hin. destruct (step_null _ _ _ _ _ Hstep Hin) as [H|H]; [exact (Hnot H)|].
    exact (inv_process c1 Hinv1 H).
Qed.

(** X14. No NULL pointer is followed, and the mutex is locked and unlocked
    as it must be. In every configuration the program can reach: no
    thread has followed a NULL pointer, and none is about to (the last
    [else] of the dispatcher is never entered with an empty list, for
    [alarm_done] is 0 or 1); a thread about to unlock the mutex holds it;
    a thread about to lock it does not hold it already. So the process
    is not [Undefined], which stands for these two faults and no other:
    the terminator that [sscanf] writes behind [message]
    ([message_overruns_buffer]) and the write of [alarm_done] without the
    mutex ([flag_written_without_mutex]) are not among them, and this
    statement is silent about them. *)
Theorem no_null_dereference (input : string) (c : config) (t : tid) (p : prog) :
  reachable input c ->
  (forall t', ~ In (t', EvNullDeref) (log c)) /\
  process c <> Undefined /\
  (alarm_done c = 0 \/ alarm_done c = 1) /\
  (next_call c t = Some p ->
   match p with
   | NullDeref => False
   | MutexUnlock _ => holds t c = true
   | MutexLock _ => holds t c = false
   | _ => True
   end).
Proof.
  intros Hreach. split.
  { intros t'. destruct Hreach as [ms Hrun].
    apply (run_no_null t' ms _ _ (initial_inv input)); [|exact Hrun].
    intros []. }
  apply reachable_inv in Hreach.
  split; [apply Hreach|]. split; [apply Hreach|]. intros Hnext.
  destruct (next_call_disciplined c t p Hreach Hnext) as [->|(role & seen & Hp)];
    [exact I|].
  destruct p; simpl in Hp; try exact I; tauto.
Qed.

Lemma no_null_dereference_witness :
  ~ In (1%nat, EvNullDeref) (log race_config) /\
  process race_config <> Undefined /\
  (alarm_done race_config = 0 \/ alarm_done race_config = 1).
Proof.
  assert (H : reachable "" race_config) by (exists race_schedule; vm_compute; reflexivity).
  destruct (no_null_dereference "" race_config 0%nat Again H) as (Hn & Hp & Hd & _).
  split; [apply Hn|]. split; assumption.
Defined.

(** X15. Who is who. In every configuration the program can reach, thread
    0 runs [main], thread 1 is the one [alarm_thread], and every other
    thread is an [individual_alarm_thread]; the mutex is held by thread 0
    or by thread 1 if by any, never by an [individual_alarm_thread]. *)
Theorem thread_roles (input : string) (c : config) :
  reachable input c ->
  (forall t th, threads c !! t = Some th ->
     match t with
     | O => started th = None
     | S O => started th = Some AlarmThread
     | _ => exists alarm, started th = Some (IndividualAlarmThread alarm)
     end) /\
  (forall o, alarm_mutex c = Some o -> o = 0%nat \/ o = 1%nat).
Proof.
  intros Hreach. apply reachable_inv in Hreach.
  assert (Hrole : forall t th, threads c !! t = Some th ->
            match t with
            | O => started th = None
            | S O => started th = Some AlarmThread
            | _ => exists alarm, started th = Some (IndividualAlarmThread alarm)
            end).
  { intros t th Hth. destruct (inv_threads c Hreach t th Hth) as (Hrole & _).
    destruct t as [|[|t]]; simpl in Hrole; try exact Hrole.
    destruct (started th) as [[|alarm]|]; try discriminate. exists alarm. reflexivity. }
  split; [exact Hrole|]. intros o Ho.
  pose proof (inv_owner c Hreach o Ho) as Hlt.
  destruct (lookup_lt_is_Some_2 _ _ Hlt) as [th Hth].
  destruct (inv_threads c Hreach o th Hth) as (_ & Hworker & _).
  specialize (Hrole o th Hth).
  destruct o as [|[|o]]; [left; reflexivity | right; reflexivity |].
  destruct Hrole as [alarm Hstarted]. rewrite Hstarted in Hworker.
  specialize (Hworker eq_refl). unfold holds in Hworker. rewrite Ho in Hworker.
  rewrite Nat.eqb_refl in Hworker. discriminate.
Qed.

Lemma thread_roles_witness :
  alarm_mutex race_config = Some 1%nat /\ (1 = 0 \/ 1 = 1)%nat.
Proof.
  assert (H : reachable "" race_config) by (exists race_schedule; vm_compute; reflexivity).
  split; [reflexivity|].
  exact (proj2 (thread_roles "" race_config H) 1%nat eq_refl).
Defined.

(** ** The records on their way *)

Lemma unlock_and_repeat_traced (role : option routine) (cur : option (list alarm_t))
    (seen : Z) :
  traced role cur seen [] unlock_and_repeat.
Proof. simpl. reflexivity. Qed.

Lemma individual_alarm_thread_traced (alarm : alarm_t) :
  traced (Some (IndividualAlarmThread alarm)) None 0 [] (individual_alarm_thread alarm).
Proof.
  unfold individual_alarm_thread. simpl. intros now.
  destruct (Z.leb_spec (time alarm) now) as [Hdue|Hearly]; simpl.
  - split; [|auto]. exists alarm. auto.
  - split; [|auto]. exists alarm. auto.
Qed.

Lemma alarm_thread_traced : traced (Some AlarmThread) None 0 [] alarm_thread.
Proof.
  unfold alarm_thread. simpl. intros [|a link]; simpl.
  - intros v Hv. destruct (Z.eqb_spec v 0) as [->|Hv0]; simpl; [reflexivity|].
    intros v' Hv'. destruct (Z.eqb_spec v' 1) as [->|Hv1]; simpl; auto.
  - intros now. split; [reflexivity|]. split; [exists a, link; auto|].
    exists a. split; [reflexivity|].
    split; [reflexivity|]. split; [reflexivity|]. split; [reflexivity|].
    intros status Hstatus. apply Z.eqb_neq in Hstatus. rewrite Hstatus. exact I.
Qed.

Lemma main_loop_traced : traced None None 0 [] main_loop.
Proof.
  unfold main_loop. simpl. split; [reflexivity|]. split; [reflexivity|].
  intros [line|]; [|simpl; auto].
  destruct (strlen line <=? 1)%nat; [reflexivity|].
  simpl. intros [|]; simpl; [|exact I].
  destruct (sscanf_count (sscanf_alarm line) <? 2); simpl; [auto|].
  intros t now. split; [reflexivity|].
  exists (parsed_alarm (sscanf_alarm line) t). split; [reflexivity|].
  split; [reflexivity|]. split; [reflexivity|]. intros l.
  exists l, (parsed_alarm (sscanf_alarm line) t). auto.
Qed.

Lemma loop_body_traced (r : option routine) : traced r None 0 [] (loop_body r).
Proof.
  destruct r as [[|alarm]|]; simpl.
  - apply alarm_thread_traced.
  - apply individual_alarm_thread_traced.
  - apply main_loop_traced.
Qed.

Lemma main_traced : traced None None 0 [] main.
Proof.
  unfold main. simpl. split; [reflexivity|]. intros status.
  destruct (status =? 0); simpl; auto.
Qed.

Lemma holds_exclusive (c : config) (t t' : tid) :
  holds t c = true -> holds t' c = true -> t = t'.
Proof.
  unfold holds. destruct (alarm_mutex c) as [o|]; [|discriminate].
  intros H H'. apply Nat.eqb_eq in H, H'. congruence.
Qed.

Lemma hand_at_set_other (hs : hands) (t t' : tid) (h : list alarm_t) :
  t' <> t -> hand_at (set_hand t h hs) t' = hand_at hs t'.
Proof.
  intros Hne. destruct t as [|[|t]], t' as [|[|t']]; simpl; congruence.
Qed.

Lemma received_snoc (l : list (tid * event)) (t : tid) (e : event) :
  received (l ++ [(t, e)]) =
    received l ++ match e with
                  | EvPrintf (Received _ expires msg) => [(expires, msg)]
                  | _ => []
                  end.
Proof.
  unfold received. rewrite omap_app. f_equal. simpl.
  destruct e; try reflexivity. destruct r; reflexivity.
Qed.

Lemma worker_records_insert (ths : list thread) (t : tid) (r : option routine)
    (st0 st : tstate) :
  ths !! t = Some (mk_thread r st0) ->
  worker_records (<[t := mk_thread r st]> ths) = worker_records ths.
Proof.
  revert t. induction ths as [|th ths IH]; intros [|t] H; try discriminate H.
  - injection H as ->. reflexivity.
  - change (worker_records (th :: <[t := mk_thread r st]> ths)
            = worker_records (th :: ths)).
    change (worker_records (th :: ?l))
      with (match worker_record (started th) with
            | Some a => a :: worker_records l
            | None => worker_records l
            end).
    rewrite (IH t H). reflexivity.
Qed.

Lemma worker_records_snoc (ths : list thread) (start : routine) :
  worker_records (ths ++ [new_thread start]) =
    worker_records ths ++ match start with
                          | IndividualAlarmThread a => [a]
                          | AlarmThread => []
                          end.
Proof.
  unfold worker_records. rewrite omap_app. f_equal. destruct start; reflexivity.
Qed.

(** A thread that does not move keeps what it knows, as long as the flag
    is not lowered and, while it holds the mutex, the list and the mutex
    are left alone. *)
Lemma thread_traced_frame (c c0 : config) (t : tid) (th : thread) (h : list alarm_t) :
  inv c -> threads c !! t = Some th ->
  alarm_done c <= alarm_done c0 ->
  (alarm_done c0 = 0 \/ alarm_done c0 = 1) ->
  (holds t c = true -> alarm_list c0 = alarm_list c /\ holds t c0 = true) ->
  thread_traced c t th h -> thread_traced c0 t th h.
Proof.
  intros Hinv Hlook Hdone Hbit Hkeep. unfold thread_traced.
  destruct (inv_threads c Hinv t th Hlook) as (_ & _ & Hst).
  destruct (state th) as [pc|].
  - intros (cur & seen & Htr & Hseen & Hcur). exists cur, seen.
    split; [exact Htr|]. split; [lia|]. intros l Hl.
    destruct (Hcur l Hl) as [Hlist Hheld]. destruct (Hkeep Hheld) as [Hsame Hheld'].
    split; [congruence | exact Hheld'].
  - intros [Hh Hexit]. split; [exact Hh|].
    destruct (started th) as [[|a]|]; simpl in Hst.
    + destruct Hexit as [Hlist Hd]. destruct (Hkeep Hst) as [Hsame _].
      split; [congruence | lia].
    + exact I.
    + lia.
Qed.

Section Kept.

Variables (t : tid) (r : option routine) (st0 : tstate) (c : config) (hs : hands).
Hypothesis Hinv : inv c.
Hypothesis Hkept : kept c hs.
Hypothesis Hlook : threads c !! t = Some (mk_thread r st0).

(** Thread [t] moves to [st] on top of a change [c0] of the shared state
    that may start the threads [news]; its hand becomes what [hs'] has. *)
Lemma kept_moved (st : tstate) (e : event) (c0 : config) (news : list thread)
    (hs' : hands) :
  threads c0 = threads c ++ news ->
  log c0 = log c ->
  alarm_done c <= alarm_done c0 ->
  (alarm_done c0 = 0 \/ alarm_done c0 = 1) ->
  (forall t', t' <> t -> holds t' c = true ->
              alarm_list c0 = alarm_list c /\ holds t' c0 = true) ->
  (forall t', t' <> t -> hand_at hs' t' = hand_at hs t') ->
  thread_traced c0 t (mk_thread r st) (hand_at hs' t) ->
  (forall n th, news !! n = Some th ->
     thread_traced c0 (length (threads c) + n) th
                   (hand_at hs' (length (threads c) + n))) ->
  ((length (threads c0) <= 1)%nat -> snd hs' = []) ->
  Permutation (received (log c ++ [(t, e)]))
              (map shown (alarm_list c0 ++ worker_records (threads c0)
                          ++ fst hs' ++ snd hs')) ->
  (forall rep, e = EvPrintf rep -> report_ok r rep) ->
  kept (moved t r st e c0) hs'.
Proof.
  intros Hths Hlog Hdone Hbit Hframe Hhands Hme Hnews Hsingle Hperm Hrep.
  assert (Ht : (t < length (threads c))%nat) by (eapply lookup_lt_Some; exact Hlook).
  constructor.
  - intros t' th Hth. cbn [moved add_log set_threads threads] in Hth.
    change (thread_traced c0 t' th (hand_at hs' t')).
    destruct (decide (t' = t)) as [->|Hne].
    + rewrite list_lookup_insert_eq in Hth by (rewrite Hths, length_app; lia).
      injection Hth as <-. exact Hme.
    + rewrite list_lookup_insert_ne in Hth by congruence. rewrite Hths in Hth.
      apply lookup_app_Some in Hth as [Hth|[Hge Hth]].
      * rewrite Hhands by exact Hne.
        apply (thread_traced_frame c c0 t' th); auto.
        apply (kept_threads c hs Hkept). exact Hth.
      * replace t' with (length (threads c) + (t' - length (threads c)))%nat by lia.
        apply Hnews. exact Hth.
  - cbn [moved add_log set_threads threads]. rewrite length_insert. exact Hsingle.
  - cbn [moved add_log set_threads threads log alarm_list]. rewrite Hlog.
    rewrite (worker_records_insert _ _ _ st0)
      by (rewrite Hths; apply lookup_app_l_Some; exact Hlook).
    exact Hperm.
  - cbn [moved add_log set_threads threads log]. rewrite Hlog.
    intros t' rep Hin. apply in_app_iff in Hin as [Hin|[Hin|[]]].
    + destruct (kept_reports c hs Hkept t' rep Hin) as (th & Hth & Hok).
      destruct (decide (t' = t)) as [->|Hne].
      * rewrite Hlook in Hth. injection Hth as <-.
        exists (mk_thread r st). split; [|exact Hok].
        apply list_lookup_insert_eq. rewrite Hths, length_app. lia.
      * exists th. split; [|exact Hok].
        rewrite list_lookup_insert_ne by congruence.
        rewrite Hths. apply lookup_app_l_Some. exact Hth.
    + injection Hin as <- He. exists (mk_thread r st). split; [|apply Hrep; exact He].
      apply list_lookup_insert_eq. rewrite Hths, length_app. lia.
Qed.

(** A call that changes neither the list, nor the pool, nor the hands,
    and prints no receipt. *)
Lemma kept_same (st : tstate) (e : event) (c0 : config) :
  threads c0 = threads c ->
  log c0 = log c ->
  alarm_list c0 = alarm_list c ->
  alarm_done c <= alarm_done c0 ->
  (alarm_done c0 = 0 \/ alarm_done c0 = 1) ->
  (forall t', t' <> t -> holds t' c = true -> holds t' c0 = true) ->
  thread_traced c0 t (mk_thread r st) (hand_at hs t) ->
  (forall rep, e = EvPrintf rep ->
     report_ok r rep /\ forall now expires msg, rep <> Received now expires msg) ->
  kept (moved t r st e c0) hs.
Proof.
  intros Hths Hlog Hlist Hdone Hbit Hframe Hme Hrep.
  apply (kept_moved st e c0 []); auto.
  - rewrite app_nil_r. exact Hths.
  - intros n th Hn. discriminate Hn.
  - rewrite Hths. apply (kept_single c hs Hkept).
  - rewrite received_snoc, Hlist, Hths.
    replace (match e with
             | EvPrintf (Received _ expires msg) => [(expires, msg)]
             | _ => []
             end) with (@nil (Z * string)).
    + rewrite app_nil_r. apply (kept_records c hs Hkept).
    + destruct e; try reflexivity. destruct r0; try reflexivity.
      destruct (Hrep _ eq_refl) as [_ Hno]. exfalso. eapply Hno. reflexivity.
  - intros rep Hrep'. apply (Hrep rep Hrep').
Qed.

(** The process ends: no thread moves. *)
Lemma kept_ended (e : event) (p : pstate) :
  (forall rep, e <> EvPrintf rep) ->
  kept (set_process p (add_log t e c)) hs.
Proof.
  intros He. destruct Hkept as [Hths Hsingle Hperm Hrep]. constructor.
  - exact Hths.
  - exact Hsingle.
  - cbn [set_process add_log log alarm_list threads]. rewrite received_snoc.
    replace (match e with
             | EvPrintf (Received _ expires msg) => [(expires, msg)]
             | _ => []
             end) with (@nil (Z * string)).
    + rewrite app_nil_r. exact Hperm.
    + destruct e; try reflexivity. exfalso. eapply He. reflexivity.
  - cbn [set_process add_log log threads]. intros t' rep Hin.
    apply in_app_iff in Hin as [Hin|[Hin|[]]]; [exact (Hrep t' rep Hin)|].
    injection Hin as _ Hin. exfalso. eapply He. exact Hin.
Qed.

End Kept.

Lemma hands_split (hs : hands) (t : tid) :
  (t <= 1)%nat ->
  exists other,
    fst hs ++ snd hs ≡ₚ hand_at hs t ++ other /\
    forall h',
      fst (set_hand t h' hs) ++ snd (set_hand t h' hs) ≡ₚ h' ++ other /\
      hand_at (set_hand t h' hs) t = h' /\
      (t = 0%nat -> snd (set_hand t h' hs) = snd hs).
Proof.
  intros Ht. destruct t as [|[|t]]; [| |lia]; simpl.
  - exists (snd hs). split; [reflexivity|]. intros h'. auto.
  - exists (fst hs). split; [apply Permutation_app_comm|]. intros h'.
    split; [apply Permutation_app_comm|]. split; [reflexivity | discriminate].
Qed.

Lemma hand_at_nonempty (hs : hands) (t : tid) (a : alarm_t) :
  hand_at hs t = [a] -> (t <= 1)%nat.
Proof. destruct t as [|[|t]]; simpl; [lia | lia | discriminate]. Qed.

Section Stepping.

Variables (t : tid) (r : option routine) (pc : prog) (c : config) (hs : hands).
Hypothesis Hinv : inv c.
Hypothesis Hkept : kept c hs.
Hypothesis Hlook : threads c !! t = Some (mk_thread r (Running pc)).

Lemma fetch_traced :
  exists cur seen,
    traced r cur seen (hand_at hs t) (fetch r pc) /\ seen <= alarm_done c /\
    forall l, cur = Some l -> alarm_list c = l /\ holds t c = true.
Proof.
  destruct (kept_threads c hs Hkept t _ Hlook) as (cur & seen & Htr & Hseen & Hcur).
  simpl in Htr.
  destruct pc; try (exists cur, seen; auto; fail).
  simpl in Htr. rewrite Htr. exists None, 0. split; [apply loop_body_traced|].
  split; [destruct (inv_done c Hinv) as [Hd|Hd]; rewrite Hd; lia | discriminate].
Qed.

Lemma fetch_disciplined :
  fetch r pc = main \/ exists seen, disciplined r seen (holds t c) (fetch r pc).
Proof.
  destruct (inv_threads c Hinv t _ Hlook) as (_ & _ & Hrun). simpl in Hrun.
  destruct Hrun as [(-> & -> & _)|[(seen & _ & Hp) _]]; [left; reflexivity|].
  right. destruct pc; try (exists seen; exact Hp).
  simpl in Hp. exists 0. rewrite Hp. apply loop_body_disciplined.
Qed.

Lemma fetch_locked :
  match fetch r pc with
  | ReadList _ | WriteList _ _ => holds t c = true
  | WriteDone v _ => v = 1 /\ r = None
  | _ => True
  end.
Proof.
  destruct fetch_disciplined as [Heq|(seen & Hp)].
  - rewrite Heq. exact I.
  - destruct (fetch r pc); simpl in Hp; try exact I; tauto.
Qed.

(** [main] has nothing left to do but exit once the flag is set. *)
Lemma fetch_after_flag : r = None -> alarm_done c = 1 -> fetch r pc = PthreadExit.
Proof.
  intros Hr Hd.
  destruct (inv_threads c Hinv t _ Hlook) as (_ & _ & Hrun). simpl in Hrun.
  destruct Hrun as [(_ & _ & _ & Hzero & _)|[_ Hexit]]; [lia|].
  rewrite (Hexit Hr Hd). reflexivity.
Qed.

Lemma step_kept (a : Z) (c' : config) :
  exec t r (fetch r pc) a c = Some c' -> exists hs', kept c' hs'.
Proof.
  intros Hexec.
  destruct fetch_traced as (cur & seen & Htr & Hseen & Hcur).
  pose proof fetch_locked as Hdisc.
  pose proof (stepping_role t r _ c Hinv Hlook) as Hrole.
  pose proof (stepping_bound t r _ c Hlook) as Ht.
  pose proof (inv_done c Hinv) as Hbit.
  assert (Hme : forall st cur' seen' (c0 : config),
             match st with
             | Running pc' =>
                 traced r cur' seen' (hand_at hs t) pc' /\ seen' <= alarm_done c0 /\
                 forall l, cur' = Some l -> alarm_list c0 = l /\ holds t c0 = true
             | Exited => False
             end ->
             thread_traced c0 t (mk_thread r st) (hand_at hs t)).
  { intros [pc'|] cur' seen' c0; [|contradiction]. intros H. exists cur', seen'. exact H. }
  assert (Hnot : forall e : event,
             match e with EvPrintf _ => False | _ => True end ->
             forall rep, e = EvPrintf rep ->
               report_ok r rep /\ forall now expires msg, rep <> Received now expires msg)
    by (intros e He rep ->; contradiction).
  destruct (fetch r pc) as [| |text| |k|k|k|l' k|k|v k|k|rep k|n k|k|k|k|start k];
    simpl in Htr, Hexec.
  - (* Again *) injection Hexec as <-. exists hs. exact Hkept.
  - (* PthreadExit *)
    injection Hexec as <-. exists hs.
    apply (kept_same t r _ c hs Hinv Hkept Hlook); auto; try lia; try (intros ? [=]).
    destruct Htr as [Hh Hexit]. split; [exact Hh|]. simpl.
    destruct r as [[|alarm]|]; [|exact I|lia].
    destruct Hexit as [Hl Hs]. destruct (Hcur _ Hl) as [Hlist _]. split; [exact Hlist | lia].
  - (* ErrAbort *)
    injection Hexec as <-. exists hs. apply kept_ended; [exact Hkept | discriminate].
  - (* NullDeref *)
    injection Hexec as <-. exists hs. apply kept_ended; [exact Hkept | discriminate].
  - (* MutexLock *)
    destruct (alarm_mutex c) as [o|] eqn:Hm; [discriminate|].
    injection Hexec as <-. exists hs.
    apply (kept_same t r _ c hs Hinv Hkept Hlook); auto; try (simpl; lia); try (intros ? [=]).
    + intros t' _ Hheld. unfold holds in Hheld. rewrite Hm in Hheld. discriminate.
    + apply (Hme _ None seen). split; [exact Htr|]. split; [simpl; lia | discriminate].
  - (* MutexUnlock *)
    destruct (holds t c) eqn:Hheld.
    + injection Hexec as <-. exists hs.
      apply (kept_same t r _ c hs Hinv Hkept Hlook); auto; try (simpl; lia); try (intros ? [=]).
      * intros t' Hne Hheld'. exfalso. apply Hne.
        symmetry. eapply holds_exclusive; eassumption.
      * apply (Hme _ None seen). split; [exact Htr|]. split; [simpl; lia | discriminate].
    + injection Hexec as <-. exists hs. apply kept_ended; [exact Hkept | discriminate].
  - (* ReadList *)
    injection Hexec as <-. exists hs.
    apply (kept_same t r _ c hs Hinv Hkept Hlook); auto; try lia; try (intros ? [=]).
    apply (Hme _ (Some (alarm_list c)) seen). split; [apply Htr|]. split; [lia|].
    intros l [= <-]. auto.
  - (* WriteList *)
    injection Hexec as <-.
    assert (Hframe : forall t', t' <> t -> holds t' c = true ->
              alarm_list (set_list l' c) = alarm_list c /\
              holds t' (set_list l' c) = true).
    { intros t' Hne Hheld'. exfalso. apply Hne.
      symmetry. eapply holds_exclusive; eassumption. }
    destruct r as [[|alarm]|]; [| contradiction |].
    + (* the dispatcher unlinks the head *)
      apply role_at_dispatcher in Hrole. subst t.
      destruct Htr as (a0 & Hl & Hh & Htr). destruct (Hcur _ Hl) as [Hlist _].
      exists (fst hs, [a0]).
      apply (kept_moved 1%nat _ _ c hs Hinv Hkept Hlook _ _ (set_list l' c) []);
        [ simpl; rewrite app_nil_r; reflexivity | reflexivity | simpl; lia
        | exact Hbit | exact Hframe | | | | | | ].
      * intros [|[|t']] Hne; simpl; congruence.
      * exists (Some l'), seen. split; [exact Htr|]. split; [simpl; lia|].
        intros l [= <-]. auto.
      * intros n th Hn. discriminate Hn.
      * simpl. intros Hlen. lia.
      * rewrite received_snoc, app_nil_r. simpl in Hh.
        rewrite (kept_records c hs Hkept), Hlist, Hh. apply Permutation_map.
        cbn [alarm_list set_list threads fst snd]. solve_Permutation.
      * intros rep Hrep. discriminate Hrep.
    + (* main links the record in *)
      apply role_at_main in Hrole. subst t.
      destruct Htr as (l & alarm & Hl & Hh & -> & Htr). destruct (Hcur _ Hl) as [Hlist _].
      exists ([], snd hs).
      apply (kept_moved 0%nat _ _ c hs Hinv Hkept Hlook _ _
               (set_list (insert alarm l) c) []);
        [ simpl; rewrite app_nil_r; reflexivity | reflexivity | simpl; lia
        | exact Hbit | exact Hframe | | | | | | ].
      * intros [|[|t']] Hne; simpl; congruence.
      * exists (Some (insert alarm l)), seen. split; [exact Htr|]. split; [simpl; lia|].
        intros l0 [= <-]. auto.
      * intros n th Hn. discriminate Hn.
      * simpl. apply (kept_single c hs Hkept).
      * rewrite received_snoc, app_nil_r. simpl in Hh.
        rewrite (kept_records c hs Hkept), Hlist, Hh. apply Permutation_map.
        cbn [alarm_list set_list threads fst snd].
        destruct (insert_split alarm l) as (pre & post & -> & -> & _).
        solve_Permutation.
      * intros rep Hrep. discriminate Hrep.
  - (* ReadDone *)
    injection Hexec as <-. exists hs.
    apply (kept_same t r _ c hs Hinv Hkept Hlook); auto; try lia; try (intros ? [=]).
    apply (Hme _ cur (alarm_done c)). split; [apply Htr; exact Hseen|].
    split; [lia | exact Hcur].
  - (* WriteDone *)
    destruct Hdisc as [-> _]. injection Hexec as <-. exists hs.
    apply (kept_same t r _ c hs Hinv Hkept Hlook); auto; try (simpl; lia); try (intros ? [=]).
    apply (Hme _ cur 1). split; [exact Htr|]. split; [simpl; lia | exact Hcur].
  - (* Time *)
    injection Hexec as <-. exists hs.
    apply (kept_same t r _ c hs Hinv Hkept Hlook); auto; try lia; try (intros ? [=]).
    apply (Hme _ cur seen). auto.
  - (* Printf *)
    injection Hexec as <-. destruct Htr as [Hok Htr].
    assert (Hk : match rep with
                 | Received _ _ _ => True
                 | _ => traced r cur seen (hand_at hs t) k
                 end)
      by (destruct rep; try exact Htr; [exact I | apply Htr]).
    destruct rep as [| |now expires msg|now expires msg|expires msg|now expires msg];
      try (exists hs;
           apply (kept_same t r _ c hs Hinv Hkept Hlook); auto; try lia;
           [ apply (Hme _ cur seen); auto
           | intros rep [= <-]; split; [exact Hok | discriminate] ]).
    (* the receipt *)
    simpl in Hok. subst r. apply role_at_main in Hrole. subst t.
    destruct Htr as (alarm & Hh & -> & -> & Htr). simpl in Hh.
    exists ([alarm], snd hs).
    apply (kept_moved 0%nat _ _ c hs Hinv Hkept Hlook _ _ c []);
      [ rewrite app_nil_r; reflexivity | reflexivity | lia | exact Hbit | auto
      | | | | | | ].
    + intros [|[|t']] Hne; simpl; congruence.
    + exists cur, seen. auto.
    + intros n th Hn. discriminate Hn.
    + simpl. apply (kept_single c hs Hkept).
    + rewrite received_snoc. rewrite (kept_records c hs Hkept), Hh.
      cbn [fst snd app]. rewrite !map_app. cbn [map].
      rewrite <- !app_assoc. do 2 apply Permutation_app_head.
      symmetry. apply Permutation_cons_append.
    + intros rep [= <-]. reflexivity.
  - (* Sleep *)
    injection Hexec as <-. exists hs.
    apply (kept_same t r _ c hs Hinv Hkept Hlook); auto; try lia; try (intros ? [=]).
    apply (Hme _ cur seen). auto.
  - (* Fgets *)
    destruct Htr as [_ Htr].
    destruct (fgets line_size (stdin c)) as [[line rest]|];
      injection Hexec as <-; exists hs;
      (apply (kept_same t r _ c hs Hinv Hkept Hlook); auto; try (simpl; lia);
       try (intros ? [=]));
      apply (Hme _ cur seen); auto.
  - (* Malloc *)
    injection Hexec as <-. exists hs.
    apply (kept_same t r _ c hs Hinv Hkept Hlook); auto; try lia; try (intros ? [=]).
    apply (Hme _ cur seen). auto.
  - (* Free *)
    injection Hexec as <-. exists hs.
    apply (kept_same t r _ c hs Hinv Hkept Hlook); auto; try lia; try (intros ? [=]).
    apply (Hme _ cur seen). auto.
  - (* PthreadCreate *)
    assert (Hfresh : forall hs' : hands,
               ((length (threads c) <= 1)%nat -> snd hs' = []) ->
               hand_at hs' (length (threads c)) = []).
    { intros hs' Hs. destruct (length (threads c)) as [|[|n]] eqn:Hn; simpl; auto.
      lia. }
    destruct (Z.eqb_spec a 0) as [->|Ha].
    + injection Hexec as <-. destruct start as [|a0].
      * destruct Htr as [Hh Htr]. exists hs.
        apply (kept_moved t r _ c hs Hinv Hkept Hlook _ _
                 (set_threads (threads c ++ [new_thread AlarmThread]) c)
                 [new_thread AlarmThread]);
          [ reflexivity | reflexivity | simpl; lia | exact Hbit | auto | auto
          | | | | | ].
        -- exists cur, seen. rewrite Hh. auto.
        -- intros [|n] th Hn; [|discriminate Hn]. injection Hn as <-.
           rewrite Nat.add_0_r. exists None, 0. simpl.
           split; [apply Hfresh, (kept_single c hs Hkept)|]. split; [lia | discriminate].
        -- simpl. rewrite length_app. simpl. lia.
        -- rewrite received_snoc, app_nil_r. cbn [alarm_list set_threads threads].
           rewrite worker_records_snoc, app_nil_r. apply (kept_records c hs Hkept).
        -- intros rep Hrep. discriminate Hrep.
      * destruct Htr as (Hh & Htr & _).
        pose proof (hand_at_nonempty hs t a0 Hh) as Hsmall.
        destruct (hands_split hs t Hsmall) as (other & Hold & Hnew).
        destruct (Hnew []) as (Hnew1 & Hnew2 & Hnew3).
        exists (set_hand t [] hs).
        assert (Hsingle : (length (threads c) <= 1)%nat -> snd (set_hand t [] hs) = []).
        { intros Hlen. assert (t = 0%nat) as Ht0 by lia.
          rewrite (Hnew3 Ht0). apply (kept_single c hs Hkept). exact Hlen. }
        apply (kept_moved t r _ c hs Hinv Hkept Hlook _ _
                 (set_threads (threads c ++ [new_thread (IndividualAlarmThread a0)]) c)
                 [new_thread (IndividualAlarmThread a0)]);
          [ reflexivity | reflexivity | simpl; lia | exact Hbit | auto
          | | | | | | ].
        -- intros t' Hne. apply hand_at_set_other. exact Hne.
        -- exists cur, seen. rewrite Hnew2. auto.
        -- intros [|n] th Hn; [|discriminate Hn]. injection Hn as <-.
           rewrite Nat.add_0_r. exists None, 0. simpl.
           split; [apply Hfresh, Hsingle|]. split; [lia | discriminate].
        -- simpl. rewrite length_app. simpl. lia.
        -- rewrite received_snoc, app_nil_r. cbn [alarm_list set_threads threads].
           rewrite worker_records_snoc. rewrite (kept_records c hs Hkept).
           apply Permutation_map. do 1 apply Permutation_app_head.
           rewrite <- app_assoc. apply Permutation_app_head.
           rewrite Hold, Hh, Hnew1. reflexivity.
        -- intros rep Hrep. discriminate Hrep.
    + injection Hexec as <-. exists hs.
      apply (kept_same t r _ c hs Hinv Hkept Hlook); auto; try lia; try (intros ? [=]).
      apply (Hme _ cur seen). split; [|auto].
      destruct start as [|a0].
      * destruct Htr as [Hh Htr]. rewrite Hh. apply Htr.
      * destruct Htr as (Hh & _ & Htr). rewrite Hh. apply Htr. exact Ha.
Qed.

End Stepping.

Lemma initial_kept (input : string) : kept (initial input) ([], []).
Proof.
  constructor; simpl.
  - intros [|t] th; simpl; [|discriminate]. intros [= <-].
    exists None, 0. split; [apply main_traced|]. split; [simpl; lia | discriminate].
  - reflexivity.
  - reflexivity.
  - intros t r [].
Qed.

Lemma run_kept (ms : list move) :
  forall c c' hs,
    inv c -> kept c hs -> run ms c = Some c' -> exists hs', kept c' hs'.
Proof.
  induction ms as [|m ms IH]; simpl; intros c c' hs Hinv Hkept Hrun.
  - injection Hrun as <-. exists hs. exact Hkept.
  - destruct (step (who m) (answer m) c) as [c1|] eqn:Hstep; [|discriminate].
    pose proof (step_inv _ _ _ _ Hinv Hstep) as Hinv1.
    unfold step in Hstep. destruct (process c); try discriminate.
    destruct (threads c !! who m) as [[r [pc|]]|] eqn:Hlook; try discriminate.
    destruct (step_kept (who m) r pc c hs Hinv Hkept Hlook _ _ Hstep) as [hs1 Hkept1].
    exact (IH c1 c' hs1 Hinv1 Hkept1 Hrun).
Qed.

Lemma reachable_kept (input : string) (c : config) :
  reachable input c -> exists hs, kept c hs.
Proof.
  intros [ms Hrun].
  exact (run_kept ms _ _ _ (initial_inv input) (initial_kept input) Hrun).
Qed.

(** What one call changes. *)
Lemma exec_effect (t : tid) (r : option routine) (p : prog) (a : Z) (c c' : config) :
  exec t r p a c = Some c' ->
  (alarm_list c' = alarm_list c \/
   exists l k, p = WriteList l k /\ alarm_list c' = l) /\
  (alarm_done c' = alarm_done c \/
   exists v k, p = WriteDone v k /\ alarm_done c' = v) /\
  (length (threads c) <= length (threads c'))%nat /\
  ((stdin c' = stdin c /\ lines_read (log c') = lines_read (log c)) \/
   exists k line, p = Fgets k /\ fgets line_size (stdin c) = Some (line, stdin c') /\
                  lines_read (log c') = lines_read (log c) ++ [line]) /\
  (forall t' th, t' <> t -> threads c !! t' = Some th -> threads c' !! t' = Some th) /\
  (exists evs, log c' = log c ++ evs /\
     forall t' rep, In (t', EvPrintf rep) evs -> t' = t /\ exists k, p = Printf rep k) /\
  (threads c' = threads c \/
   exists st news,
     threads c' = <[t := mk_thread r st]> (threads c ++ news) /\
     Forall (fun th => state th = Running Again) news).
Proof.
  intros Hexec. unfold lines_read.
  assert (Hmoved : forall st,
             <[t := mk_thread r st]> (threads c) = threads c \/
             exists st' news,
               <[t := mk_thread r st]> (threads c)
                 = <[t := mk_thread r st']> (threads c ++ news) /\
               Forall (fun th => state th = Running Again) news)
    by (intros st; right; exists st, []; rewrite app_nil_r; split;
        [reflexivity | constructor]).
  assert (Hstarted : forall st y,
             <[t := mk_thread r st]> (threads c ++ [new_thread y]) = threads c \/
             exists st' news,
               <[t := mk_thread r st]> (threads c ++ [new_thread y])
                 = <[t := mk_thread r st']> (threads c ++ news) /\
               Forall (fun th => state th = Running Again) news)
    by (intros st y; right; exists st, [new_thread y]; split;
        [reflexivity | repeat constructor]).
  assert (Hother : forall (ths : list thread) x t' th,
             t' <> t -> ths !! t' = Some th -> <[t := x]> ths !! t' = Some th)
    by (intros ths x t' th Hne Hth; rewrite list_lookup_insert_ne by congruence;
        exact Hth).
  assert (Hnew : forall (ths : list thread) x y t' th,
             t' <> t -> ths !! t' = Some th -> <[t := x]> (ths ++ [y]) !! t' = Some th)
    by (intros ths x y t' th Hne Hth; apply Hother; [exact Hne|];
        apply lookup_app_l_Some; exact Hth).
  assert (Hsame : forall l : list (tid * event),
             exists evs, l = l ++ evs /\
               forall t' rep, In (t', EvPrintf rep) evs ->
                              t' = t /\ exists k, p = Printf rep k)
    by (intros l; exists []; split; [symmetry; apply app_nil_r | intros ? ? []]).
  assert (Hone : forall (l : list (tid * event)) e,
             (forall rep, e = EvPrintf rep -> exists k, p = Printf rep k) ->
             exists evs, l ++ [(t, e)] = l ++ evs /\
               forall t' rep, In (t', EvPrintf rep) evs ->
                              t' = t /\ exists k, p = Printf rep k).
  { intros l e He. exists [(t, e)]. split; [reflexivity|].
    intros t' rep [Hin|[]]. injection Hin as <- Heq. split; [reflexivity|].
    apply He. exact Heq. }
  destruct p; simpl in Hexec;
    try (injection Hexec as <-; simpl; rewrite ?length_insert, ?length_app, ?omap_app;
         simpl; rewrite ?app_nil_r;
         repeat split; first [lia | left; split; reflexivity | left; reflexivity
                             | right; eauto; fail | apply Hother | apply Hmoved | apply Hstarted | apply Hsame
                             | apply Hone; intros ? [=]; subst; eauto | auto]).
  - destruct (alarm_mutex c); [discriminate|].
    injection Hexec as <-; simpl; rewrite ?length_insert, ?omap_app;
      simpl; rewrite ?app_nil_r;
      repeat split; first [lia | left; split; reflexivity | left; reflexivity
                          | right; eauto; fail | apply Hother | apply Hmoved | apply Hstarted | apply Hsame
                          | apply Hone; intros ? [=] | auto].
  - destruct (holds t c); injection Hexec as <-; simpl;
      rewrite ?length_insert, ?omap_app; simpl; rewrite ?app_nil_r;
      repeat split; first [lia | left; split; reflexivity | left; reflexivity
                          | right; eauto; fail | apply Hother | apply Hmoved | apply Hstarted | apply Hsame
                          | apply Hone; intros ? [=] | auto].
  - destruct (fgets line_size (stdin c)) as [[line rest]|] eqn:Hline;
      injection Hexec as <-; simpl; rewrite ?length_insert, ?omap_app;
      simpl; rewrite ?app_nil_r;
      repeat split; first [lia | left; split; reflexivity | left; reflexivity
                          | right; eauto; fail | apply Hother | apply Hmoved | apply Hstarted | apply Hsame
                          | apply Hone; intros ? [=] | auto].
  - destruct (a =? 0); injection Hexec as <-; simpl;
      rewrite ?length_insert, ?length_app, ?omap_app; simpl; rewrite ?app_nil_r;
      repeat split; first [lia | left; split; reflexivity | left; reflexivity
                          | right; eauto; fail | apply Hother | apply Hmoved | apply Hstarted | apply Hnew | apply Hsame
                          | apply Hone; intros ? [=] | auto].
Qed.

(** One step: the list changes by an insertion of [main] while the flag
    is not set or by the dispatcher unlinking its head, the flag only by
    [main] setting it, and the pool of threads only grows. *)
Lemma step_changes (t : tid) (a : Z) (c c' : config) (hs : hands) :
  inv c -> kept c hs -> step t a c = Some c' ->
  (alarm_list c' = alarm_list c \/
   (t = 0%nat /\ alarm_done c = 0 /\
    exists alarm, alarm_list c' = insert alarm (alarm_list c)) \/
   (t = 1%nat /\ exists a0, alarm_list c = a0 :: alarm_list c')) /\
  (alarm_done c' = alarm_done c \/ (t = 0%nat /\ alarm_done c' = 1)) /\
  (length (threads c) <= length (threads c'))%nat.
Proof.
  intros Hinv Hkept Hstep. unfold step in Hstep.
  destruct (process c); try discriminate.
  destruct (threads c !! t) as [[r [pc|]]|] eqn:Hlook; try discriminate.
  destruct (exec_effect _ _ _ _ _ _ Hstep) as (Hlist & Hdone & Hlen & _).
  pose proof (stepping_role t r _ c Hinv Hlook) as Hrole.
  pose proof (fetch_locked t r pc c Hinv Hlook) as Hlocked.
  destruct (fetch_traced t r pc c hs Hinv Hkept Hlook) as (cur & seen & Htr & _ & Hcur).
  split; [|split; [|exact Hlen]].
  - destruct Hlist as [Hlist|(l & k & Hp & Hlist)]; [left; exact Hlist|].
    right. rewrite Hp in Htr. simpl in Htr.
    destruct r as [[|alarm]|]; [| contradiction |].
    + right. split; [apply role_at_dispatcher, Hrole|].
      destruct Htr as (a0 & Hl & _). destruct (Hcur _ Hl) as [Hc _].
      exists a0. rewrite Hc, Hlist. reflexivity.
    + left. split; [apply role_at_main, Hrole|].
      destruct Htr as (l0 & alarm & Hl & _ & -> & _). destruct (Hcur _ Hl) as [Hc _].
      split; [|exists alarm; rewrite Hc, Hlist; reflexivity].
      destruct (inv_done c Hinv) as [Hd|Hd]; [exact Hd|].
      rewrite (fetch_after_flag t None pc c Hinv Hlook eq_refl Hd) in Hp. discriminate Hp.
  - destruct Hdone as [Hdone|(v & k & Hp & Hdone)]; [left; exact Hdone|].
    right. rewrite Hp in Hlocked. destruct Hlocked as [-> ->].
    split; [apply role_at_main, Hrole | exact Hdone].
Qed.

(** Once the flag is set it stays set, and the list only loses records,
    from its head. *)
Lemma run_after_flag (ms : list move) :
  forall c c' hs,
    inv c -> kept c hs -> alarm_done c = 1 -> run ms c = Some c' ->
    alarm_done c' = 1 /\ exists taken, alarm_list c = taken ++ alarm_list c'.
Proof.
  induction ms as [|m ms IH]; simpl; intros c c' hs Hinv Hkept Hflag Hrun.
  - injection Hrun as <-. split; [exact Hflag|]. exists []. reflexivity.
  - destruct (step (who m) (answer m) c) as [c1|] eqn:Hstep; [|discriminate].
    pose proof (step_inv _ _ _ _ Hinv Hstep) as Hinv1.
    destruct (run_kept [m] c c1 hs Hinv Hkept) as [hs1 Hkept1];
      [simpl; rewrite Hstep; reflexivity|].
    destruct (step_changes _ _ _ _ _ Hinv Hkept Hstep) as (Hlist & Hdone & _).
    assert (Hflag1 : alarm_done c1 = 1) by (destruct Hdone as [->|[_ ->]]; auto).
    destruct (IH c1 c' hs1 Hinv1 Hkept1 Hflag1 Hrun) as (Hflag' & taken & Htaken).
    split; [exact Hflag'|].
    destruct Hlist as [Hlist|[(_ & Hzero & _)|(_ & a0 & Hlist)]].
    + exists taken. congruence.
    + lia.
    + exists (a0 :: taken). rewrite Hlist, Htaken. reflexivity.
Qed.

(** ** How the list and the flag change *)

(** X16. How the shared variables change. One call of one thread leaves the
    list as it is, or is [main], the flag not yet set, writing the list
    with one record inserted, or is the dispatcher writing the list
    without its head. The flag is left as it is or set to 1 by [main];
    no thread leaves the pool. *)
Theorem list_changes (input : string) (c : config) (t : tid) (a : Z) (c' : config) :
  reachable input c -> step t a c = Some c' ->
  (alarm_list c' = alarm_list c \/
   (t = 0%nat /\ alarm_done c = 0 /\
    exists alarm, alarm_list c' = insert alarm (alarm_list c)) \/
   (t = 1%nat /\ exists a0, alarm_list c = a0 :: alarm_list c')) /\
  (alarm_done c' = alarm_done c \/ (t = 0%nat /\ alarm_done c' = 1)) /\
  (length (threads c) <= length (threads c'))%nat.
Proof.
  intros Hreach Hstep. destruct (reachable_kept input c Hreach) as [hs Hkept].
  exact (step_changes t a c c' hs (reachable_inv input c Hreach) Hkept Hstep).
Qed.

Lemma list_changes_witness :
  exists c',
    step 0%nat 0 writing_config = Some c' /\
    (alarm_list c' = alarm_list writing_config \/
     (0%nat = 0%nat /\ alarm_done writing_config = 0 /\
      exists alarm, alarm_list c' = insert alarm (alarm_list writing_config)) \/
     (0%nat = 1%nat /\ exists a0, alarm_list writing_config = a0 :: alarm_list c')).
Proof.
  assert (H : reachable two_requests writing_config)
    by (exists (moves 0%nat (repeat 0 9)); vm_compute; reflexivity).
  destruct (step 0%nat 0 writing_config) as [c'|] eqn:Hstep;
    [|vm_compute in Hstep; discriminate Hstep].
  exists c'. split; [reflexivity|].
  exact (proj1 (list_changes two_requests writing_config 0%nat 0 c' H Hstep)).
Defined.

(** X17. After the end of the input. Once the flag is set it stays set, and
    no record is queued any more: whatever the threads do, the list they
    reach is what is left of the list after some records were taken from
    its head. *)
Theorem after_end_of_input (input : string) (c : config) (ms : list move)
    (c' : config) :
  reachable input c -> alarm_done c = 1 -> run ms c = Some c' ->
  alarm_done c' = 1 /\ exists taken, alarm_list c = taken ++ alarm_list c'.
Proof.
  intros Hreach Hflag Hrun. destruct (reachable_kept input c Hreach) as [hs Hkept].
  exact (run_after_flag ms c c' hs (reachable_inv input c Hreach) Hkept Hflag Hrun).
Qed.

Lemma after_end_of_input_witness :
  exists c',
    run (moves 1%nat (repeat 0 7)) flagged_config = Some c' /\
    alarm_done c' = 1 /\ exists taken, alarm_list flagged_config = taken ++ alarm_list c'.
Proof.
  assert (H : reachable two_requests flagged_config)
    by (exists (two_queued ++ moves 0%nat (repeat 0 3)); vm_compute; reflexivity).
  destruct (run (moves 1%nat (repeat 0 7)) flagged_config) as [c'|] eqn:Hrun;
    [|vm_compute in Hrun; discriminate Hrun].
  exists c'. split; [reflexivity|].
  exact (after_end_of_input two_requests flagged_config _ c' H eq_refl Hrun).
Defined.

(** X18. How the threads end. In every configuration the program can
    reach: if [main] has exited the flag is set; if the dispatcher has
    exited the flag is set and the list is empty, and both stay so
    whatever the other threads do: the dispatcher leaves no record
    behind. *)
Theorem threads_end (input : string) (c : config) :
  reachable input c ->
  (exited c 0%nat -> alarm_done c = 1) /\
  (exited c 1%nat ->
   alarm_list c = [] /\ alarm_done c = 1 /\
   forall ms c', run ms c = Some c' -> alarm_list c' = [] /\ alarm_done c' = 1).
Proof.
  intros Hreach. pose proof (reachable_inv input c Hreach) as Hinv.
  destruct (reachable_kept input c Hreach) as [hs Hkept].
  split.
  - intros [r Hlook].
    pose proof (stepping_role _ _ _ _ Hinv Hlook) as Hrole. simpl in Hrole. subst r.
    destruct (kept_threads c hs Hkept _ _ Hlook) as [_ Hdone]. exact Hdone.
  - intros [r Hlook].
    pose proof (stepping_role _ _ _ _ Hinv Hlook) as Hrole. simpl in Hrole. subst r.
    destruct (kept_threads c hs Hkept _ _ Hlook) as [_ [Hlist Hdone]].
    split; [exact Hlist|]. split; [exact Hdone|]. intros ms c' Hrun.
    destruct (run_after_flag ms c c' hs Hinv Hkept Hdone Hrun) as (Hdone' & taken & Htaken).
    split; [|exact Hdone']. rewrite Hlist in Htaken.
    symmetry in Htaken. apply app_eq_nil in Htaken. apply Htaken.
Qed.

Lemma threads_end_witness :
  alarm_list finished_config = [] /\ alarm_done finished_config = 1.
Proof.
  assert (H : reachable "" finished_config)
    by (exists finished_schedule; vm_compute; reflexivity).
  destruct (proj2 (threads_end "" finished_config H)) as (Hlist & Hdone & _).
  - exists (Some AlarmThread). reflexivity.
  - split; assumption.
Defined.

(** ** The reports *)

Lemma received_app (l1 l2 : list (tid * event)) (x : Z * string) :
  In x (received l1) -> In x (received (l1 ++ l2)).
Proof. unfold received. rewrite omap_app, in_app_iff. auto. Qed.

Lemma step_retrieved (t : tid) (a : Z) (c c' : config) (hs : hands) :
  inv c -> kept c hs -> retrieved_ok c -> step t a c = Some c' -> retrieved_ok c'.
Proof.
  intros Hinv Hkept Hok Hstep. unfold step in Hstep.
  destruct (process c); try discriminate.
  destruct (threads c !! t) as [[r [pc|]]|] eqn:Hlook; try discriminate.
  destruct (exec_effect _ _ _ _ _ _ Hstep)
    as (_ & _ & _ & _ & _ & (evs & Hlog & Hevs) & _).
  intros t' now expires msg Hin. rewrite Hlog in *.
  apply in_app_iff in Hin as [Hin|Hin]; apply received_app.
  - exact (Hok t' now expires msg Hin).
  - destruct (Hevs _ _ Hin) as (-> & k & Hp).
    destruct (fetch_traced t r pc c hs Hinv Hkept Hlook) as (cur & seen & Htr & _ & Hcur).
    rewrite Hp in Htr. simpl in Htr.
    destruct Htr as (_ & (a0 & l & Hl & -> & ->) & _).
    destruct (Hcur _ Hl) as [Hlist _].
    eapply Permutation_in; [symmetry; apply (kept_records c hs Hkept)|].
    rewrite Hlist. change (time a0, message a0) with (shown a0).
    apply in_map. left. reflexivity.
Qed.

Lemma run_retrieved (ms : list move) :
  forall c c' hs,
    inv c -> kept c hs -> retrieved_ok c -> run ms c = Some c' -> retrieved_ok c'.
Proof.
  induction ms as [|m ms IH]; simpl; intros c c' hs Hinv Hkept Hok Hrun.
  - injection Hrun as <-. exact Hok.
  - destruct (step (who m) (answer m) c) as [c1|] eqn:Hstep; [|discriminate].
    pose proof (step_inv _ _ _ _ Hinv Hstep) as Hinv1.
    destruct (run_kept [m] c c1 hs Hinv Hkept) as [hs1 Hkept1];
      [simpl; rewrite Hstep; reflexivity|].
    exact (IH c1 c' hs1 Hinv1 Hkept1 (step_retrieved _ _ _ _ _ Hinv Hkept Hok Hstep) Hrun).
Qed.

Lemma reachable_retrieved (input : string) (c : config) :
  reachable input c -> retrieved_ok c.
Proof.
  intros [ms Hrun].
  apply (run_retrieved ms _ _ _ (initial_inv input) (initial_kept input)); [|exact Hrun].
  intros t now expires msg [].
Qed.

(** X19. What the reports say is true. In every configuration the program
    can reach within the limits of the [message] array and of [%d] (no
    request so far with a message of 64 characters, no time printed that
    does not fit an [int]), of every line printed so far: the prompt, the
    diagnostic
    and the receipts were printed by [main], the retrievals by the
    dispatcher, each for a request whose receipt was printed with the
    same time and message; a tick or an expiry was printed by an
    [individual_alarm_thread] and shows the time and the message of its
    own record, for which a receipt with the same time and message was
    printed; and an expiry shows a time read that is not before the time
    of the record. *)
Theorem reports_true (input : string) (c : config) (t : tid) (rep : report) :
  reachable input c -> within_limits (log c) = true ->
  In (t, EvPrintf rep) (log c) ->
  match rep with
  | Prompt | BadCommand | Received _ _ _ => t = 0%nat
  | Retrieved _ expires msg => t = 1%nat /\ In (expires, msg) (received (log c))
  | Tick expires msg =>
      (exists a st,
         threads c !! t = Some (mk_thread (Some (IndividualAlarmThread a)) st) /\
         expires = time a /\ msg = message a) /\
      In (expires, msg) (received (log c))
  | Expired now expires msg =>
      (exists a st,
         threads c !! t = Some (mk_thread (Some (IndividualAlarmThread a)) st) /\
         expires = time a /\ msg = message a) /\
      In (expires, msg) (received (log c)) /\
      expires <= now
  end.
Proof.
  intros Hreach _ Hin. pose proof (reachable_inv input c Hreach) as Hinv.
  destruct (reachable_kept input c Hreach) as [hs Hkept].
  destruct (kept_reports c hs Hkept t rep Hin) as ([r st] & Hlook & Hok).
  pose proof (stepping_role _ _ _ _ Hinv Hlook) as Hrole. simpl in Hok.
  assert (Hserved : forall a, r = Some (IndividualAlarmThread a) ->
            In (shown a) (received (log c))).
  { intros a ->. eapply Permutation_in; [symmetry; apply (kept_records c hs Hkept)|].
    apply in_map. apply in_app_iff. right. apply in_app_iff. left.
    unfold worker_records. apply list_elem_of_In. apply list_elem_of_omap.
    exists (mk_thread (Some (IndividualAlarmThread a)) st). split; [|reflexivity].
    eapply list_elem_of_lookup_2. exact Hlook. }
  destruct rep as [| |now expires msg|now expires msg|expires msg|now expires msg];
    simpl in Hok; try (subst r; apply role_at_main, Hrole).
  - subst r. split; [apply role_at_dispatcher, Hrole|].
    exact (reachable_retrieved input c Hreach t now expires msg Hin).
  - destruct Hok as (a & -> & -> & ->). split; [exists a, st; auto|].
    apply (Hserved a eq_refl).
  - destruct Hok as (a & -> & -> & -> & Hdue). split; [exists a, st; auto|].
    split; [apply (Hserved a eq_refl) | exact Hdue].
Qed.

Lemma reports_true_witness :
  within_limits (log expired_config) = true /\
  In (3, "second"%string) (received (log expired_config)) /\ 3 <= 3.
Proof.
  split; [reflexivity|].
  assert (H : reachable two_requests expired_config)
    by (exists expired_schedule; vm_compute; reflexivity).
  assert (Hin : In (2%nat, EvPrintf (Expired 3 3 "second")) (log expired_config))
    by (vm_compute; tauto).
  exact (proj2 (reports_true two_requests expired_config 2%nat
                  (Expired 3 3 "second") H eq_refl Hin)).
Defined.

(** ** No request is lost *)

(** X20. Every request received is somewhere, once. In every configuration
    the program can reach within the limits of the [message] array and of
    [%d] (no request so far with a message of 64 characters, no time
    printed that does not fit an [int]), the receipts printed so far
    show, one for one,
    the records in the list, the records given to an
    [individual_alarm_thread], and the records in the hands of [main] or
    the dispatcher; and nothing is in their hands when each of them is at
    the top of its loop, has exited, or has not been started. *)
Theorem no_request_lost (input : string) (c : config) :
  reachable input c -> within_limits (log c) = true ->
  exists transit,
    Permutation (received (log c))
                (map shown (alarm_list c ++ worker_records (threads c) ++ transit)) /\
    (quiet c 0%nat -> quiet c 1%nat -> transit = []).
Proof.
  intros Hreach _. pose proof (reachable_inv input c Hreach) as Hinv.
  destruct (reachable_kept input c Hreach) as [hs Hkept].
  exists (fst hs ++ snd hs). split; [apply (kept_records c hs Hkept)|].
  assert (Hquiet : forall t, quiet c t -> (t < length (threads c))%nat ->
            hand_at hs t = []).
  { intros t Hq Hlt. unfold quiet in Hq.
    destruct (lookup_lt_is_Some_2 _ _ Hlt) as [[r st] Hlook]. rewrite Hlook in Hq.
    pose proof (kept_threads c hs Hkept t _ Hlook) as Htr. unfold thread_traced in Htr.
    simpl in Htr. destruct st as [pc|].
    - destruct pc; try contradiction. destruct Htr as (cur & seen & Hh & _). exact Hh.
    - apply Htr. }
  intros Hmain Hdispatcher.
  assert (Hfirst : (0 < length (threads c))%nat).
  { destruct Hreach as [ms Hrun]. clear -Hrun.
    assert (Hgrow : forall ms c c', run ms c = Some c' ->
              (length (threads c) <= length (threads c'))%nat).
    { clear. induction ms as [|m ms IH]; simpl; intros c c' Hrun.
      - injection Hrun as <-. lia.
      - destruct (step (who m) (answer m) c) as [c1|] eqn:Hstep; [|discriminate].
        specialize (IH _ _ Hrun). unfold step in Hstep.
        destruct (process c); try discriminate.
        destruct (threads c !! who m) as [[r [pc|]]|]; try discriminate.
        destruct (exec_effect _ _ _ _ _ _ Hstep) as (_ & _ & Hlen & _). lia. }
    specialize (Hgrow _ _ _ Hrun). simpl in Hgrow. lia. }
  rewrite (Hquiet 0%nat Hmain Hfirst : fst hs = []).
  destruct (decide (length (threads c) <= 1)%nat) as [Hone|Hmore].
  - rewrite (kept_single c hs Hkept Hone). reflexivity.
  - rewrite (Hquiet 1%nat Hdispatcher ltac:(lia) : snd hs = []). reflexivity.
Qed.

Lemma no_request_lost_witness :
  within_limits (log worker_config) = true /\
  Permutation (received (log worker_config))
              (map shown (alarm_list worker_config ++
                          worker_records (threads worker_config))).
Proof.
  split; [reflexivity|].
  assert (H : reachable two_requests worker_config)
    by (exists (two_queued ++ moves 1%nat (repeat 0 7)); vm_compute; reflexivity).
  destruct (no_request_lost two_requests worker_config H eq_refl)
    as (transit & Hperm & Hquiet).
  rewrite (Hquiet I I), app_nil_r in Hperm. exact Hperm.
Defined.

(** ** The input *)

Lemma fgets_split (input line rest : string) :
  fgets line_size input = Some (line, rest) -> input = (line ++ rest)%string.
Proof.
  unfold fgets. destruct input as [|x input]; [discriminate|].
  intros H.
  assert (H' : fgets_chars (line_size - 1) (String x input) = (line, rest))
    by congruence.
  apply fgets_chars_spec in H'. apply H'.
Qed.

Lemma typed_snoc (l : list string) (line : string) :
  fold_right String.append ""%string (l ++ [line]) =
    (fold_right String.append ""%string l ++ line)%string.
Proof.
  induction l as [|x l IH]; simpl.
  - apply append_empty_r.
  - rewrite IH. symmetry. apply append_assoc.
Qed.

Lemma run_typed (ms : list move) :
  forall c c', run ms c = Some c' ->
               (typed (log c') ++ stdin c' = typed (log c) ++ stdin c)%string.
Proof.
  induction ms as [|m ms IH]; simpl; intros c c' Hrun.
  - injection Hrun as <-. reflexivity.
  - destruct (step (who m) (answer m) c) as [c1|] eqn:Hstep; [|discriminate].
    rewrite (IH _ _ Hrun). unfold step in Hstep.
    destruct (process c); try discriminate.
    destruct (threads c !! who m) as [[r [pc|]]|]; try discriminate.
    destruct (exec_effect _ _ _ _ _ _ Hstep) as (_ & _ & _ & Hin).
    unfold typed. destruct Hin as [[[-> ->]|(k & line & _ & Hline & ->)] _]; [reflexivity|].
    rewrite typed_snoc, append_assoc. rewrite <- (fgets_split _ _ _ Hline). reflexivity.
Qed.

(** X21. The input is read once, in order. In every configuration the
    program can reach, the lines [fgets] has returned so far, one after
    the other, followed by the input not yet read, are the input: no
    character is skipped, read twice or moved. *)
Theorem input_in_order (input : string) (c : config) :
  reachable input c -> input = (typed (log c) ++ stdin c)%string.
Proof.
  intros [ms Hrun]. symmetry. exact (run_typed ms _ _ Hrun).
Qed.

Lemma input_in_order_witness :
  two_requests = (typed (log worker_config) ++ stdin worker_config)%string.
Proof.
  apply (input_in_order two_requests worker_config).
  exists (two_queued ++ moves 1%nat (repeat 0 7)). vm_compute. reflexivity.
Defined.

(** ** One expiry for each worker *)

Lemma omap_cons {A B : Type} (f : A -> option B) (z : A) (l : list A) :
  omap f (z :: l) = match f z with
                    | Some b => b :: omap f l
                    | None => omap f l
                    end.
Proof. reflexivity. Qed.

Lemma omap_insert_same {A B : Type} (f : A -> option B) (l : list A) (i : nat)
    (x y : A) :
  l !! i = Some y -> f x = f y -> omap f (<[i := x]> l) = omap f l.
Proof.
  revert i. induction l as [|z l IH]; intros [|i] Hi Hf; try discriminate Hi.
  - injection Hi as ->. change (<[0%nat := x]> (y :: l)) with (x :: l).
    rewrite !omap_cons, Hf. reflexivity.
  - change (<[S i := x]> (z :: l)) with (z :: <[i := x]> l).
    rewrite !omap_cons, (IH i Hi Hf). reflexivity.
Qed.

Lemma omap_insert_new {A B : Type} (f : A -> option B) (l : list A) (i : nat)
    (x y : A) (b : B) :
  l !! i = Some y -> f y = None -> f x = Some b ->
  Permutation (omap f (<[i := x]> l)) (b :: omap f l).
Proof.
  revert i. induction l as [|z l IH]; intros [|i] Hi Hy Hx; try discriminate Hi.
  - injection Hi as ->. change (<[0%nat := x]> (y :: l)) with (x :: l).
    rewrite !omap_cons, Hx, Hy. reflexivity.
  - change (<[S i := x]> (z :: l)) with (z :: <[i := x]> l).
    rewrite !omap_cons. destruct (f z) as [bz|].
    + rewrite (IH i Hi Hy Hx). apply perm_swap.
    + exact (IH i Hi Hy Hx).
Qed.

Lemma omap_none {A B : Type} (f : A -> option B) (l : list A) :
  Forall (fun x => f x = None) l -> omap f l = [].
Proof.
  induction 1 as [|x l Hx _ IH]; [reflexivity|]. rewrite omap_cons, Hx. exact IH.
Qed.

Lemma expired_snoc (l : list (tid * event)) (t : tid) (e : event) :
  expired (l ++ [(t, e)]) =
    expired l ++ match e with
                 | EvPrintf (Expired _ expires msg) => [(expires, msg)]
                 | _ => []
                 end.
Proof.
  unfold expired. rewrite omap_app. f_equal. simpl.
  destruct e; try reflexivity. destruct r; reflexivity.
Qed.

(** A call of a worker. *)
Lemma worker_step_firing (t : tid) (alarm : alarm_t) (pc : prog) (a : Z)
    (c c' : config) :
  firing c ->
  threads c !! t = Some (mk_thread (Some (IndividualAlarmThread alarm)) (Running pc)) ->
  exec t (Some (IndividualAlarmThread alarm))
       (fetch (Some (IndividualAlarmThread alarm)) pc) a c = Some c' ->
  firing c'.
Proof.
  intros [Hplaces Hexpired] Hlook Hexec.
  assert (Ht : (t < length (threads c))%nat) by (eapply lookup_lt_Some; exact Hlook).
  assert (Hgo : forall st e,
             match st with
             | Running pc' => worker_at alarm pc'
             | Exited => True
             end ->
             Permutation
               (expired (log c ++ [(t, e)]))
               (map shown (omap fired
                  (<[t := mk_thread (Some (IndividualAlarmThread alarm)) st]> (threads c)))) ->
             firing (moved t (Some (IndividualAlarmThread alarm)) st e c)).
  { intros st e Hst Hperm. constructor.
    - intros t' a' pc' Hl. cbn [moved add_log set_threads threads] in Hl.
      destruct (decide (t' = t)) as [->|Hne].
      + rewrite list_lookup_insert_eq in Hl by exact Ht. injection Hl as <- ->. exact Hst.
      + rewrite list_lookup_insert_ne in Hl by congruence. exact (Hplaces _ _ _ Hl).
    - exact Hperm. }
  assert (Hquiet : forall st e,
             fired (mk_thread (Some (IndividualAlarmThread alarm)) st)
               = fired (mk_thread (Some (IndividualAlarmThread alarm)) (Running pc)) ->
             match e with
             | EvPrintf (Expired _ _ _) => False
             | _ => True
             end ->
             Permutation
               (expired (log c ++ [(t, e)]))
               (map shown (omap fired
                  (<[t := mk_thread (Some (IndividualAlarmThread alarm)) st]> (threads c))))).
  { intros st e Hf He. rewrite expired_snoc.
    rewrite (omap_insert_same fired _ _ _ _ Hlook Hf).
    replace (match e with
             | EvPrintf (Expired _ expires msg) => [(expires, msg)]
             | _ => []
             end) with (@nil (Z * string)).
    - rewrite app_nil_r. exact Hexpired.
    - destruct e; try reflexivity. destruct r; try reflexivity. contradiction. }
  destruct (Hplaces _ _ _ Hlook); simpl in Hexec; injection Hexec as <-.
  - (* the time is read *)
    apply Hgo; [|apply Hquiet; [|exact I]].
    + destruct (time alarm <=? a); constructor.
    + destruct (time alarm <=? a); reflexivity.
  - apply Hgo; [constructor | apply Hquiet; [reflexivity | exact I]].
  - apply Hgo; [constructor | apply Hquiet; [reflexivity | exact I]].
  - (* the expiry is reported *)
    apply Hgo; [constructor|]. rewrite expired_snoc.
    rewrite (omap_insert_new fired _ _
               (mk_thread (Some (IndividualAlarmThread alarm)) (Running (Free PthreadExit)))
               _ alarm Hlook eq_refl eq_refl).
    cbn [map]. rewrite <- Hexpired. symmetry. apply Permutation_cons_append.
  - apply Hgo; [constructor | apply Hquiet; [reflexivity | exact I]].
  - apply Hgo; [exact I | apply Hquiet; [reflexivity | exact I]].
Qed.

Lemma step_firing (t : tid) (a : Z) (c c' : config) (hs : hands) :
  inv c -> kept c hs -> firing c -> step t a c = Some c' -> firing c'.
Proof.
  intros Hinv Hkept Hfiring Hstep. unfold step in Hstep.
  destruct (process c); try discriminate.
  destruct (threads c !! t) as [[r [pc|]]|] eqn:Hlook; try discriminate.
  destruct r as [[|alarm]|];
    [ | exact (worker_step_firing t alarm pc a c c' Hfiring Hlook Hstep) | ].
  all: destruct Hfiring as [Hplaces Hexpired];
    destruct (exec_effect _ _ _ _ _ _ Hstep)
      as (_ & _ & _ & _ & Hothers & (evs & Hlog & Hevs) & Hshape);
    destruct (fetch_traced t _ pc c hs Hinv Hkept Hlook) as (cur & seen & Htr & _);
    assert (Hnone : expired evs = [])
      by (apply omap_none, List.Forall_forall; intros [t' e] Hin;
          destruct e; try reflexivity; destruct r; try reflexivity;
          destruct (Hevs _ _ Hin) as (_ & k & Hp); rewrite Hp in Htr;
          simpl in Htr; destruct Htr as [(a0 & Hr & _) _]; discriminate Hr);
    constructor;
    [ intros t' a' pc' Hl;
      destruct Hshape as [Hsame|(st & news & Hths & Hnews)];
      [ rewrite Hsame in Hl; exact (Hplaces _ _ _ Hl) |];
      rewrite Hths in Hl;
      destruct (decide (t' = t)) as [->|Hne];
      [ rewrite list_lookup_insert_eq in Hl
          by (rewrite length_app; apply lookup_lt_Some in Hlook; lia);
        discriminate Hl |];
      rewrite list_lookup_insert_ne in Hl by congruence;
      apply lookup_app_Some in Hl as [Hl|[_ Hl]];
      [ exact (Hplaces _ _ _ Hl) |];
      rewrite List.Forall_forall in Hnews;
      apply list_elem_of_lookup_2, list_elem_of_In, Hnews in Hl;
      simpl in Hl; injection Hl as ->; apply w_top
    | rewrite Hlog; unfold expired in *; rewrite omap_app, Hnone, app_nil_r;
      destruct Hshape as [->|(st & news & -> & Hnews)]; [exact Hexpired|];
      erewrite omap_insert_same;
        [ | apply lookup_app_l_Some; exact Hlook | reflexivity ];
      rewrite omap_app, (omap_none fired news), app_nil_r; [exact Hexpired|];
      eapply List.Forall_impl; [|exact Hnews];
      intros [r' st'] Hst; simpl in Hst; subst st'; unfold fired; simpl;
      destruct r' as [[|?]|]; reflexivity ].
Qed.

Lemma run_firing (ms : list move) :
  forall c c' hs,
    inv c -> kept c hs -> firing c -> run ms c = Some c' -> firing c'.
Proof.
  induction ms as [|m ms IH]; simpl; intros c c' hs Hinv Hkept Hf Hrun.
  - injection Hrun as <-. exact Hf.
  - destruct (step (who m) (answer m) c) as [c1|] eqn:Hstep; [|discriminate].
    pose proof (step_inv _ _ _ _ Hinv Hstep) as Hinv1.
    destruct (run_kept [m] c c1 hs Hinv Hkept) as [hs1 Hkept1];
      [simpl; rewrite Hstep; reflexivity|].
    exact (IH c1 c' hs1 Hinv1 Hkept1 (step_firing _ _ _ _ _ Hinv Hkept Hf Hstep) Hrun).
Qed.

Lemma reachable_firing (input : string) (c : config) : reachable input c -> firing c.
Proof.
  intros [ms Hrun].
  apply (run_firing ms _ _ _ (initial_inv input) (initial_kept input)); [|exact Hrun].
  constructor.
  - intros [|t] a pc H; discriminate H.
  - reflexivity.
Qed.

(** The workers that have fired are among the workers. *)
Lemma fired_among_workers (ths : list thread) :
  exists rest, Permutation (worker_records ths) (omap fired ths ++ rest).
Proof.
  induction ths as [|[r st] ths [rest IH]]; [exists []; reflexivity|].
  unfold worker_records in *. rewrite !omap_cons.
  destruct r as [[|a]|].
  - exists rest. exact IH.
  - destruct st as [pc|]; [destruct pc|]; unfold fired; cbn [started state worker_record];
      first [ exists rest; cbn [app]; rewrite IH; reflexivity
            | exists (a :: rest); rewrite IH; apply Permutation_middle ].
  - exists rest. exact IH.
Qed.

(** X24. Each alarm expires once. In every configuration the program can
    reach within the limits of the [message] array and of [%d] (no
    request so far with a message of 64 characters, no time printed that
    does not fit an [int]), the expiries reported so far are, one for
    one, those of the
    [individual_alarm_thread]s that are past their report (about to free
    the record, about to exit, or gone), each for its own record; so
    every expiry has a receipt of its own, with the same time and
    message, and a thread that has exited has reported its expiry. *)
Theorem expiries_once (input : string) (c : config) :
  reachable input c -> within_limits (log c) = true ->
  Permutation (expired (log c)) (map shown (omap fired (threads c))) /\
  (exists rest, Permutation (received (log c)) (expired (log c) ++ rest)) /\
  (forall t a,
     threads c !! t = Some (mk_thread (Some (IndividualAlarmThread a)) Exited) ->
     In (shown a) (expired (log c))).
Proof.
  intros Hreach _. destruct (reachable_firing input c Hreach) as [_ Hexpired].
  destruct (reachable_kept input c Hreach) as [hs Hkept].
  split; [exact Hexpired|]. split.
  - destruct (fired_among_workers (threads c)) as [rest Hrest].
    exists (map shown (rest ++ alarm_list c ++ fst hs ++ snd hs)).
    rewrite (kept_records c hs Hkept), Hexpired, <- map_app. apply Permutation_map.
    rewrite Hrest. solve_Permutation.
  - intros t a Hlook. eapply Permutation_in; [symmetry; exact Hexpired|].
    apply in_map. apply list_elem_of_In. apply list_elem_of_omap.
    exists (mk_thread (Some (IndividualAlarmThread a)) Exited). split; [|reflexivity].
    eapply list_elem_of_lookup_2. exact Hlook.
Qed.

Lemma expiries_once_witness :
  within_limits (log expired_config) = true /\
  Permutation (expired (log expired_config))
              (map shown (omap fired (threads expired_config))) /\
  exists rest,
    Permutation (received (log expired_config)) (expired (log expired_config) ++ rest).
Proof.
  split; [reflexivity|].
  assert (H : reachable two_requests expired_config)
    by (exists expired_schedule; vm_compute; reflexivity).
  destruct (expiries_once two_requests expired_config H eq_refl) as (Hone & Hrest & _).
  split; assumption.
Defined.

(** ** No thread waits for ever *)

Lemma exec_blocked (t : tid) (r : option routine) (p : prog) (a : Z) (c : config) :
  exec t r p a c = None ->
  exists k o, p = MutexLock k /\ alarm_mutex c = Some o.
Proof.
  destruct p; simpl; try discriminate.
  - destruct (alarm_mutex c) as [o|]; [eauto | discriminate].
  - destruct (holds t c); discriminate.
  - destruct (fgets line_size (stdin c)) as [[line rest]|]; discriminate.
  - destruct (a =? 0); discriminate.
Qed.

(** X22. No deadlock. In every configuration the program can reach, with
    the process alive, a running thread can make its next call, whatever
    the answer to it, unless that call is to lock the mutex and another
    thread holds it; and then that thread is running and can make its
    next call. The mutex the dispatcher takes with it when it exits keeps
    no thread waiting. *)
Theorem no_deadlock (input : string) (c : config) (t : tid) (r : option routine)
    (pc : prog) :
  reachable input c -> process c = Alive ->
  threads c !! t = Some (mk_thread r (Running pc)) ->
  (forall a, exists c', step t a c = Some c') \/
  (exists k o r' pc',
     fetch r pc = MutexLock k /\ alarm_mutex c = Some o /\ o <> t /\
     threads c !! o = Some (mk_thread r' (Running pc')) /\
     forall a, exists c', step o a c = Some c').
Proof.
  intros Hreach Halive Hlook. pose proof (reachable_inv input c Hreach) as Hinv.
  destruct (reachable_kept input c Hreach) as [hs Hkept].
  assert (Hstep : forall t0 r0 pc0 a,
            threads c !! t0 = Some (mk_thread r0 (Running pc0)) ->
            step t0 a c = exec t0 r0 (fetch r0 pc0) a c).
  { intros t0 r0 pc0 a H. unfold step. rewrite Halive, H. reflexivity. }
  destruct (exec t r (fetch r pc) 0 c) as [c0|] eqn:Hfirst.
  - left. intros a. rewrite (Hstep _ _ _ a Hlook).
    destruct (exec t r (fetch r pc) a c) as [c'|] eqn:Hexec; [eauto|].
    destruct (exec_blocked _ _ _ _ _ Hexec) as (k & o & Hp & Hm).
    rewrite Hp in Hfirst. simpl in Hfirst. rewrite Hm in Hfirst. discriminate.
  - right. destruct (exec_blocked _ _ _ _ _ Hfirst) as (k & o & Hp & Hm).
    assert (Hmine : holds t c = false /\ is_worker r = false).
    { destruct (fetch_disciplined t r pc c Hinv Hlook) as [Heq|(seen & Hd)].
      - rewrite Heq in Hp. discriminate Hp.
      - rewrite Hp in Hd. simpl in Hd. tauto. }
    destruct Hmine as [Hfree Hnw].
    assert (Hheld : holds o c = true) by (unfold holds; rewrite Hm; apply Nat.eqb_refl).
    assert (Hne : o <> t) by (intros ->; congruence).
    pose proof (inv_owner c Hinv o Hm) as Hlt.
    destruct (lookup_lt_is_Some_2 _ _ Hlt) as [[r' [pc'|]] Hlook'].
    + exists k, o, r', pc'. repeat (split; [assumption|]).
      intros a. rewrite (Hstep _ _ _ a Hlook').
      destruct (exec o r' (fetch r' pc') a c) as [c'|] eqn:Hexec; [eauto|].
      destruct (exec_blocked _ _ _ _ _ Hexec) as (k' & o' & Hp' & _).
      destruct (fetch_disciplined o r' pc' c Hinv Hlook') as [Heq|(seen & Hd)].
      * rewrite Heq in Hp'. discriminate Hp'.
      * rewrite Hp' in Hd. simpl in Hd. destruct Hd as [Hd _]. congruence.
    + (* the holder has exited: it is the dispatcher, and the input is over *)
      exfalso.
      destruct (inv_threads c Hinv o _ Hlook') as (Hrole' & _ & Hexit). simpl in Hexit.
      rewrite Hheld in Hexit. destruct r' as [[|alarm]|]; try discriminate.
      simpl in Hrole'. apply role_at_dispatcher in Hrole'. subst o.
      destruct (kept_threads c hs Hkept _ _ Hlook') as [_ [_ Hdone]].
      pose proof (stepping_role _ _ _ _ Hinv Hlook) as Hrole.
      assert (Hr : r = None).
      { destruct t as [|[|t]]; simpl in Hrole; [exact Hrole | congruence | congruence]. }
      rewrite (fetch_after_flag t r pc c Hinv Hlook Hr Hdone) in Hp. discriminate Hp.
Qed.

Lemma no_deadlock_witness :
  step 0%nat 0 waiting_config = None /\
  alarm_mutex waiting_config = Some 1%nat /\
  exists c', step 1%nat 0 waiting_config = Some c'.
Proof.
  assert (H : reachable two_requests waiting_config)
    by (exists waiting_schedule; vm_compute; reflexivity).
  split; [reflexivity|]. split; [reflexivity|].
  destruct (threads waiting_config !! 0%nat) as [[r [pc|]]|] eqn:Hlook;
    try (vm_compute in Hlook; discriminate Hlook).
  destruct (no_deadlock two_requests waiting_config 0%nat r pc H eq_refl Hlook)
    as [Hfree|(k & o & r' & pc' & _ & Hm & _ & _ & Hmove)].
  - destruct (Hfree 0) as [c' Hc]. vm_compute in Hc. discriminate Hc.
  - vm_compute in Hm. injection Hm as <-. exact (Hmove 0).
Defined.

(** ** [main] comes to its end *)










(** ** The list under every schedule *)

(** Where [insert] puts a record, spelled out. *)
Lemma insert_place (alarm : alarm_t) (l l' : list alarm_t) :
  l' = insert alarm l ->
  exists pre post,
    l = pre ++ post /\ l' = pre ++ alarm :: post /\
    Forall (fun x => time x < time alarm) pre /\
    match post with
    | [] => True
    | next :: _ => time next >= time alarm
    end.
Proof.
  intros ->. destruct (insert_split alarm l) as (pre & post & Hl & Hins & Hpre & Hpost).
  exists pre, post. auto.
Qed.

(** C1. In every configuration the program can reach, whatever the
    requests, the times read and the schedule, [alarm_list] is sorted by
    [time], neighbour by neighbour. Every call that changes the list is
    [main] writing it with one record linked in, immediately before the
    first record, from the head, whose [time] is [>=] its own, and at the
    tail when there is none; or the dispatcher writing it without its
    head. And [main], at its prompt with the mutex free and a request
    that parses, links the record of that request into the list in this
    way, and the list is sorted again. *)
Theorem registry_sorted (input : string) (c : config) :
  reachable input c ->
  sorted (alarm_list c) /\
  (forall t a c', step t a c = Some c' ->
     sorted (alarm_list c') /\
     (alarm_list c' = alarm_list c \/
      (t = 0%nat /\
       exists alarm pre post,
         alarm_list c = pre ++ post /\ alarm_list c' = pre ++ alarm :: post /\
         Forall (fun x => time x < time alarm) pre /\
         match post with
         | [] => True
         | next :: _ => time next >= time alarm
         end) \/
      (t = 1%nat /\ exists a0, alarm_list c = a0 :: alarm_list c'))) /\
  (forall t line rest secs msg t0 now,
     at_top c t None -> alarm_mutex c = None ->
     fgets line_size (stdin c) = Some (line, rest) ->
     sscanf_alarm line = ScanBoth secs msg ->
     exists c' pre post,
       run_thread t [0; 0; 0; 0; t0; now; 0; 0; 0; 0] c = Some c' /\
       alarm_list c = pre ++ post /\
       alarm_list c' = pre ++ mk_alarm secs (t0 + secs) msg :: post /\
       Forall (fun x => time x < t0 + secs) pre /\
       match post with
       | [] => True
       | next :: _ => time next >= t0 + secs
       end /\
       sorted (alarm_list c')).
Proof.
  intros Hreach. pose proof (reachable_inv input c Hreach) as Hinv.
  destruct (reachable_kept input c Hreach) as [hs Hkept].
  split; [apply Hinv|]. split.
  - intros t a c' Hstep.
    split; [apply (step_inv _ _ _ _ Hinv Hstep)|].
    destruct (step_changes t a c c' hs Hinv Hkept Hstep)
      as ([Hsame|[(Ht & _ & alarm & Hins)|Hpop]] & _).
    + left. exact Hsame.
    + right. left. split; [exact Ht|]. exists alarm. apply insert_place, Hins.
    + right. right. exact Hpop.
  - intros t line rest secs msg t0 now Htop Hfree Hline Hparse.
    destruct (queued_run c t line rest secs msg t0 now Htop Hfree Hline Hparse)
      as (c' & Hrun & Hlist & _).
    destruct (insert_place _ _ _ Hlist) as (pre & post & Hl & Hl' & Hpre & Hpost).
    exists c', pre, post. repeat (split; [assumption|]).
    rewrite Hlist. apply insert_sorted, Hinv.
Qed.

(** [10 first] is queued; then [3 second] is read, and linked in before
    it. *)
Lemma registry_sorted_witness :
  alarm_list queued_config = [mk_alarm 10 10 "first"] /\
  exists c',
    run_thread 0%nat [0; 0; 0; 0; 0; 0; 0; 0; 0; 0] queued_config = Some c' /\
    alarm_list c' = [mk_alarm 3 3 "second"; mk_alarm 10 10 "first"] /\
    sorted (alarm_list c').
Proof.
  assert (H : reachable two_requests queued_config)
    by (exists (moves 0%nat (repeat 0 11)); vm_compute; reflexivity).
  assert (Htop : at_top queued_config 0%nat None) by (split; vm_compute; reflexivity).
  split; [reflexivity|].
  destruct (proj2 (proj2 (registry_sorted two_requests queued_config H))
              0%nat (line_of "3 second") ""%string 3 "second"%string 0 0
              Htop eq_refl eq_refl eq_refl)
    as (c' & pre & post & Hrun & Hl & Hl' & Hpre & _ & Hsorted).
  exists c'. split; [exact Hrun|]. split; [|exact Hsorted].
  change (alarm_list queued_config) with [mk_alarm 10 10 "first"] in Hl.
  destruct pre as [|x pre].
  - simpl in Hl. subst post. exact Hl'.
  - injection Hl as <- _. inversion Hpre as [|? ? Hx _]. simpl in Hx. lia.
Defined.

(** ** Records with equal times, under every schedule *)

Lemma same_time_earlier (T : Z) (pre : list alarm_t) :
  Forall (fun x => time x < T) pre -> same_time T pre = [].
Proof.
  induction 1 as [|x pre Hx _ IH]; [reflexivity|].
  unfold same_time in *. simpl. destruct (Z.eqb_spec (time x) T); [lia | exact IH].
Qed.

Lemma same_time_app (T : Z) (l1 l2 : list alarm_t) :
  same_time T (l1 ++ l2) = same_time T l1 ++ same_time T l2.
Proof. apply List.filter_app. Qed.

(** A retrieval is reported by the dispatcher, of the head of the list. *)
Lemma step_retrieves (t : tid) (a : Z) (c c' : config) (hs : hands)
    (now expires : Z) (msg : string) :
  inv c -> kept c hs -> step t a c = Some c' ->
  log c' = log c ++ [(t, EvPrintf (Retrieved now expires msg))] ->
  t = 1%nat /\
  exists a0 l, alarm_list c = a0 :: l /\ expires = time a0 /\ msg = message a0.
Proof.
  intros Hinv Hkept Hstep Hlog'. unfold step in Hstep.
  destruct (process c); try discriminate.
  destruct (threads c !! t) as [[r [pc|]]|] eqn:Hlook; try discriminate.
  destruct (exec_effect _ _ _ _ _ _ Hstep)
    as (_ & _ & _ & _ & _ & (evs & Hlog & Hevs) & _).
  rewrite Hlog in Hlog'. apply app_inv_head in Hlog'. subst evs.
  destruct (Hevs t (Retrieved now expires msg) ltac:(left; reflexivity))
    as (_ & k & Hp).
  pose proof (stepping_role t r _ c Hinv Hlook) as Hrole.
  destruct (fetch_traced t r pc c hs Hinv Hkept Hlook) as (cur & seen & Htr & _ & Hcur).
  rewrite Hp in Htr. simpl in Htr.
  destruct Htr as (Hr & (a0 & l & Hl & -> & ->) & _).
  destruct (Hcur _ Hl) as [Hlist _]. subst r.
  split; [apply role_at_dispatcher, Hrole|].
  exists a0, l. auto.
Qed.

(** C2, amended. Under every schedule, and whether or not the end of the
    input has been seen, the records of the list that have one and the
    same [time] are a stack. A call that changes the list is [main]
    writing it with [insert alarm] applied, and then [alarm] is put in
    front of all the records of the list that have its [time] (the
    records before it are those of a strictly smaller [time]), the
    records with any other [time] staying as they are; or it is the
    dispatcher writing the list without its head, and then the head was
    the first of the records with its [time], the records with any other
    [time] staying as they are. And a retrieval is reported by the
    dispatcher only, with the [time] of the head of the list, which is
    the first of the records with that [time]. *)
Theorem equal_times_newest_first (input : string) (c : config) (t : tid) (a : Z)
    (c' : config) :
  reachable input c -> step t a c = Some c' ->
  (alarm_list c' = alarm_list c \/
   (t = 0%nat /\
    exists alarm,
      alarm_list c' = insert alarm (alarm_list c) /\
      (exists pre post,
         alarm_list c = pre ++ post /\ alarm_list c' = pre ++ alarm :: post /\
         Forall (fun x => time x < time alarm) pre) /\
      same_time (time alarm) (alarm_list c')
        = alarm :: same_time (time alarm) (alarm_list c) /\
      forall T, T <> time alarm ->
                same_time T (alarm_list c') = same_time T (alarm_list c)) \/
   (t = 1%nat /\
    exists a0,
      alarm_list c = a0 :: alarm_list c' /\
      same_time (time a0) (alarm_list c)
        = a0 :: same_time (time a0) (alarm_list c') /\
      forall T, T <> time a0 ->
                same_time T (alarm_list c') = same_time T (alarm_list c))) /\
  (forall now expires msg,
     log c' = log c ++ [(t, EvPrintf (Retrieved now expires msg))] ->
     t = 1%nat /\
     exists a0 l,
       alarm_list c = a0 :: l /\ expires = time a0 /\
       same_time expires (alarm_list c) = a0 :: same_time expires l).
Proof.
  intros Hreach Hstep. pose proof (reachable_inv input c Hreach) as Hinv.
  destruct (reachable_kept input c Hreach) as [hs Hkept]. split.
  - destruct (step_changes t a c c' hs Hinv Hkept Hstep)
      as ([Hsame|[(Ht & _ & alarm & Hins)|(Ht & a0 & Hpop)]] & _).
    + left. exact Hsame.
    + right. left. split; [exact Ht|]. exists alarm. split; [exact Hins|].
      destruct (insert_place _ _ _ Hins) as (pre & post & Hl & Hl' & Hpre & _).
      split; [exists pre, post; auto|].
      rewrite Hl, Hl'. split.
      * rewrite !same_time_app, (same_time_earlier _ _ Hpre). unfold same_time. simpl.
        rewrite Z.eqb_refl. reflexivity.
      * intros T HT. rewrite !same_time_app. unfold same_time at 2. simpl.
        destruct (Z.eqb_spec (time alarm) T); [congruence | reflexivity].
    + right. right. split; [exact Ht|]. exists a0. split; [exact Hpop|].
      rewrite Hpop. unfold same_time. simpl. split.
      * rewrite Z.eqb_refl. reflexivity.
      * intros T HT. destruct (Z.eqb_spec (time a0) T); [congruence | reflexivity].
  - intros now expires msg Hlog.
    destruct (step_retrieves t a c c' hs now expires msg Hinv Hkept Hstep Hlog)
      as (Ht & a0 & l & Hlist & He & Hm).
    split; [exact Ht|]. exists a0, l. split; [exact Hlist|]. split; [exact He|].
    rewrite Hlist, He. unfold same_time. simpl. rewrite Z.eqb_refl. reflexivity.
Qed.

(** [5 first] is in the list, the flag is not set, and [main] writes the
    list with [5 second] in: it comes first. *)
Lemma equal_times_newest_first_witness :
  alarm_done tie_writing = 0 /\
  same_time 5 (alarm_list tie_writing) = [tie_first] /\
  exists c',
    step 0%nat 0 tie_writing = Some c' /\
    same_time 5 (alarm_list c') = [tie_second; tie_first].
Proof.
  assert (H : reachable tie_requests tie_writing)
    by (exists (moves 0%nat (repeat 0 19)); vm_compute; reflexivity).
  split; [reflexivity|]. split; [reflexivity|].
  destruct (step 0%nat 0 tie_writing) as [c'|] eqn:Hstep;
    [|vm_compute in Hstep; discriminate Hstep].
  exists c'. split; [reflexivity|].
  destruct (proj1 (equal_times_newest_first tie_requests tie_writing 0%nat 0 c' H Hstep))
    as [Hsame|[(_ & alarm & Hins & _ & Hpush & _)|(Ht & _)]].
  - vm_compute in Hstep. injection Hstep as <-. vm_compute in Hsame. discriminate Hsame.
  - vm_compute in Hstep. injection Hstep as <-.
    change (alarm_list tie_writing) with [tie_first] in Hins, Hpush.
    assert (Halarm : alarm = tie_second).
    { cbn [alarm_list] in Hins. unfold insert in Hins.
      destruct (time tie_first >=? time alarm).
      - injection Hins as Hfirst. symmetry. exact Hfirst.
      - injection Hins as Hfirst _. discriminate Hfirst. }
    subst alarm. exact Hpush.
  - discriminate Ht.
Defined.

(** ** One request, from the prompt to its expiry *)

Lemma within_limits_app (l1 l2 : list (tid * event)) :
  within_limits (l1 ++ l2) = within_limits l1 && within_limits l2.
Proof.
  unfold within_limits, lines_read, printed.
  rewrite !omap_app, !forallb_app.
  destruct (forallb fits_message _), (forallb fits_message _),
    (forallb report_fits _), (forallb report_fits _); reflexivity.
Qed.

(** X13. One request, served. Nothing is queued, the mutex is free, and
    [main] (thread [m]) and the dispatcher (thread [d]) are at the top of
    their loops; so far the program has stayed within the limits of the
    [message] array and of [%d]. [main] reads a request that parses, with
    a message of fewer than 64 characters, and queues it; the dispatcher
    takes it off the list and starts a thread for it, the next in the
    pool; that thread reads a time that is not before the expiry. All the
    times printed fit an [int]. The three reports show the same expiry,
    [t0 + secs] with [t0] the time [main] read first, and the same
    message; in the end the list is empty again, the worker has exited,
    and the program is still within those limits. *)
Theorem request_served (c : config) (m d : tid) (line rest : string) (secs : Z)
    (msg : string) (t0 t1 t2 t3 : Z) :
  at_top c m None -> at_top c d (Some AlarmThread) ->
  alarm_mutex c = None -> alarm_list c = [] ->
  fgets line_size (stdin c) = Some (line, rest) ->
  sscanf_alarm line = ScanBoth secs msg ->
  t0 + secs <= t3 ->
  within_limits (log c) = true ->
  (String.length msg < message_size)%nat ->
  fits_int (t0 + secs) = true -> fits_int t1 = true ->
  fits_int t2 = true -> fits_int t3 = true ->
  let w := length (threads c) in
  exists c',
    run (moves m [0; 0; 0; 0; t0; t1; 0; 0; 0; 0] ++
         moves d [0; 0; t2; 0; 0; 0; 0] ++
         moves w [t3; 0; 0; 0]) c = Some c' /\
    printed (drop (length (log c)) (log c')) =
      [Prompt; Received t1 (t0 + secs) msg; Retrieved t2 (t0 + secs) msg;
       Expired t3 (t0 + secs) msg] /\
    alarm_list c' = [] /\ alarm_mutex c' = None /\
    threads c' = threads c ++
                 [mk_thread (Some (IndividualAlarmThread (mk_alarm secs (t0 + secs) msg)))
                            Exited] /\
    process c' = Alive /\
    within_limits (log c') = true.
Proof.
  intros Hm Hd Hfree Hempty Hline Hparse Hdue Hlimits Hmsg He H1 H2 H3 w.
  destruct (queued_run c m line rest secs msg t0 t1 Hm Hfree Hline Hparse)
    as (c1 & Hrun1 & Hlist1 & Hlog1 & Hm1 & Hfree1 & _ & Hthreads1 & _).
  rewrite Hempty in Hlist1. cbn [insert] in Hlist1.
  assert (Hd1 : at_top c1 d (Some AlarmThread)).
  { split; [apply Hm1 | rewrite Hthreads1; apply Hd]. }
  pose proof (alarm_thread_pop c1 d Hd1 Hfree1 _ _ t2 Hlist1) as Hrun2.
  set (alarm := mk_alarm secs (t0 + secs) msg) in *.
  match type of Hrun2 with _ = Some ?x => set (c2 := x) in * end.
  assert (Hw : at_top c2 w (Some (IndividualAlarmThread alarm))).
  { split; [reflexivity|]. unfold c2. cbn [threads]. rewrite Hthreads1.
    unfold w. rewrite lookup_app_r by lia. rewrite Nat.sub_diag. reflexivity. }
  pose proof (individual_alarm_thread_expired c2 w alarm t3 Hw Hdue) as Hrun3.
  unfold run_thread in Hrun1, Hrun2, Hrun3. unfold moves.
  rewrite run_app, Hrun1, run_app, Hrun2, Hrun3.
  eexists. split; [reflexivity|].
  cbn [alarm_list alarm_mutex threads process log c2].
  split; [|split; [reflexivity|]; split; [reflexivity|]; split; [|split; [reflexivity|]]].
  - rewrite Hlog1, <- !app_assoc. rewrite drop_app_length. reflexivity.
  - rewrite Hthreads1. unfold w.
    rewrite insert_app_r_alt by lia. rewrite Nat.sub_diag. reflexivity.
  - rewrite Hlog1, !within_limits_app, Hlimits.
    unfold within_limits, lines_read, printed, by_thread, alarm. simpl.
    unfold fits_message. rewrite Hparse. simpl.
    apply Nat.ltb_lt in Hmsg. rewrite Hmsg, He, H1, H2, H3. reflexivity.
Qed.

Lemma request_served_witness :
  within_limits (log open_config) = true /\
  exists c',
    run (moves 0%nat [0; 0; 0; 0; 7; 8; 0; 0; 0; 0] ++
         moves 1%nat [0; 0; 9; 0; 0; 0; 0] ++
         moves 2%nat [20; 0; 0; 0]) open_config = Some c' /\
    printed (drop (length (log open_config)) (log c')) =
      [Prompt; Received 8 17 "first"; Retrieved 9 17 "first"; Expired 20 17 "first"] /\
    alarm_list c' = [] /\
    threads c' = threads open_config ++
                 [mk_thread (Some (IndividualAlarmThread (mk_alarm 10 17 "first"))) Exited].
Proof.
  split; [reflexivity|].
  destruct (request_served open_config 0%nat 1%nat (line_of "10 first")
              (line_of "3 second") 10 "first" 7 8 9 20)
    as (c' & Hrun & Hprinted & Hlist & _ & Hthreads & _).
  - split; reflexivity.
  - split; reflexivity.
  - reflexivity.
  - reflexivity.
  - reflexivity.
  - reflexivity.
  - vm_compute. discriminate.
  - reflexivity.
  - vm_compute. lia.
  - reflexivity.
  - reflexivity.
  - reflexivity.
  - reflexivity.
  - exists c'. repeat split; assumption.
Defined.

